(** * Discord token-address scanner: detection, verification and dispatch

    A shallow embedding of the content script of the scanner (the file that
    declares [solanaAddressRegex], [checkForSolanaAddresses],
    [fullTokenVerification] and [sendToBloomBot]) and the properties of its
    specification.

    Conventions of the embedding.
    - A JavaScript string is the list of its code units; the embedding covers
      the code units below 256 ([ascii]).  Every character the source tests
      for is in that range.
    - The process-wide collections ([foundAddresses], [processedMessageIds],
      [bloomSentAddresses], [verificationResults]) are finite sets and maps;
      the two message stores are lists in the order the arrays hold them.
    - Everything the script does to the outside (provider requests, requests
      to the reconstruction model, the message that forwards an address) is
      appended to an event log carried by the state.  What the outside
      answers is an environment whose answers may depend on the whole log.
    - Asynchronous calls are taken in program order: an awaited call, and the
      call the buffer starts in the background, run to completion where they
      are made.  The race between the verification providers is modelled
      with explicit times in milliseconds.
    - The page (badges, buttons, overlay) and [chrome.storage] are left out. *)

From Stdlib Require Import List Ascii String ZArith Lia Bool Arith.
From stdpp Require Import base option list sets gmap strings sorting.
Import ListNotations.

Local Open Scope list_scope.
Local Open Scope nat_scope.

(** ** Strings *)

Abbreviation jsstring := (list ascii).

Definition lit (s : string) : jsstring := list_ascii_of_string s.

Definition codeOf (c : ascii) : N := N_of_ascii c.

(** [a-b] inside a character class *)
Definition between (a b c : ascii) : bool :=
  ((codeOf a <=? codeOf c) && (codeOf c <=? codeOf b))%N.

Definition isChar (a c : ascii) : bool := (codeOf a =? codeOf c)%N.

(** [[1-9A-HJ-NP-Za-km-z]] *)
Definition base58 (c : ascii) : bool :=
  between "1" "9" c || between "A" "H" c || between "J" "N" c ||
  between "P" "Z" c || between "a" "k" c || between "m" "z" c.

(** [\d], [\w], [\s], [.] and the negated classes of the source *)
Definition digit (c : ascii) : bool := between "0" "9" c.

Definition wordChar (c : ascii) : bool :=
  between "A" "Z" c || between "a" "z" c || digit c || isChar "_" c.

Definition whiteSpace (c : ascii) : bool :=
  ((9 <=? codeOf c) && (codeOf c <=? 13) || (codeOf c =? 32) || (codeOf c =? 160))%N.

Definition notLineEnd (c : ascii) : bool :=
  negb ((codeOf c =? 10) || (codeOf c =? 13))%N.

Definition notChar (a c : ascii) : bool := negb (isChar a c).

Definition AorP (c : ascii) : bool := isChar "A" c || isChar "P" c.

Fixpoint startsWith (p s : jsstring) : bool :=
  match p, s with
  | [], _ => true
  | a :: p', c :: s' => isChar a c && startsWith p' s'
  | _ :: _, [] => false
  end.

Definition endsWith (s p : jsstring) : bool := startsWith (rev p) (rev s).

Fixpoint includes (s p : jsstring) : bool :=
  startsWith p s || match s with [] => false | _ :: s' => includes s' p end.

(** [String.prototype.trim] *)
Fixpoint trimStart (s : jsstring) : jsstring :=
  match s with
  | c :: s' => if whiteSpace c then trimStart s' else s
  | [] => []
  end.

Definition trim (s : jsstring) : jsstring := rev (trimStart (rev (trimStart s))).

(** [s.split('\n')] *)
Fixpoint splitLines (s : jsstring) : list jsstring :=
  match s with
  | [] => [[]]
  | c :: s' =>
      if isChar "010" c then [] :: splitLines s'
      else match splitLines s' with
           | l :: ls => (c :: l) :: ls
           | [] => [[c]]
           end
  end.

(** [parts.join(sep)] *)
Fixpoint join (sep : jsstring) (parts : list jsstring) : jsstring :=
  match parts with
  | [] => []
  | [p] => p
  | p :: ps => p ++ sep ++ join sep ps
  end.

(** ** Regular expressions

    The source's patterns are sequences of: a character class under a greedy
    bounded repetition, an optional literal group, [\b], [^] and [$].  The
    matcher follows the backtracking order of the language: a repetition
    first takes as many characters as it can and gives them back one at a
    time. *)

Inductive atom : Type :=
| Rep (cls : ascii -> bool) (lo : nat) (hi : option nat)
| Opt (l : jsstring)
| WordB
| Bol
| Eol.

Abbreviation regex := (list atom).

Definition One (cls : ascii -> bool) : atom := Rep cls 1 (Some 1).
Definition Star (cls : ascii -> bool) : atom := Rep cls 0 None.
Definition Plus (cls : ascii -> bool) : atom := Rep cls 1 None.
Definition Chars (l : string) : regex := map (fun a => One (isChar a)) (lit l).

(** number of leading characters of [s] in the class *)
Fixpoint span (cls : ascii -> bool) (s : jsstring) : nat :=
  match s with
  | c :: s' => if cls c then S (span cls s') else 0
  | [] => 0
  end.

Definition run (cls : ascii -> bool) (hi : option nat) (s : jsstring) : nat :=
  match hi with
  | Some h => Nat.min h (span cls s)
  | None => span cls s
  end.

(** the character before the position reached after [n] characters of [s] *)
Definition prevAt (prev : option ascii) (s : jsstring) (n : nat) : option ascii :=
  match n with
  | 0 => prev
  | S m => match nth_error s m with Some c => Some c | None => prev end
  end.

(** tries [k], [k-1], ..., [lo] *)
Fixpoint tryDown {A : Type} (f : nat -> option A) (lo k : nat) : option A :=
  if k <? lo then None
  else match f k with
       | Some v => Some v
       | None => match k with
                 | 0 => None
                 | S k' => tryDown f lo k'
                 end
       end.

Definition isWordOpt (c : option ascii) : bool :=
  match c with Some a => wordChar a | None => false end.

(** [matchAt r prev s]: the length of the match of [r] that starts at the head
    of [s], where [prev] is the character before it ([None] at index 0). *)
Fixpoint matchAt (r : regex) (prev : option ascii) (s : jsstring) : option nat :=
  match r with
  | [] => Some 0
  | Rep cls lo hi :: r' =>
      tryDown
        (fun n => option_map (Nat.add n) (matchAt r' (prevAt prev s n) (drop n s)))
        lo (run cls hi s)
  | Opt l :: r' =>
      if startsWith l s then
        match matchAt r' (prevAt prev s (length l)) (drop (length l) s) with
        | Some n => Some (length l + n)
        | None => matchAt r' prev s
        end
      else matchAt r' prev s
  | WordB :: r' =>
      if xorb (isWordOpt prev) (isWordOpt (head s)) then matchAt r' prev s else None
  | Bol :: r' =>
      match prev with None => matchAt r' prev s | Some _ => None end
  | Eol :: r' =>
      match s with [] => matchAt r' prev s | _ :: _ => None end
  end.

(** leftmost match: its offset in [s] and its length *)
Fixpoint search (r : regex) (prev : option ascii) (s : jsstring) : option (nat * nat) :=
  match matchAt r prev s with
  | Some n => Some (0, n)
  | None =>
      match s with
      | [] => None
      | c :: s' =>
          match search r (Some c) s' with
          | Some (i, n) => Some (S i, n)
          | None => None
          end
      end
  end.

(** [r.test(s)] *)
Definition test (r : regex) (s : jsstring) : bool :=
  match search r None s with Some _ => true | None => false end.

(** [s.match(r)] without the [g] flag: the text of the first match *)
Definition firstMatch (r : regex) (s : jsstring) : option jsstring :=
  match search r None s with
  | Some (i, n) => Some (take n (drop i s))
  | None => None
  end.

(** [s.match(r)] with the [g] flag, and the [exec] loop of a [g] pattern: all
    matches from left to right, none overlapping.  [skip] counts the
    characters of the last match that are still to be passed. *)
Fixpoint scan (r : regex) (prev : option ascii) (s : jsstring) (skip : nat)
  : list jsstring :=
  match skip with
  | S k =>
      match s with
      | [] => []
      | c :: s' => scan r (Some c) s' k
      end
  | 0 =>
      match matchAt r prev s with
      | Some n =>
          take n s ::
          match s with
          | [] => []
          | c :: s' => scan r (Some c) s' (Nat.pred n)
          end
      | None =>
          match s with
          | [] => []
          | c :: s' => scan r (Some c) s' 0
          end
      end
  end.

Definition matchAll (r : regex) (s : jsstring) : list jsstring := scan r None s 0.

(** [s.replace(r, '')] with the [g] flag *)
Fixpoint strip (r : regex) (prev : option ascii) (s : jsstring) (skip : nat)
  : jsstring :=
  match skip with
  | S k =>
      match s with
      | [] => []
      | c :: s' => strip r (Some c) s' k
      end
  | 0 =>
      match matchAt r prev s with
      | Some (S n) =>
          match s with
          | [] => []
          | c :: s' => strip r (Some c) s' n
          end
      | _ =>
          match s with
          | [] => []
          | c :: s' => c :: strip r (Some c) s' 0
          end
      end
  end.

Definition removeAll (r : regex) (s : jsstring) : jsstring := strip r None s 0.

(** [s.replace(r, '')] without the [g] flag *)
Definition removeFirst (r : regex) (s : jsstring) : jsstring :=
  match search r None s with
  | Some (i, n) => take i s ++ drop (i + n) s
  | None => s
  end.

(** ** The patterns of the source *)

(** [/\b[1-9A-HJ-NP-Za-km-z]{32,44}\b/g] *)
Definition solanaAddressRegex : regex := [WordB; Rep base58 32 (Some 44); WordB].

(** [/^[1-9A-HJ-NP-Za-km-z]+$/] *)
Definition onlyBase58 : regex := [Bol; Plus base58; Eol].

(** [/^[1-9A-HJ-NP-Za-km-z]{32,44}$/] *)
Definition wholeAddress : regex := [Bol; Rep base58 32 (Some 44); Eol].

(** [/<[^>]*>/g], [/data-address="[^"]*"/g], [/style="[^"]*"/g] and
    [/Verifying.../g] of [sanitizeAddress]; character 34 is the double quote *)
Definition markupTag : regex := Chars "<" ++ [Star (notChar ">")] ++ Chars ">".

Definition quoted : regex := [One (isChar "034"); Star (notChar "034"); One (isChar "034")].

Definition dataAddressAttr : regex := Chars "data-address=" ++ quoted.

Definition styleAttr : regex := Chars "style=" ++ quoted.

Definition verifyingNote : regex :=
  Chars "Verifying" ++ [One notLineEnd; One notLineEnd; One notLineEnd].

(** [/[1-9A-HJ-NP-Za-km-z]{32,44}/] *)
Definition addressRun : regex := [Rep base58 32 (Some 44)].

(** the four timestamp patterns of [cleanMessageText] *)
Definition clockTime : regex :=
  [Plus digit] ++ Chars ":" ++ [Plus digit; Star whiteSpace; One AorP] ++ Chars "M".

Definition todayAt : regex := Chars "Today at " ++ clockTime.

Definition yesterdayAt : regex :=
  Chars "Yesterday at " ++ [Plus digit] ++ Chars ":" ++ [Plus digit].

Definition bracketedTime : regex := Chars "[" ++ clockTime ++ Chars "]".

(** [/CA:?\s*/] and [/CA:?\s*([1-9A-HJ-NP-Za-km-z]{3,44})/g] *)
Definition caMarker : regex := Chars "CA" ++ [Opt (lit ":"); Star whiteSpace].

Definition caMarked : regex := caMarker ++ [Rep base58 3 (Some 44)].

(** [/CA:?\s*[1-9A-HJ-NP-Za-km-z]/] *)
Definition caTrigger : regex := caMarker ++ [One base58].

(** [/\bpump\b/] and [/\bMSNJn(pump)?\b/] *)
Definition pumpWord : regex := [WordB] ++ Chars "pump" ++ [WordB].

Definition msnjnWord : regex := [WordB] ++ Chars "MSNJn" ++ [Opt (lit "pump"); WordB].

(** [/\b[1-9A-HJ-NP-Za-km-z]{10,44}\b/g] and [/\b[1-9A-HJ-NP-Za-km-z]{10,31}\b/] *)
Definition fragmentPattern : regex := [WordB; Rep base58 10 (Some 44); WordB].

Definition shortRun : regex := [WordB; Rep base58 10 (Some 31); WordB].

(** [/[1-9A-HJ-NP-Za-km-z]{5,}/g] and [/[1-9A-HJ-NP-Za-km-z]{5,10}/g] *)
Definition sequentialFragment : regex := [Rep base58 5 None].

Definition partialRun : regex := [Rep base58 5 (Some 10)].

(** ** Pure helpers of the source *)

(** [sanitizeAddress] *)
Definition sanitizeAddress (address : jsstring) : option jsstring :=
  let cleanedAddress :=
    trim (removeAll verifyingNote
           (removeAll styleAttr
             (removeAll dataAddressAttr
               (removeAll markupTag address)))) in
  firstMatch addressRun cleanedAddress.

(** [cleanMessageText]; an absent text is [None] *)
Definition cleanMessageText (text : option jsstring) : jsstring :=
  match text with
  | None => []
  | Some [] => []
  | Some t =>
      trim (removeAll bracketedTime
             (removeAll yesterdayAt
               (removeAll clockTime
                 (removeAll todayAt t))))
  end.

Module Part.

Inductive kind : Type := ca_prefix | pump_suffix | msnjn_suffix | fragment.

#[global] Instance kind_eq_dec : EqDecision kind.
Proof. solve_decision. Defined.

Record t : Type := Build { text : jsstring; type : kind; isPumpEnding : bool }.

#[global] Instance t_eq_dec : EqDecision t.
Proof. solve_decision. Defined.

End Part.

(** [findPotentialAddressParts] *)
Definition findPotentialAddressParts (text : jsstring) : list Part.t :=
  let caParts :=
    map (fun m =>
           let addressPart := removeFirst caMarker m in
           Part.Build addressPart Part.ca_prefix (endsWith addressPart (lit "pump")))
        (matchAll caMarked text) in
  let pumpParts :=
    if test pumpWord text
    then [Part.Build (lit "pump") Part.pump_suffix true] else [] in
  let msnjnParts :=
    match firstMatch msnjnWord text with
    | Some m => [Part.Build m Part.msnjn_suffix true]
    | None => []
    end in
  let fragmentParts :=
    map (fun m => Part.Build m Part.fragment (endsWith m (lit "pump")))
        (matchAll fragmentPattern text) in
  caParts ++ pumpParts ++ msnjnParts ++ fragmentParts.

(** ** Data *)

(** the result object of a verification *)
Record VerificationInfo : Type := {
  verified : bool;
  name : option jsstring;
  symbol : option jsstring;
  platform : option jsstring;
  reason : option jsstring
}.

Definition unverified (why : string) : VerificationInfo :=
  {| verified := false; name := None; symbol := None; platform := None;
     reason := Some (lit why) |}.

Inductive Provider : Type := Jupiter | Birdeye | Registry.

(** what the script does to the outside: a request of a verification
    provider, a request to the completion service, a call of [processAddress]
    (a candidate handed on), and the two messages to the background script
    (['addressFound'] and ['pasteToBloomTab'], which forwards the address) *)
Inductive Event : Type :=
| ProviderRequest (p : Provider) (address : jsstring)
| ModelRequest (model systemPrompt userContent : jsstring)
| Processed (address messageText : jsstring) (isFromAI : bool)
| AddressFound (address messageText : jsstring)
| Forwarded (address : jsstring).

(** what a provider call does: it resolves with a result [t] ms after the
    call, throws after [t] ms, or stays pending for ever *)
Inductive Outcome : Type :=
| Resolves (t : N) (r : VerificationInfo)
| Throws (t : N)
| Pending.

(** the outside: the providers, and the text of the first choice of a
    completion ([None]: no choice, or the request failed) *)
Record Env : Type := {
  providerCall : Provider -> list Event -> jsstring -> Outcome;
  completion : list Event -> jsstring -> jsstring -> jsstring -> option jsstring
}.

(** the element a message arrived in: the id [getMessageId] finds by walking
    up from it, if there is one *)
Record Element : Type := { nearestId : option jsstring }.

Record Message : Type := {
  text : jsstring;
  element : Element;
  timestamp : Z
}.

Record MessageInfo : Type := { infoId : jsstring; infoText : jsstring }.

Definition MAX_WINDOW_SIZE : nat := 10.
Definition MAX_BUFFER_SIZE : nat := 20.
Definition BUFFER_TIME_WINDOW_MS : Z := 10000.

(** the initial value of [aiPrompt] *)
Definition aiPrompt0 : jsstring :=
  lit "You are a specialized AI that identifies Solana token addresses in text. " ++
  lit "Solana addresses are base58 encoded strings (32-44 characters) containing only " ++
  lit "characters from 1-9, A-H, J-N, P-Z, a-k, m-z. " ++
  lit "IMPORTANT PATTERNS: " ++
  lit "1. Many addresses end with 'pump', 'MSNJn', 'MSNJnpump', or similar suffixes. " ++
  lit "2. Addresses are often split very unevenly. " ++
  lit "3. Sometimes only a small part like 'pump' is on a separate line. " ++
  lit "4. Addresses often appear after 'CA:'. " ++
  lit "Respond with ONLY the complete reconstructed addresses, one per line, nothing else.".

(** the module-level variables of the script, and the event log *)
Record State : Type := {
  foundAddresses : gset jsstring;
  allMessages : list MessageInfo;
  processedMessageIds : gset jsstring;
  messageWindow : list Message;
  RECENT_MESSAGES_BUFFER : list Message;
  verificationResults : gmap jsstring VerificationInfo;
  bloomSentAddresses : gset jsstring;
  autoSendToBloom : bool;
  aiPrompt : jsstring;
  events : list Event
}.

Definition initialState : State :=
  {| foundAddresses := ∅; allMessages := []; processedMessageIds := ∅;
     messageWindow := []; RECENT_MESSAGES_BUFFER := [];
     verificationResults := ∅; bloomSentAddresses := ∅;
     autoSendToBloom := false; aiPrompt := aiPrompt0; events := [] |}.

Definition with_foundAddresses (v : gset jsstring) (st : State) : State :=
  {| foundAddresses := v; allMessages := allMessages st;
     processedMessageIds := processedMessageIds st;
     messageWindow := messageWindow st;
     RECENT_MESSAGES_BUFFER := RECENT_MESSAGES_BUFFER st;
     verificationResults := verificationResults st;
     bloomSentAddresses := bloomSentAddresses st;
     autoSendToBloom := autoSendToBloom st; aiPrompt := aiPrompt st;
     events := events st |}.

Definition with_allMessages (v : list MessageInfo) (st : State) : State :=
  {| foundAddresses := foundAddresses st; allMessages := v;
     processedMessageIds := processedMessageIds st;
     messageWindow := messageWindow st;
     RECENT_MESSAGES_BUFFER := RECENT_MESSAGES_BUFFER st;
     verificationResults := verificationResults st;
     bloomSentAddresses := bloomSentAddresses st;
     autoSendToBloom := autoSendToBloom st; aiPrompt := aiPrompt st;
     events := events st |}.

Definition with_processedMessageIds (v : gset jsstring) (st : State) : State :=
  {| foundAddresses := foundAddresses st; allMessages := allMessages st;
     processedMessageIds := v;
     messageWindow := messageWindow st;
     RECENT_MESSAGES_BUFFER := RECENT_MESSAGES_BUFFER st;
     verificationResults := verificationResults st;
     bloomSentAddresses := bloomSentAddresses st;
     autoSendToBloom := autoSendToBloom st; aiPrompt := aiPrompt st;
     events := events st |}.

Definition with_messageWindow (v : list Message) (st : State) : State :=
  {| foundAddresses := foundAddresses st; allMessages := allMessages st;
     processedMessageIds := processedMessageIds st;
     messageWindow := v;
     RECENT_MESSAGES_BUFFER := RECENT_MESSAGES_BUFFER st;
     verificationResults := verificationResults st;
     bloomSentAddresses := bloomSentAddresses st;
     autoSendToBloom := autoSendToBloom st; aiPrompt := aiPrompt st;
     events := events st |}.

Definition with_buffer (v : list Message) (st : State) : State :=
  {| foundAddresses := foundAddresses st; allMessages := allMessages st;
     processedMessageIds := processedMessageIds st;
     messageWindow := messageWindow st;
     RECENT_MESSAGES_BUFFER := v;
     verificationResults := verificationResults st;
     bloomSentAddresses := bloomSentAddresses st;
     autoSendToBloom := autoSendToBloom st; aiPrompt := aiPrompt st;
     events := events st |}.

Definition with_verificationResults (v : gmap jsstring VerificationInfo)
  (st : State) : State :=
  {| foundAddresses := foundAddresses st; allMessages := allMessages st;
     processedMessageIds := processedMessageIds st;
     messageWindow := messageWindow st;
     RECENT_MESSAGES_BUFFER := RECENT_MESSAGES_BUFFER st;
     verificationResults := v;
     bloomSentAddresses := bloomSentAddresses st;
     autoSendToBloom := autoSendToBloom st; aiPrompt := aiPrompt st;
     events := events st |}.

Definition with_bloomSentAddresses (v : gset jsstring) (st : State) : State :=
  {| foundAddresses := foundAddresses st; allMessages := allMessages st;
     processedMessageIds := processedMessageIds st;
     messageWindow := messageWindow st;
     RECENT_MESSAGES_BUFFER := RECENT_MESSAGES_BUFFER st;
     verificationResults := verificationResults st;
     bloomSentAddresses := v;
     autoSendToBloom := autoSendToBloom st; aiPrompt := aiPrompt st;
     events := events st |}.

Definition with_autoSendToBloom (v : bool) (st : State) : State :=
  {| foundAddresses := foundAddresses st; allMessages := allMessages st;
     processedMessageIds := processedMessageIds st;
     messageWindow := messageWindow st;
     RECENT_MESSAGES_BUFFER := RECENT_MESSAGES_BUFFER st;
     verificationResults := verificationResults st;
     bloomSentAddresses := bloomSentAddresses st;
     autoSendToBloom := v; aiPrompt := aiPrompt st;
     events := events st |}.

Definition with_aiPrompt (v : jsstring) (st : State) : State :=
  {| foundAddresses := foundAddresses st; allMessages := allMessages st;
     processedMessageIds := processedMessageIds st;
     messageWindow := messageWindow st;
     RECENT_MESSAGES_BUFFER := RECENT_MESSAGES_BUFFER st;
     verificationResults := verificationResults st;
     bloomSentAddresses := bloomSentAddresses st;
     autoSendToBloom := autoSendToBloom st; aiPrompt := v;
     events := events st |}.

(** appends an event to the log *)
Definition emit (e : Event) (st : State) : State :=
  {| foundAddresses := foundAddresses st; allMessages := allMessages st;
     processedMessageIds := processedMessageIds st;
     messageWindow := messageWindow st;
     RECENT_MESSAGES_BUFFER := RECENT_MESSAGES_BUFFER st;
     verificationResults := verificationResults st;
     bloomSentAddresses := bloomSentAddresses st;
     autoSendToBloom := autoSendToBloom st; aiPrompt := aiPrompt st;
     events := events st ++ [e] |}.

(** what a call returns that returns no object: [undefined], or a boolean *)
Inductive Returned : Type :=
| undefined
| boolean (b : bool).

(** a promise once it is settled, with the time it settles at *)
Inductive Settled : Type :=
| Fulfilled (t : N) (r : VerificationInfo)
| Rejected (t : N).

(** what [verifyWithTimeout] makes of a provider call: its timer rejects at
    [timeout]; a result that has not arrived by then is dropped; a result
    that arrives earlier fulfils the promise if it is verified and rejects it
    if not *)
Definition settle (o : Outcome) (timeout : N) : Settled :=
  match o with
  | Resolves t r =>
      if (t <? timeout)%N
      then (if verified r then Fulfilled t r else Rejected t)
      else Rejected timeout
  | Throws t => if (t <? timeout)%N then Rejected t else Rejected timeout
  | Pending => Rejected timeout
  end.

(** [Promise.any]: the promise that fulfils first, the earlier one in the
    array on equal times; [None] when all reject *)
Fixpoint promiseAny (ps : list Settled) : option (N * VerificationInfo) :=
  match ps with
  | [] => None
  | Rejected _ :: ps' => promiseAny ps'
  | Fulfilled t r :: ps' =>
      match promiseAny ps' with
      | Some (t', r') => if (t' <? t)%N then Some (t', r') else Some (t, r)
      | None => Some (t, r)
      end
  end.

Definition isVerified (result : option VerificationInfo) : bool :=
  match result with Some info => verified info | None => false end.

(** the length and alphabet test written at the candidate sites *)
Definition validCombined (combined : jsstring) : bool :=
  (32 <=? length combined) && (length combined <=? 44) && test wholeAddress combined.

(** the filter on the lines of a completion *)
Definition validLine (addr : jsstring) : bool :=
  (32 <=? length addr) && (length addr <=? 44) && test onlyBase58 addr.

Definition newline : jsstring := ["010"%char].

Definition twoMessagePrompt : jsstring :=
  lit "Identify Solana token addresses that might be split across these TWO CONSECUTIVE MESSAGES. " ++
  lit "Look for strings that could be parts of a Solana address (32-44 characters using only 1-9, A-H, J-N, P-Z, a-k, m-z). " ++
  lit "Try combining fragments from both messages. " ++
  lit "EXAMPLES: If message 1 has '4TMGdUxhLX8XG6' and message 2 has 'CfdZBAgrfTUpump', " ++
  lit "combine them to make '4TMGdUxhLX8XG6CfdZBAgrfTUpump'. " ++
  lit "Or if message 1 has '4SHEZCr1desjeP1' and message 2 has '4TMGdUxhLX8XG6', " ++
  lit "combine them to make '4SHEZCr1desjeP14TMGdUxhLX8XG6'. " ++
  lit "Respond with ONLY the complete addresses, one per line.".

Definition multiMessagePrompt : jsstring :=
  lit "You are a specialized AI that finds Solana addresses split across MULTIPLE MESSAGES. " ++
  lit "Look carefully for address fragments that appear in different messages, even if they don't seem related. " ++
  lit "Each message is separated by '----------'. " ++
  lit "IMPORTANT: Solana addresses are 32-44 characters long using characters from 1-9, A-H, J-N, P-Z, a-k, m-z. " ++
  lit "Many end with 'pump' suffix. " ++
  lit "Try ALL POSSIBLE combinations of text fragments across messages. " ++
  lit "Respond with ONLY the complete reconstructed addresses, one per line, nothing else.".

(** the text appended to [aiPrompt] after a failed attempt *)
Definition escalation (partials : list jsstring) : jsstring :=
  lit " IMPORTANT: Previous reconstructions were incorrect. Try different combinations including parts like '" ++
  join (lit "', '") partials ++
  lit "' to form a valid Solana address.".

(** the suffix joined to a fragment: without its first three characters when
    the fragment already ends with them *)
Definition combineWithSuffix (fragmentText suffixText : jsstring) : jsstring :=
  fragmentText ++
  (if endsWith fragmentText (take 3 suffixText) then drop 3 suffixText else suffixText).

Definition isFragment (p : Part.t) : bool :=
  bool_decide (Part.type p = Part.fragment) && negb (Part.isPumpEnding p).

Definition isSuffix (p : Part.t) : bool :=
  Part.isPumpEnding p || bool_decide (Part.type p = Part.pump_suffix) ||
  bool_decide (Part.type p = Part.msnjn_suffix).

(** [getMessageId]; [fresh] is the identifier it makes up when the walk finds
    none *)
Definition getMessageId (el : Element) (fresh : jsstring) : jsstring :=
  match nearestId el with
  | Some i => i
  | None => lit "msg_" ++ fresh
  end.

(** the loop of [addToMessageBuffer] that drops the entries older than the
    time window from the front *)
Fixpoint evictOld (now : Z) (buffer : list Message) : list Message :=
  match buffer with
  | m :: rest =>
      if (now - timestamp m >? BUFFER_TIME_WINDOW_MS)%Z then evictOld now rest
      else buffer
  | [] => []
  end.

(** the buffer after [addToMessageBuffer] has pushed [m] at the end, shifted
    on overflow and dropped the old entries *)
Definition pushBuffer (now : Z) (m : Message) (buffer : list Message) : list Message :=
  let buffer1 := buffer ++ [m] in
  let buffer2 := if MAX_BUFFER_SIZE <? length buffer1 then tail buffer1 else buffer1 in
  evictOld now buffer2.

(** [messageWindow.unshift(m)] followed by the [pop] on overflow *)
Definition pushWindow (m : Message) (window : list Message) : list Message :=
  let window1 := m :: window in
  if MAX_WINDOW_SIZE <? length window1 then removelast window1 else window1.

(** [allMessages.unshift(info)] followed by the [pop] above 50 *)
Definition pushAllMessages (info : MessageInfo) (l : list MessageInfo) : list MessageInfo :=
  let l1 := info :: l in
  if 50 <? length l1 then removelast l1 else l1.

(** ** The script *)

Section Script.

Variable env : Env.

(** the three providers: each issues one request and answers as the outside
    decides *)
Definition verifyJupiterToken (st : State) (address : jsstring) : State * Outcome :=
  (emit (ProviderRequest Jupiter address) st,
   providerCall env Jupiter (events st) address).

Definition verifyBirdeyeToken (st : State) (address : jsstring) : State * Outcome :=
  (emit (ProviderRequest Birdeye address) st,
   providerCall env Birdeye (events st) address).

Definition verifyRegistryToken (st : State) (address : jsstring) : State * Outcome :=
  (emit (ProviderRequest Registry address) st,
   providerCall env Registry (events st) address).

(** [verifyWithTimeout] *)
Definition verifyWithTimeout (verifyFn : State -> jsstring -> State * Outcome)
  (st : State) (address : jsstring) (timeout : N) : State * Settled :=
  let (st1, o) := verifyFn st address in (st1, settle o timeout).

(** [verifyTokenWithMultipleAPIs] *)
Definition verifyTokenWithMultipleAPIs (st : State) (address : jsstring)
  : State * VerificationInfo :=
  let (st1, p1) := verifyWithTimeout verifyJupiterToken st address 8000 in
  let (st2, p2) := verifyWithTimeout verifyBirdeyeToken st1 address 8000 in
  let (st3, p3) := verifyWithTimeout verifyRegistryToken st2 address 5000 in
  match promiseAny [p1; p2; p3] with
  | Some (_, result) => (st3, result)
  | None => (st3, unverified "Failed verification with all APIs")
  end.

(** the two guards that open [fullTokenVerification]: the result they return,
    or [None] when the address passes both; on a string, [!address] tests
    for the empty string *)
Definition formatRejection (address : jsstring) : option VerificationInfo :=
  if bool_decide (address = []) || (length address <? 32) || (44 <? length address)
  then Some (unverified "Invalid address format")
  else if negb (test onlyBase58 address)
  then Some (unverified "Invalid address characters")
  else None.

(** [fullTokenVerification] *)
Definition fullTokenVerification (st : State) (address : jsstring)
  : State * VerificationInfo :=
  match formatRejection address with
  | Some rejection => (st, rejection)
  | None => verifyTokenWithMultipleAPIs st address
  end.

(** [sendToBloomBot] *)
Definition sendToBloomBot (st : State) (address : jsstring) : State :=
  if bool_decide (address ∈ bloomSentAddresses st) then st
  else
    emit (Forwarded address)
      (with_bloomSentAddresses (bloomSentAddresses st ∪ {[address]}) st).

(** the value of a call of [sendToBloomBot]: the [return;] of the gate and
    the end of the body both give [undefined] *)
Definition sendToBloomBotReturns (st : State) (address : jsstring) : Returned :=
  if bool_decide (address ∈ bloomSentAddresses st) then undefined else undefined.

(** [updateAutoSendState] *)
Definition updateAutoSendState (st : State) (enabled : bool) : State :=
  with_autoSendToBloom enabled st.

(** [processAddress] *)
Definition processAddress (st : State) (address messageText : jsstring)
  (messageElement : Element) (isFromAI : bool) : State * option VerificationInfo :=
  let st0 := emit (Processed address messageText isFromAI) st in
  match sanitizeAddress address with
  | None => (st0, None)
  | Some cleanAddress =>
      let existingVerification := verificationResults st0 !! cleanAddress in
      let reuse :=
        if bool_decide (cleanAddress ∈ foundAddresses st0)
        then existingVerification else None in
      match reuse with
      | Some existing => (st0, Some existing)
      | None =>
          let st1 := with_foundAddresses (foundAddresses st0 ∪ {[cleanAddress]}) st0 in
          let (st2, info) := fullTokenVerification st1 cleanAddress in
          let st3 := with_verificationResults
                       (<[cleanAddress := info]> (verificationResults st2)) st2 in
          let st4 := emit (AddressFound cleanAddress messageText) st3 in
          (if autoSendToBloom st4 then sendToBloomBot st4 cleanAddress else st4,
           Some info)
      end
  end.

(** the parsing of a completion both callers share: trim, split into lines,
    keep the lines of valid length and alphabet *)
Definition parseCompletion (answer : option jsstring) : list jsstring :=
  match answer with
  | Some content => filter (fun addr => validLine addr = true) (splitLines (trim content))
  | None => []
  end.

(** [detectSplitAddressesWithAI] *)
Definition detectSplitAddressesWithAI (st : State) (text prompt model : jsstring)
  : State * list jsstring :=
  if length text <? 20 then (st, [])
  else
    let userContent :=
      lit "Analyze this text for potential split Solana addresses: " ++
      ["034"%char] ++ text ++ ["034"%char] in
    (emit (ModelRequest model prompt userContent) st,
     parseCompletion (completion env (events st) model prompt userContent)).

(** [processAddress] unless the address is in [foundAddresses] *)
Definition processIfNew (st : State) (address messageText : jsstring)
  (el : Element) : State :=
  if bool_decide (address ∈ foundAddresses st) then st
  else fst (processAddress st address messageText el true).

(** the body of the inner loop of [checkSequentialMessages]: both orders of
    one pair of fragments *)
Definition tryFragmentPair (el : Element) (fragment1 : jsstring) (st : State)
  (fragment2 : jsstring) : State :=
  let combined := fragment1 ++ fragment2 in
  let st1 :=
    if validCombined combined
    then processIfNew st combined (fragment1 ++ lit " + " ++ fragment2) el
    else st in
  let combined' := fragment2 ++ fragment1 in
  if negb (bool_decide (combined' = fragment1 ++ fragment2)) && validCombined combined'
  then processIfNew st1 combined' (fragment2 ++ lit " + " ++ fragment1) el
  else st1.

(** [checkSequentialMessages] *)
Definition checkSequentialMessages (st : State) : State :=
  let buffer := RECENT_MESSAGES_BUFFER st in
  if length buffer <? 2 then st
  else
    match nth_error buffer (length buffer - 2), nth_error buffer (length buffer - 1) with
    | Some m1, Some m2 =>
        let message1 := text m1 in
        let message2 := text m2 in
        let fragments1 := matchAll sequentialFragment message1 in
        let fragments2 := matchAll sequentialFragment message2 in
        let st1 :=
          fold_left
            (fun st' fragment1 =>
               fold_left (tryFragmentPair (element m2) fragment1) fragments2 st')
            fragments1 st in
        let combined := message1 ++ lit " " ++ message2 in
        let (st2, aiAddresses) :=
          detectSplitAddressesWithAI st1 combined twoMessagePrompt (lit "gpt-4") in
        fold_left (fun st' address => processIfNew st' address combined (element m2))
          aiAddresses st2
    | _, _ => st
    end.

(** [addToMessageBuffer]; [now] is the reading of the clock *)
Definition addToMessageBuffer (now : Z) (st : State) (text : jsstring)
  (element : Element) : State :=
  let st1 :=
    with_buffer
      (pushBuffer now {| text := text; element := element; timestamp := now |}
         (RECENT_MESSAGES_BUFFER st))
      st in
  if 2 <=? length (RECENT_MESSAGES_BUFFER st1) then checkSequentialMessages st1 else st1.

(** [checkMessageWindowForAddresses] *)
Definition checkMessageWindowForAddresses (st : State) : State :=
  match messageWindow st with
  | m0 :: m1 :: _ =>
      let currentMsg := text m0 in
      let previousMsg := text m1 in
      let combined := previousMsg ++ currentMsg in
      if (length previousMsg <? 20) && (length currentMsg <? 40) &&
         ((32 <=? length combined) && (length combined <=? 44)) &&
         test wholeAddress combined
      then processIfNew st combined (previousMsg ++ lit " + " ++ currentMsg) (element m0)
      else
        let combinedText :=
          join (newline ++ lit "----------" ++ newline) (map text (messageWindow st)) in
        let userContent :=
          lit "Analyze these messages for split Solana addresses:" ++
          newline ++ newline ++ combinedText in
        let st1 := emit (ModelRequest (lit "gpt-3.5-turbo") multiMessagePrompt userContent) st in
        fold_left (fun st' address => processIfNew st' address combinedText (element m0))
          (parseCompletion
             (completion env (events st) (lit "gpt-3.5-turbo") multiMessagePrompt userContent))
          st1
  | _ => st
  end.

(** the loop of [checkForSolanaAddresses] over the direct matches; the flag is
    [foundVerifiedAddress] *)
Definition processMatches (cleanedText : jsstring) (el : Element)
  (matches : list jsstring) (st : State) : State * bool :=
  fold_left
    (fun '(st', foundVerifiedAddress) address =>
       let (st'', result) := processAddress st' address cleanedText el false in
       (st'', foundVerifiedAddress || isVerified result))
    matches (st, false).

(** the body of the loop over fragments and suffixes: one pair *)
Definition tryFragmentSuffix (cleanedText : jsstring) (el : Element)
  (fragment : Part.t) (acc : State * bool) (suffix : Part.t) : State * bool :=
  let (st, foundVerifiedAddress) := acc in
  let combined := combineWithSuffix (Part.text fragment) (Part.text suffix) in
  if validCombined combined then
    let (st', res) := processAddress st combined cleanedText el true in
    (st', foundVerifiedAddress || isVerified res)
  else (st, foundVerifiedAddress).

(** the two nested loops over fragments and suffixes *)
Definition combineFragments (cleanedText : jsstring) (el : Element)
  (fragments suffixes : list Part.t) (st : State) : State * bool :=
  fold_left
    (fun acc fragment =>
       fold_left (tryFragmentSuffix cleanedText el fragment) suffixes acc)
    fragments (st, false).

(** the loop over the addresses of one completion; it stops at the first
    verified one *)
Fixpoint tryAIAddresses (cleanedText : jsstring) (el : Element)
  (aiAddresses : list jsstring) (st : State) : State * bool :=
  match aiAddresses with
  | [] => (st, false)
  | address :: rest =>
      let address' :=
        if includes cleanedText (lit "pump") && negb (endsWith address (lit "pump"))
        then address ++ lit "pump" else address in
      let (st', result) := processAddress st address' cleanedText el true in
      if isVerified result then (st', true)
      else tryAIAddresses cleanedText el rest st'
  end.

(** the [while] loop of the fallback, entered with [foundVerifiedAddress]
    false; the recursion is on [maxAttempts] *)
Fixpoint aiFallback (maxAttempts : nat) (cleanedText : jsstring) (el : Element)
  (st : State) : State :=
  match maxAttempts with
  | 0 => st
  | S remaining =>
      let (st1, aiAddresses) :=
        detectSplitAddressesWithAI st cleanedText (aiPrompt st) (lit "gpt-3.5-turbo") in
      match aiAddresses with
      | [] => st1
      | _ :: _ =>
          let (st2, foundVerifiedAddress) := tryAIAddresses cleanedText el aiAddresses st1 in
          if foundVerifiedAddress then st2
          else
            let partials := matchAll partialRun cleanedText in
            let st3 :=
              match partials with
              | [] => st2
              | _ :: _ => with_aiPrompt (aiPrompt st2 ++ escalation partials) st2
              end in
            aiFallback remaining cleanedText el st3
      end
  end.

(** the trigger of the reconstruction block *)
Definition reconstructionTrigger (cleanedText : jsstring) : bool :=
  includes cleanedText (lit "pump") || includes cleanedText (lit "MSNJn") ||
  test caTrigger cleanedText || bool_decide (firstMatch shortRun cleanedText ≠ None).

(** the part of [checkForSolanaAddresses] after the message id is recorded *)
Definition extractFromMessage (st : State) (cleanedText : jsstring) (el : Element)
  : State :=
  let (st1, foundVerifiedAddress) :=
    processMatches cleanedText el (matchAll solanaAddressRegex cleanedText) st in
  if negb foundVerifiedAddress && reconstructionTrigger cleanedText then
    let addressParts := findPotentialAddressParts cleanedText in
    let fragments := filter (fun p => isFragment p = true) addressParts in
    let suffixes := filter (fun p => isSuffix p = true) addressParts in
    let (st2, foundVerifiedAddress') :=
      combineFragments cleanedText el fragments suffixes st1 in
    if negb foundVerifiedAddress' then aiFallback 3 cleanedText el st2 else st2
  else st1.

(** [checkForSolanaAddresses]; [now] is the reading of the clock and [fresh]
    what [getMessageId] would make up *)
Definition checkForSolanaAddresses (now : Z) (fresh : jsstring) (st : State)
  (text : option jsstring) (messageElement : Element) : State :=
  match text with
  | None => st
  | Some t =>
      if bool_decide (t = []) || (length t <? 5) then st
      else
        let cleanedText := cleanMessageText text in
        if bool_decide (cleanedText = []) then st
        else
          let st1 := addToMessageBuffer now st cleanedText messageElement in
          let st2 :=
            with_messageWindow
              (pushWindow
                 {| text := cleanedText; element := messageElement; timestamp := now |}
                 (messageWindow st1))
              st1 in
          let messageId := getMessageId messageElement fresh in
          if bool_decide (messageId ∈ processedMessageIds st2) then st2
          else
            let st3 := with_processedMessageIds (processedMessageIds st2 ∪ {[messageId]}) st2 in
            let st4 :=
              with_allMessages
                (pushAllMessages {| infoId := messageId; infoText := cleanedText |}
                   (allMessages st3))
                st3 in
            extractFromMessage st4 cleanedText messageElement
  end.

End Script.

(** ** The notions of the specification *)

(** the canonical alphabet, character by character: 1-9, A-H, J-N, P-Z, a-k,
    m-z *)
Definition canonicalAlphabet : jsstring :=
  lit "123456789ABCDEFGHJKLMNPQRSTUVWXYZabcdefghijkmnopqrstuvwxyz".

(** a well-formed address: 32 to 44 characters, all of the alphabet *)
Definition wellFormed (s : jsstring) : Prop :=
  32 <= length s <= 44 ∧ Forall (λ c, c ∈ canonicalAlphabet) s.

(** [n] is within the upper bound of a repetition *)
Definition withinBound (hi : option nat) (n : nat) : bool :=
  match hi with Some h => n <=? h | None => true end.

(** the four characters the alphabet leaves out as ambiguous *)
Definition ambiguous : jsstring := lit "0OIl".

#[global] Instance wellFormed_dec (s : jsstring) : Decision (wellFormed s).
Proof. unfold wellFormed. apply _. Defined.

(** the failure results as the specification words them *)
Definition specInvalidFormat : VerificationInfo := unverified "invalid format".

Definition specNoProviderConfirmed : VerificationInfo := unverified "no provider confirmed".

(** the timeout of each provider in the race, in milliseconds *)
Definition providerTimeout (p : Provider) : N :=
  match p with
  | Jupiter => 8000
  | Birdeye => 8000
  | Registry => 5000
  end.

(** the log each provider of the race is called on: the requests go out in
    the order of the array *)
Definition raceHistory (st : State) (address : jsstring) (p : Provider) : list Event :=
  match p with
  | Jupiter => events st
  | Birdeye => events st ++ [ProviderRequest Jupiter address]
  | Registry =>
      events st ++ [ProviderRequest Jupiter address; ProviderRequest Birdeye address]
  end.

Definition answerOf (env : Env) (st : State) (address : jsstring) (p : Provider) : Outcome :=
  providerCall env p (raceHistory st address p) address.

(** a provider confirms at time [t] with result [r]: it resolves before its
    timeout with [verified] true *)
Definition confirms (o : Outcome) (timeout t : N) (r : VerificationInfo) : Prop :=
  o = Resolves t r ∧ (t < timeout)%N ∧ verified r = true.

(** the provider requests of a log *)
Definition providerRequests (l : list Event) : list (Provider * jsstring) :=
  omap (λ e, match e with ProviderRequest p a => Some (p, a) | _ => None end) l.

(** ** Sample data *)

(** the address of the script's test button *)
Definition sampleAddress : jsstring := lit "4k3Dyjzvzp8eMZWUXbBCjEvwSkkk59S5iCNLY3QrkX6R".

Definition confirmed (by_ : string) : VerificationInfo :=
  {| verified := true; name := Some (lit "Unknown Token"); symbol := None;
     platform := Some (lit by_); reason := None |}.

(** an outside where nothing answers: every provider stays pending, no
    completion arrives *)
Definition silentEnv : Env :=
  {| providerCall := λ _ _ _, Pending; completion := λ _ _ _ _, None |}.

(** an outside where every provider answers after 10 ms that the address is
    not verified *)
Definition refusingEnv : Env :=
  {| providerCall := λ _ _ _, Resolves 10 (unverified "Not found");
     completion := λ _ _ _ _, None |}.

(** an outside where the registry confirms after one second and the two
    other providers never answer *)
Definition registryEnv : Env :=
  {| providerCall := λ p _ _,
       match p with
       | Registry => Resolves 1000 (confirmed "Jupiter Registry")
       | _ => Pending
       end;
     completion := λ _ _ _ _, None |}.

(** ** Reading the log *)

(** the addresses forwarded downstream, in order *)
Definition forwards (l : list Event) : list jsstring :=
  omap (λ e, match e with Forwarded a => Some a | _ => None end) l.

(** the candidates handed to [processAddress], in order *)
Definition candidates (l : list Event) : list jsstring :=
  omap (λ e, match e with Processed a _ _ => Some a | _ => None end) l.

(** the system prompts of the requests of the reconstruction fallback (the
    requests to the default model), in order *)
Definition fallbackPrompts (l : list Event) : list jsstring :=
  omap (λ e, match e with
             | ModelRequest m p _ =>
                 if bool_decide (m = lit "gpt-3.5-turbo") then Some p else None
             | _ => None
             end) l.

(** the events a step from [st] to [st'] has added *)
Definition newEvents (st st' : State) : list Event :=
  drop (length (events st)) (events st').

(** [st'] comes after [st]: the log has only grown, the set of sent addresses
    has only grown, and every address forwarded in between was forwarded
    once, was not in the set before and is in it after *)
Record gated (st st' : State) : Prop := {
  g_extends : events st' = events st ++ newEvents st st';
  g_sent : bloomSentAddresses st ⊆ bloomSentAddresses st';
  g_once : NoDup (forwards (newEvents st st'));
  g_fresh : ∀ a, a ∈ forwards (newEvents st st') →
                 (a ∉ bloomSentAddresses st) ∧ (a ∈ bloomSentAddresses st')
}.

(** a gated step that leaves the message stores and the auto-send switch as
    they are *)
Record framed (st st' : State) : Prop := {
  f_gated : gated st st';
  f_window : messageWindow st' = messageWindow st;
  f_buffer : RECENT_MESSAGES_BUFFER st' = RECENT_MESSAGES_BUFFER st;
  f_ids : processedMessageIds st' = processedMessageIds st;
  f_all : allMessages st' = allMessages st;
  f_auto : autoSendToBloom st' = autoSendToBloom st
}.

(** a framed step that neither touches the prompt nor asks the fallback
    model *)
Record quiet (st st' : State) : Prop := {
  q_framed : framed st st';
  q_prompt : aiPrompt st' = aiPrompt st;
  q_silent : fallbackPrompts (newEvents st st') = []
}.

(** what one failed attempt on the message [cleanedText] appends to the
    prompt: nothing when the message has no run of 5 to 10 alphabet
    characters *)
Definition escalationFor (cleanedText : jsstring) : jsstring :=
  match matchAll partialRun cleanedText with
  | [] => []
  | partials => escalation partials
  end.

(** the prompt [p] after [k] failed attempts on [cleanedText] *)
Definition promptAfter (p cleanedText : jsstring) (k : nat) : jsstring :=
  p ++ mjoin (replicate k (escalationFor cleanedText)).

(** how many escalations [c] requests of a fallback of [n] attempts leave
    in the prompt: none when no request was made; one for every request but
    the last when the last request ended the loop (no address came back, or
    one was verified); and [n] when all [n] attempts failed *)
Definition keeps (n c k : nat) : Prop :=
  (c = 0 ∧ k = 0) ∨ (c = S k ∧ c <= n) ∨ (c = n ∧ k = n).

(** the fallback made [c] requests, the first with the prompt as it stood and
    each next one with one more escalation appended, and left [k] escalations
    in the prompt *)
Definition escalates (cleanedText : jsstring) (n : nat) (st st' : State) : Prop :=
  ∃ c k, keeps n c k ∧
    fallbackPrompts (newEvents st st') =
      map (promptAfter (aiPrompt st) cleanedText) (seq 0 c) ∧
    aiPrompt st' = promptAfter (aiPrompt st) cleanedText k.

(** the guards that open [checkForSolanaAddresses]: the text is there, has at
    least 5 characters, and is not empty once cleaned *)
Definition accepts (text : option jsstring) : bool :=
  match text with
  | None => false
  | Some t =>
      negb (bool_decide (t = []) || (length t <? 5)) &&
      negb (bool_decide (cleanMessageText text = []))
  end.

(** what the script is driven by: a message arrives, a send button is
    clicked, the auto-send box is switched *)
Inductive Action : Type :=
| Ingest (now : Z) (fresh : jsstring) (text : option jsstring) (el : Element)
| Click (address : jsstring)
| SetAutoSend (enabled : bool).

Definition perform (env : Env) (st : State) (a : Action) : State :=
  match a with
  | Ingest now fresh text el => checkForSolanaAddresses env now fresh st text el
  | Click address => sendToBloomBot st address
  | SetAutoSend enabled => updateAutoSendState st enabled
  end.

Definition runScript (env : Env) (actions : list Action) (st : State) : State :=
  fold_left (perform env) actions st.

(** the entry an action puts into the sliding window, if it puts one *)
Definition windowEntry (a : Action) : option Message :=
  match a with
  | Ingest now _ text el =>
      if accepts text
      then Some {| text := cleanMessageText text; element := el; timestamp := now |}
      else None
  | _ => None
  end.

(** eleven short messages, one per millisecond, each in its own element *)
Definition elevenMessages : list Action :=
  map (λ i, Ingest (Z.of_nat i) (lit "x") (Some (lit "hello there"))
              {| nearestId := Some (replicate (S i) "m"%char) |})
      (seq 0 11).

(** an outside where the completion service always proposes the sample
    address and every provider answers that it is not verified *)
Definition stubbornEnv : Env :=
  {| providerCall := λ _ _ _, Resolves 10 (unverified "Not found");
     completion := λ _ _ _ _, Some sampleAddress |}.



Definition elementA : Element := {| nearestId := Some (lit "message-a") |}.

Definition elementB : Element := {| nearestId := Some (lit "message-b") |}.


(** a message that is one fragment of 16 characters, and the state after its
    first delivery *)
Definition repeatedText : jsstring := lit "4TMGdUxhLX8XG6Cf".

Definition repeatedElement : Element := {| nearestId := Some (lit "message-r") |}.

Definition deliveredOnce : State :=
  checkForSolanaAddresses refusingEnv 0 (lit "r") initialState
    (Some repeatedText) repeatedElement.

(** the requests to the completion service in a log: the user content of
    each *)
Definition modelRequests (l : list Event) : list jsstring :=
  omap (λ e, match e with ModelRequest _ _ u => Some u | _ => None end) l.

(** two messages as they arrive: one that is cleaned to "abc", then the
    first [n] characters of the sample address *)
Definition abcThen (n : nat) : list Action :=
  [ Ingest 0 (lit "a") (Some (lit "abc 1:05 PM")) elementA;
    Ingest 1 (lit "b") (Some (take n sampleAddress)) elementB ].

(** the state the script is in after these two messages, in a world that
    does not answer: the previous message of the window is "abc" and the
    current one the first 41 characters of the sample address *)
Definition windowAbc41 : State := runScript silentEnv (abcThen 41) initialState.

(** the same with the first 39 characters of the sample address *)
Definition windowAbc39 : State := runScript silentEnv (abcThen 39) initialState.

(** the two entries of these windows *)
Definition abcEntry : Message :=
  {| text := lit "abc"; element := elementA; timestamp := 0 |}.

Definition addressEntry (n : nat) : Message :=
  {| text := take n sampleAddress; element := elementB; timestamp := 1 |}.

(** a fragment of 28 characters, a message that holds it next to the word
    pump, and a message that holds the sample address as well *)
Definition fragment28 : jsstring := lit "4TMGdUxhLX8XG6CfdZBAgrfTUabc".

Definition fragmentMessage : jsstring := fragment28 ++ lit " pump".

Definition fragmentAndAddressMessage : jsstring :=
  sampleAddress ++ lit " " ++ fragment28 ++ lit " pump".

Definition fragmentPart : Part.t := Part.Build fragment28 Part.fragment false.

Definition pumpPart : Part.t := Part.Build (lit "pump") Part.pump_suffix true.

(** the scenario of the specification: auto-send is on, a message with the
    sample address after the marker arrives, and is delivered a second time *)
Definition markedMessage : jsstring := lit "CA: " ++ sampleAddress.

Definition endToEnd : list Action :=
  [ SetAutoSend true;
    Ingest 0 (lit "e") (Some markedMessage) elementA;
    Ingest 5 (lit "e") (Some markedMessage) elementA ].

(** ** Notions for the further properties *)

(** no white space at either end *)
Definition trimmed (s : jsstring) : Prop :=
  (∀ c, head s = Some c → whiteSpace c = false) ∧
  (∀ c, last s = Some c → whiteSpace c = false).

(** a string the cleanup of [sanitizeAddress] finds nothing in: alphabet
    characters only, and no occurrence of the badge text *)
Definition plainRun (s : jsstring) : Prop :=
  forallb base58 s = true ∧ includes s (lit "Verifying") = false.

#[global] Instance plainRun_dec (s : jsstring) : Decision (plainRun s).
Proof. unfold plainRun. apply _. Defined.

(** a message wrapped the way the page shows a found address *)
Definition badgeText : jsstring :=
  lit "<span style=" ++ ["034"%char] ++ lit "color: white" ++ ["034"%char] ++ lit ">" ++
  sampleAddress ++ lit "</span> Verifying...".

(** the log of [s] continues the log of [st0], and every event added since
    satisfies [ok] *)
Definition since (st0 : State) (ok : Event → Prop) (s : State) : Prop :=
  events s = events st0 ++ newEvents st0 s ∧ Forall ok (newEvents st0 s).

(** a click on a send button: the buttons the script makes carry sanitized
    addresses *)
Definition clickWellFormed (a : Action) : Prop :=
  match a with
  | Click c => wellFormed c
  | _ => True
  end.

(** the state after the first delivery of the marked message with auto-send
    on, in a world where the registry confirms *)
Definition afterMarked : State :=
  runScript registryEnv
    [SetAutoSend true; Ingest 0 (lit "e") (Some markedMessage) elementA] initialState.

(** the address a provider request, a notice or a forward is about *)
Definition subject (e : Event) : option jsstring :=
  match e with
  | ProviderRequest _ a => Some a
  | AddressFound a _ => Some a
  | Forwarded a => Some a
  | _ => None
  end.

(** the registry holds well-formed addresses only, every stored result is for
    a found address, and the log speaks of well-formed addresses only *)
Definition registryOk (s : State) : Prop :=
  (∀ a, a ∈ foundAddresses s → wellFormed a) ∧
  (∀ a, a ∈ bloomSentAddresses s → wellFormed a) ∧
  dom (verificationResults s) ⊆ foundAddresses s ∧
  Forall (λ e, ∀ a, subject e = Some a → wellFormed a) (events s).

(** a well-formed address, or one with pump appended to it *)
Definition candidateShape (c : jsstring) : Prop :=
  wellFormed c ∨
  ∃ a, wellFormed a ∧ endsWith a (lit "pump") = false ∧ c = a ++ lit "pump".

(** the address is found and has a stored verification result *)
Definition recorded (a : jsstring) (s : State) : Prop :=
  a ∈ foundAddresses s ∧ is_Some (verificationResults s !! a).

(** the time stamps do not decrease along the list *)
Definition steady (l : list Message) : Prop :=
  StronglySorted (λ m m', (timestamp m <= timestamp m')%Z) l.

(** three messages that arrive within four seconds, and a fourth that
    arrives twenty seconds later *)
Definition spacedMessages : list Action :=
  [ Ingest 0 (lit "a") (Some (lit "first message")) elementA;
    Ingest 2000 (lit "b") (Some (lit "second message")) elementB;
    Ingest 4000 (lit "c") (Some (lit "third message")) elementA;
    Ingest 24000 (lit "d") (Some (lit "fourth message")) elementB ].

(** an event that is no request to the completion service, and whose
    candidate, if it is the entry of a call of [processAddress], is
    well-formed *)
Definition calm (e : Event) : Prop :=
  (∀ a m b, e = Processed a m b → wellFormed a) ∧ (∀ mo p u, e ≠ ModelRequest mo p u).

(** * Properties *)

(** ** The matcher on the anchored patterns *)

Lemma base58_alphabet (c : ascii) : base58 c = true ↔ c ∈ canonicalAlphabet.
Proof.
  assert (H : base58 c = bool_decide (c ∈ canonicalAlphabet)).
  { destruct c as [[] [] [] [] [] [] [] []]; vm_compute; reflexivity. }
  rewrite H. apply bool_decide_eq_true.
Qed.

Lemma forallb_base58 (s : jsstring) :
  forallb base58 s = true ↔ Forall (λ c, c ∈ canonicalAlphabet) s.
Proof.
  rewrite forallb_forall, List.Forall_forall.
  split; intros H c Hc; apply base58_alphabet, H, Hc.
Qed.

Lemma span_le cls (s : jsstring) : span cls s <= length s.
Proof. induction s as [|c s IH]; simpl; [lia|]. destruct (cls c); simpl; lia. Qed.

Lemma span_full cls (s : jsstring) : span cls s = length s ↔ forallb cls s = true.
Proof.
  induction s as [|c s IH]; simpl; [tauto|].
  destruct (cls c); simpl.
  - rewrite <- IH. lia.
  - split; [lia | discriminate].
Qed.

Lemma run_le cls hi (s : jsstring) : run cls hi s <= length s.
Proof. pose proof (span_le cls s). destruct hi; simpl; lia. Qed.

Lemma run_full cls hi (s : jsstring) :
  run cls hi s = length s ↔ forallb cls s = true ∧ withinBound hi (length s) = true.
Proof.
  pose proof (span_le cls s) as Hle. rewrite <- span_full.
  destruct hi as [h|]; simpl.
  - rewrite Nat.leb_le. lia.
  - tauto.
Qed.

Lemma tryDown_all_none {A} (f : nat → option A) lo k :
  (∀ n, n <= k → f n = None) → tryDown f lo k = None.
Proof.
  induction k as [|k IH]; intros H; simpl.
  - destruct (0 <? lo); [reflexivity|]. now rewrite (H 0).
  - destruct (S k <? lo); [reflexivity|].
    rewrite (H (S k)) by lia. apply IH. intros n Hn. apply H. lia.
Qed.

Lemma tryDown_top {A} (f : nat → option A) lo k v :
  lo <= k → f k = Some v → tryDown f lo k = Some v.
Proof.
  intros Hlo Hf. destruct k; simpl.
  - destruct (Nat.ltb_spec 0 lo); [lia|]. now rewrite Hf.
  - destruct (Nat.ltb_spec (S k) lo); [lia|]. now rewrite Hf.
Qed.

Lemma tryDown_below {A} (f : nat → option A) lo k :
  k < lo → tryDown f lo k = None.
Proof.
  intros H. destruct k; simpl.
  - destruct (Nat.ltb_spec 0 lo); [reflexivity | lia].
  - destruct (Nat.ltb_spec (S k) lo); [reflexivity | lia].
Qed.

(** A bounded run of a class followed by [$] matches exactly the strings made
    of the class whose length is within the bounds. *)
Lemma matchAt_rep_eol cls lo hi prev (s : jsstring) :
  matchAt [Rep cls lo hi; Eol] prev s =
  if forallb cls s && (lo <=? length s) && withinBound hi (length s)
  then Some (length s) else None.
Proof.
  cbn [matchAt].
  pose proof (run_le cls hi s) as Hle.
  pose proof (run_full cls hi s) as Hfull.
  destruct (decide (run cls hi s = length s)) as [Heq|Hne].
  - destruct (proj1 Hfull Heq) as [-> ->]. rewrite Heq.
    destruct (Nat.leb_spec lo (length s)); simpl.
    + apply tryDown_top; [assumption|].
      rewrite drop_all. simpl. f_equal. lia.
    + apply tryDown_below. assumption.
  - replace (forallb cls s && (lo <=? length s) && withinBound hi (length s))
      with false.
    + apply tryDown_all_none. intros n Hn.
      destruct (drop n s) eqn:Hd; [|reflexivity].
      apply (f_equal length) in Hd. rewrite length_drop in Hd. simpl in Hd. lia.
    + symmetry. apply not_true_is_false. intros H.
      apply andb_prop in H as [H H3]. apply andb_prop in H as [H1 H2].
      apply Hne, Hfull. auto.
Qed.

Lemma search_bol_later r c (s : jsstring) : search (Bol :: r) (Some c) s = None.
Proof.
  revert c. induction s as [|d s IH]; intros c; simpl; [reflexivity|].
  now rewrite IH.
Qed.

Lemma test_bol r (s : jsstring) :
  test (Bol :: r) s = match matchAt r None s with Some _ => true | None => false end.
Proof.
  unfold test. destruct s as [|c s]; simpl.
  - now destruct (matchAt r None []).
  - destruct (matchAt r None (c :: s)); [reflexivity|].
    now rewrite search_bol_later.
Qed.

Lemma test_onlyBase58 (s : jsstring) :
  test onlyBase58 s = forallb base58 s && (1 <=? length s).
Proof.
  unfold onlyBase58, Plus. rewrite test_bol, matchAt_rep_eol. unfold withinBound.
  now destruct (forallb base58 s), (1 <=? length s).
Qed.

Lemma test_wholeAddress (s : jsstring) :
  test wholeAddress s =
  forallb base58 s && (32 <=? length s) && (length s <=? 44).
Proof.
  unfold wholeAddress. rewrite test_bol, matchAt_rep_eol. unfold withinBound.
  now destruct (forallb base58 s), (32 <=? length s), (length s <=? 44).
Qed.

Lemma validCombined_wellFormed (s : jsstring) : validCombined s = true ↔ wellFormed s.
Proof.
  unfold validCombined, wellFormed. rewrite test_wholeAddress, <- forallb_base58.
  rewrite !andb_true_iff, !Nat.leb_le. tauto.
Qed.

Lemma validLine_wellFormed (s : jsstring) : validLine s = true ↔ wellFormed s.
Proof.
  unfold validLine, wellFormed. rewrite test_onlyBase58, <- forallb_base58.
  rewrite !andb_true_iff, !Nat.leb_le. intuition lia.
Qed.

Lemma formatRejection_cases (s : jsstring) :
  formatRejection s =
  if (length s <? 32) || (44 <? length s) then Some (unverified "Invalid address format")
  else if forallb base58 s then None
  else Some (unverified "Invalid address characters").
Proof.
  unfold formatRejection. rewrite test_onlyBase58.
  destruct (Nat.ltb_spec (length s) 32) as [H1|H1].
  - now rewrite orb_true_r.
  - rewrite orb_false_r.
    case_bool_decide as Hnil.
    + subst s. simpl in H1. lia.
    + cbn [orb]. destruct (44 <? length s); [reflexivity|].
      destruct (Nat.leb_spec 1 (length s)); [|lia].
      now destruct (forallb base58 s).
Qed.

Lemma formatRejection_None (s : jsstring) : formatRejection s = None ↔ wellFormed s.
Proof.
  rewrite formatRejection_cases. unfold wellFormed. rewrite <- forallb_base58.
  destruct (Nat.ltb_spec (length s) 32); simpl.
  - split; [discriminate | lia].
  - destruct (Nat.ltb_spec 44 (length s)).
    + split; [discriminate | lia].
    + destruct (forallb base58 s); split; try discriminate; intuition (try lia; try congruence).
Qed.

(** ** The format guards *)

(** C1. The guards that open [fullTokenVerification] let through exactly the
    strings of 32 to 44 characters that are all in the canonical alphabet:
    such a string goes on to the providers, every other string is answered
    with an unverified result.  Strings of 31 or 45 characters are rejected,
    and so is every string that holds one of 0, O, I, l. *)
Theorem address_format_exact (s : jsstring) :
  (formatRejection s = None ↔ wellFormed s) ∧
  (length s = 31 ∨ length s = 45 → formatRejection s ≠ None) ∧
  (∀ c, c ∈ ambiguous → c ∈ s → formatRejection s ≠ None) ∧
  (∀ env st, wellFormed s →
     fullTokenVerification env st s = verifyTokenWithMultipleAPIs env st s) ∧
  (∀ env st, ¬ wellFormed s →
     ∃ r, fullTokenVerification env st s = (st, r) ∧ verified r = false).
Proof.
  split; [apply formatRejection_None|].
  split; [|split; [|split]].
  - intros Hlen Hnone. apply formatRejection_None in Hnone as [Hl _]. lia.
  - intros c Hc Hin Hnone. apply formatRejection_None in Hnone as [_ Hall].
    rewrite List.Forall_forall in Hall.
    assert (Hcan : c ∈ canonicalAlphabet) by (apply Hall, list_elem_of_In, Hin).
    assert (Hno : Forall (λ a, base58 a = false) ambiguous)
      by (repeat constructor).
    rewrite Forall_forall in Hno. apply base58_alphabet in Hcan.
    rewrite (Hno c Hc) in Hcan. discriminate.
  - intros env st Hwf. unfold fullTokenVerification.
    now rewrite (proj2 (formatRejection_None s) Hwf).
  - intros env st Hwf. unfold fullTokenVerification.
    destruct (formatRejection s) as [r|] eqn:Hr.
    + exists r. split; [reflexivity|].
      rewrite formatRejection_cases in Hr.
      destruct ((length s <? 32) || (44 <? length s)); [now inversion Hr|].
      destruct (forallb base58 s); [discriminate | now inversion Hr].
    + exfalso. apply Hwf, formatRejection_None, Hr.
Qed.

Lemma address_format_exact_witness :
  formatRejection sampleAddress = None ∧
  formatRejection (lit "0" ++ drop 1 sampleAddress) ≠ None ∧
  formatRejection (take 31 sampleAddress) ≠ None.
Proof.
  split; [|split].
  - apply (proj1 (address_format_exact sampleAddress)).
    apply (bool_decide_unpack _). vm_compute. exact I.
  - apply (proj1 (proj2 (proj2 (address_format_exact _))) "0"%char).
    + apply (bool_decide_unpack _). vm_compute. exact I.
    + apply (bool_decide_unpack _). vm_compute. exact I.
  - apply (proj1 (proj2 (address_format_exact _))). left. reflexivity.
Defined.

(** C3, as amended.  A string that is not a well-formed address never
    reaches a provider: [fullTokenVerification] returns at once, with the
    state (and so the log of requests) untouched and an unverified result.
    The reason is "Invalid address format" when the length is outside
    32..44 and "Invalid address characters" when the length is right and a
    character is outside the alphabet. *)
Theorem malformed_fails_fast (env : Env) (st : State) (s : jsstring) :
  ¬ wellFormed s →
  ∃ r, fullTokenVerification env st s = (st, r) ∧
       verified r = false ∧
       providerRequests (events (fst (fullTokenVerification env st s))) =
         providerRequests (events st) ∧
       (if bool_decide (32 <= length s <= 44)
        then r = unverified "Invalid address characters"
        else r = unverified "Invalid address format").
Proof.
  intros Hwf. unfold fullTokenVerification.
  destruct (formatRejection s) as [r|] eqn:Hr.
  - exists r. rewrite formatRejection_cases in Hr. simpl fst.
    case_bool_decide as Hlen.
    + destruct (Nat.ltb_spec (length s) 32); [lia|].
      destruct (Nat.ltb_spec 44 (length s)); [lia|]. simpl in Hr.
      destruct (forallb base58 s); [discriminate|]. inversion Hr. auto.
    + destruct (Nat.ltb_spec (length s) 32); simpl in Hr.
      * inversion Hr. auto.
      * destruct (Nat.ltb_spec 44 (length s)); [|lia]. inversion Hr. auto.
  - exfalso. apply Hwf, formatRejection_None, Hr.
Qed.

Lemma malformed_fails_fast_witness :
  ∃ r, fullTokenVerification registryEnv initialState (lit "pump") = (initialState, r) ∧
       verified r = false ∧
       providerRequests
         (events (fst (fullTokenVerification registryEnv initialState (lit "pump")))) =
         providerRequests (events initialState) ∧
       r = unverified "Invalid address format".
Proof.
  apply (malformed_fails_fast registryEnv initialState (lit "pump")).
  apply (bool_decide_unpack _). vm_compute. exact I.
Defined.

(** C3 as the specification words it fails: the reason returned is not
    "invalid format"; for a string of the right length with a character
    outside the alphabet it is "Invalid address characters". *)
Lemma malformed_reason_counterexample :
  ¬ wellFormed (lit "0" ++ drop 1 sampleAddress) ∧
  snd (fullTokenVerification silentEnv initialState (lit "0" ++ drop 1 sampleAddress))
    ≠ specInvalidFormat ∧
  ¬ wellFormed (lit "pump") ∧
  snd (fullTokenVerification silentEnv initialState (lit "pump")) ≠ specInvalidFormat.
Proof.
  split; [|split; [|split]].
  - apply (bool_decide_unpack _). vm_compute. exact I.
  - vm_compute. discriminate.
  - apply (bool_decide_unpack _). vm_compute. exact I.
  - vm_compute. discriminate.
Qed.

(** ** The race between the providers *)

Lemma settle_fulfilled (o : Outcome) (timeout t : N) (r : VerificationInfo) :
  settle o timeout = Fulfilled t r ↔ confirms o timeout t r.
Proof.
  unfold confirms. destruct o as [t0 r0|t0|]; simpl.
  - destruct (N.ltb_spec t0 timeout) as [Hlt|Hge].
    + destruct (verified r0) eqn:Hv.
      * split; [intros [= -> ->]; auto | intros ([= -> ->] & _ & _); reflexivity].
      * split; [discriminate | intros ([= -> ->] & _ & Hv'); congruence].
    + split; [discriminate | intros ([= -> ->] & Hlt & _); lia].
  - split; [destruct (t0 <? timeout)%N; discriminate | intros ([=] & _)].
  - split; [discriminate | intros ([=] & _)].
Qed.

Lemma promiseAny_some (ps : list Settled) (t : N) (r : VerificationInfo) :
  promiseAny ps = Some (t, r) →
  Fulfilled t r ∈ ps ∧ ∀ t' r', Fulfilled t' r' ∈ ps → (t <= t')%N.
Proof.
  revert t r. induction ps as [|p ps IH]; intros t r; simpl; [discriminate|].
  destruct p as [t0 r0|t0].
  - destruct (promiseAny ps) as [[t1 r1]|] eqn:Hps.
    + destruct (IH t1 r1 eq_refl) as [Hin Hmin].
      destruct (N.ltb_spec t1 t0) as [Hlt|Hge]; intros [= <- <-].
      * split; [now right|]. intros t' r' Hin'.
        apply elem_of_cons in Hin' as [[= -> ->]|Hin']; [lia | eauto].
      * split; [now left|]. intros t' r' Hin'.
        apply elem_of_cons in Hin' as [[= -> ->]|Hin']; [lia|].
        specialize (Hmin _ _ Hin'). lia.
    + intros [= <- <-]. split; [now left|]. intros t' r' Hin'.
      apply elem_of_cons in Hin' as [[= -> ->]|Hin']; [lia|].
      clear IH. exfalso. induction ps as [|q ps IHps]; [inversion Hin'|].
      simpl in Hps. destruct q as [t2 r2|t2].
      * destruct (promiseAny ps) as [[t3 r3]|]; [destruct (t3 <? t2)%N|]; discriminate.
      * apply elem_of_cons in Hin' as [[=]|Hin']. auto.
  - intros H. destruct (IH _ _ H) as [Hin Hmin]. split; [now right|].
    intros t' r' Hin'. apply elem_of_cons in Hin' as [[=]|Hin']. eauto.
Qed.

Lemma promiseAny_none (ps : list Settled) :
  promiseAny ps = None → ∀ t r, Fulfilled t r ∉ ps.
Proof.
  induction ps as [|p ps IH]; simpl; intros H t r Hin; [inversion Hin|].
  destruct p as [t0 r0|t0].
  - destruct (promiseAny ps) as [[t1 r1]|]; [destruct (t1 <? t0)%N|]; discriminate.
  - apply elem_of_cons in Hin as [[=]|Hin]. exact (IH H _ _ Hin).
Qed.

Lemma race_unfold (env : Env) (st : State) (a : jsstring) :
  verifyTokenWithMultipleAPIs env st a =
  (emit (ProviderRequest Registry a)
     (emit (ProviderRequest Birdeye a) (emit (ProviderRequest Jupiter a) st)),
   match promiseAny
           [settle (answerOf env st a Jupiter) (providerTimeout Jupiter);
            settle (answerOf env st a Birdeye) (providerTimeout Birdeye);
            settle (answerOf env st a Registry) (providerTimeout Registry)] with
   | Some (_, result) => result
   | None => unverified "Failed verification with all APIs"
   end).
Proof.
  unfold verifyTokenWithMultipleAPIs, verifyWithTimeout, verifyJupiterToken,
    verifyBirdeyeToken, verifyRegistryToken, answerOf, raceHistory.
  cbn [emit events]. rewrite <- app_assoc. cbn [app providerTimeout].
  now destruct (promiseAny _) as [[? ?]|].
Qed.

Lemma race_member (env : Env) (st : State) (a : jsstring) (t : N) (r : VerificationInfo) :
  Fulfilled t r ∈
    [settle (answerOf env st a Jupiter) (providerTimeout Jupiter);
     settle (answerOf env st a Birdeye) (providerTimeout Birdeye);
     settle (answerOf env st a Registry) (providerTimeout Registry)] ↔
  ∃ p, confirms (answerOf env st a p) (providerTimeout p) t r.
Proof.
  rewrite !elem_of_cons, elem_of_nil. split.
  - intros [H|[H|[H|[]]]]; symmetry in H; apply settle_fulfilled in H; eauto.
  - intros [[] H]; apply settle_fulfilled in H; rewrite H; auto.
Qed.

(** C2, as amended.  For a well-formed address the three providers are
    requested in turn (Jupiter and Birdeye under 8000 ms, the registry under
    5000 ms).  If some provider resolves with [verified] true before its
    timeout, the result is that of such a provider, none of which resolved
    earlier; if none does (each times out, throws or answers unverified) the
    result is unverified with the reason "Failed verification with all
    APIs".  A result is returned in every case. *)
Theorem verification_race (env : Env) (st : State) (a : jsstring) :
  wellFormed a →
  let result := snd (fullTokenVerification env st a) in
  events (fst (fullTokenVerification env st a)) =
    events st ++ [ProviderRequest Jupiter a; ProviderRequest Birdeye a;
                  ProviderRequest Registry a] ∧
  ((∃ p t r, confirms (answerOf env st a p) (providerTimeout p) t r) →
   ∃ p t r, confirms (answerOf env st a p) (providerTimeout p) t r ∧
            result = r ∧
            ∀ p' t' r', confirms (answerOf env st a p') (providerTimeout p') t' r' →
                        (t <= t')%N) ∧
  ((∀ p t r, ¬ confirms (answerOf env st a p) (providerTimeout p) t r) →
   result = unverified "Failed verification with all APIs").
Proof.
  intros Hwf result. subst result. unfold fullTokenVerification.
  rewrite (proj2 (formatRejection_None a) Hwf), race_unfold. cbn [fst snd].
  split; [|split].
  - cbn [emit events]. now rewrite <- !app_assoc.
  - intros (p & t & r & Hp).
    destruct (promiseAny _) as [[t1 r1]|] eqn:Hany.
    + apply promiseAny_some in Hany as [Hin Hmin].
      apply race_member in Hin as [p1 Hp1].
      exists p1, t1, r1. split; [assumption|]. split; [reflexivity|].
      intros p' t' r' Hp'. apply (Hmin t' r'), race_member. eauto.
    + exfalso. apply (promiseAny_none _ Hany t r), race_member. eauto.
  - intros Hnone. destruct (promiseAny _) as [[t1 r1]|] eqn:Hany; [|reflexivity].
    apply promiseAny_some in Hany as [Hin _].
    apply race_member in Hin as [p1 Hp1]. destruct (Hnone _ _ _ Hp1).
Qed.

Lemma verification_race_witness :
  snd (fullTokenVerification registryEnv initialState sampleAddress) =
    confirmed "Jupiter Registry" ∧
  snd (fullTokenVerification refusingEnv initialState sampleAddress) =
    unverified "Failed verification with all APIs".
Proof.
  assert (Hwf : wellFormed sampleAddress)
    by (apply (bool_decide_unpack _); vm_compute; exact I).
  split.
  - destruct (verification_race registryEnv initialState sampleAddress Hwf)
      as (_ & Hwin & _).
    destruct Hwin as (p & t & r & Hp & Hres & _).
    + exists Registry, 1000%N, (confirmed "Jupiter Registry").
      repeat split; reflexivity.
    + rewrite Hres. destruct Hp as (Hp & _ & _).
      destruct p; vm_compute in Hp; try discriminate. now inversion Hp.
  - apply (verification_race refusingEnv initialState sampleAddress Hwf).
    intros p t r (Hp & _ & Hv). destruct p; vm_compute in Hp; inversion Hp; subst r;
      discriminate.
Defined.

(** C2 as the specification words it fails: when every provider answers
    unverified the result is returned, and its reason is not "no provider
    confirmed". *)
Lemma race_reason_counterexample :
  wellFormed sampleAddress ∧
  (∀ p t r, ¬ confirms (answerOf refusingEnv initialState sampleAddress p)
                (providerTimeout p) t r) ∧
  snd (fullTokenVerification refusingEnv initialState sampleAddress)
    ≠ specNoProviderConfirmed.
Proof.
  split; [|split].
  - apply (bool_decide_unpack _). vm_compute. exact I.
  - intros p t r (Hp & _ & Hv). destruct p; vm_compute in Hp; inversion Hp; subst r;
      discriminate.
  - vm_compute. discriminate.
Qed.

(** ** How the steps of the script move the state *)

Lemma newEvents_app (st st' : State) (new : list Event) :
  events st' = events st ++ new → newEvents st st' = new.
Proof. intros H. unfold newEvents. rewrite H. apply drop_app_length. Qed.

Lemma newEvents_same (st st' : State) :
  events st' = events st → newEvents st st' = [].
Proof. intros H. apply newEvents_app. now rewrite app_nil_r. Qed.

Lemma newEvents_trans (st st' st'' : State) :
  events st' = events st ++ newEvents st st' →
  events st'' = events st' ++ newEvents st' st'' →
  newEvents st st'' = newEvents st st' ++ newEvents st' st''.
Proof.
  intros H1 H2. apply newEvents_app. rewrite H2 at 1. rewrite H1 at 1.
  now rewrite <- app_assoc.
Qed.

Lemma forwards_app (l1 l2 : list Event) : forwards (l1 ++ l2) = forwards l1 ++ forwards l2.
Proof. apply omap_app. Qed.

Lemma fallbackPrompts_app (l1 l2 : list Event) :
  fallbackPrompts (l1 ++ l2) = fallbackPrompts l1 ++ fallbackPrompts l2.
Proof. apply omap_app. Qed.

Lemma candidates_app (l1 l2 : list Event) :
  candidates (l1 ++ l2) = candidates l1 ++ candidates l2.
Proof. apply omap_app. Qed.

Lemma gated_refl (st : State) : gated st st.
Proof.
  assert (H : newEvents st st = []) by now apply newEvents_same.
  split; rewrite ?H; simpl.
  - now rewrite app_nil_r.
  - reflexivity.
  - constructor.
  - intros a Ha. inversion Ha.
Qed.

Lemma gated_trans (st st' st'' : State) : gated st st' → gated st' st'' → gated st st''.
Proof.
  intros [E1 S1 N1 F1] [E2 S2 N2 F2].
  pose proof (newEvents_trans _ _ _ E1 E2) as Hnew.
  split; rewrite ?Hnew, ?forwards_app.
  - rewrite E2 at 1. rewrite E1 at 1. now rewrite <- app_assoc.
  - etrans; eassumption.
  - apply NoDup_app. split; [assumption|]. split; [|assumption].
    intros a Ha1 Ha2. destruct (F1 a Ha1), (F2 a Ha2). contradiction.
  - intros a Ha. apply elem_of_app in Ha as [Ha|Ha].
    + destruct (F1 a Ha) as [Hout Hin]. split; [assumption | apply S2, Hin].
    + destruct (F2 a Ha) as [Hout Hin]. split; [|assumption].
      intros Hst. apply Hout, S1, Hst.
Qed.

Lemma framed_refl (st : State) : framed st st.
Proof. split; auto using gated_refl. Qed.

Lemma framed_trans (st st' st'' : State) : framed st st' → framed st' st'' → framed st st''.
Proof.
  intros [G1 W1 B1 I1 A1 U1] [G2 W2 B2 I2 A2 U2].
  split; [eapply gated_trans; eassumption | congruence..].
Qed.

Lemma quiet_refl (st : State) : quiet st st.
Proof.
  split; [apply framed_refl | reflexivity |].
  now rewrite newEvents_same.
Qed.

Lemma quiet_trans (st st' st'' : State) : quiet st st' → quiet st' st'' → quiet st st''.
Proof.
  intros [F1 P1 S1] [F2 P2 S2].
  split; [eapply framed_trans; eassumption | congruence |].
  rewrite (newEvents_trans st st' st'') by (apply g_extends, f_gated; assumption).
  now rewrite fallbackPrompts_app, S1, S2.
Qed.

(** a step that adds the events [new], none of them a forward or a request to
    the fallback model, and changes nothing else the relations look at *)
Lemma quiet_intro (st st' : State) (new : list Event) :
  events st' = events st ++ new →
  forwards new = [] → fallbackPrompts new = [] →
  bloomSentAddresses st' = bloomSentAddresses st →
  messageWindow st' = messageWindow st →
  RECENT_MESSAGES_BUFFER st' = RECENT_MESSAGES_BUFFER st →
  processedMessageIds st' = processedMessageIds st →
  allMessages st' = allMessages st →
  autoSendToBloom st' = autoSendToBloom st →
  aiPrompt st' = aiPrompt st →
  quiet st st'.
Proof.
  intros He Hf Hp Hs Hw Hb Hi Ha Hu Hpr.
  pose proof (newEvents_app _ _ _ He) as Hnew.
  split; [split; [split|..]|..]; rewrite ?Hnew, ?Hf; try assumption.
  - now rewrite Hs.
  - constructor.
  - intros a Ha'. inversion Ha'.
Qed.

Lemma quiet_emit (e : Event) (st : State) :
  forwards [e] = [] → fallbackPrompts [e] = [] → quiet st (emit e st).
Proof. intros Hf Hp. now apply (quiet_intro st (emit e st) [e]). Qed.

Lemma quiet_with_foundAddresses v (st : State) : quiet st (with_foundAddresses v st).
Proof. apply (quiet_intro _ _ []); try reflexivity. simpl. now rewrite app_nil_r. Qed.

Lemma quiet_with_verificationResults v (st : State) :
  quiet st (with_verificationResults v st).
Proof. apply (quiet_intro _ _ []); try reflexivity. simpl. now rewrite app_nil_r. Qed.

Section Steps.

Variable env : Env.

Lemma sendToBloomBot_quiet (st : State) (a : jsstring) : quiet st (sendToBloomBot st a).
Proof.
  unfold sendToBloomBot. case_bool_decide as Hin; [apply quiet_refl|].
  set (st' := emit _ _).
  assert (Hnew : newEvents st st' = [Forwarded a]) by now apply newEvents_app.
  split; [split; [split|..]|..]; rewrite ?Hnew; try reflexivity.
  - simpl. set_solver.
  - simpl. apply NoDup_singleton.
  - simpl. intros b Hb. apply list_elem_of_singleton in Hb as ->. set_solver.
Qed.

Lemma verifyTokenWithMultipleAPIs_quiet (st : State) (a : jsstring) :
  quiet st (fst (verifyTokenWithMultipleAPIs env st a)).
Proof.
  rewrite race_unfold. cbn [fst].
  eapply quiet_trans; [|now apply quiet_emit].
  eapply quiet_trans; now apply quiet_emit.
Qed.

Lemma fullTokenVerification_quiet (st : State) (a : jsstring) :
  quiet st (fst (fullTokenVerification env st a)).
Proof.
  unfold fullTokenVerification. destruct (formatRejection a).
  - apply quiet_refl.
  - apply verifyTokenWithMultipleAPIs_quiet.
Qed.

Lemma processAddress_quiet (st : State) (a m : jsstring) (el : Element) (ai : bool) :
  quiet st (fst (processAddress env st a m el ai)).
Proof.
  unfold processAddress.
  assert (H0 : quiet st (emit (Processed a m ai) st)) by now apply quiet_emit.
  destruct (sanitizeAddress a) as [clean|]; [|exact H0].
  destruct (if bool_decide _ then _ else _); [exact H0|].
  set (st1 := with_foundAddresses _ _).
  pose proof (fullTokenVerification_quiet st1 clean) as H2.
  destruct (fullTokenVerification env st1 clean) as [st2 info]. cbn [fst] in *.
  set (st3 := with_verificationResults _ st2).
  set (st4 := emit _ st3).
  assert (H4 : quiet st st4).
  { eapply quiet_trans; [exact H0|].
    eapply quiet_trans; [apply quiet_with_foundAddresses|].
    eapply quiet_trans; [exact H2|].
    eapply quiet_trans; [apply quiet_with_verificationResults|].
    now apply quiet_emit. }
  destruct (autoSendToBloom st4); [|exact H4].
  eapply quiet_trans; [exact H4 | apply sendToBloomBot_quiet].
Qed.

Lemma processIfNew_quiet (st : State) (a m : jsstring) (el : Element) :
  quiet st (processIfNew env st a m el).
Proof.
  unfold processIfNew. case_bool_decide; [apply quiet_refl | apply processAddress_quiet].
Qed.

Lemma fold_left_quiet {A} (f : State → A → State) (l : list A) (st : State) :
  (∀ s x, quiet s (f s x)) → quiet st (fold_left f l st).
Proof.
  intros Hf. revert st. induction l as [|x l IH]; intros st; simpl.
  - apply quiet_refl.
  - eapply quiet_trans; [apply Hf | apply IH].
Qed.

Lemma fold_left_quiet_fst {A} (f : State * bool → A → State * bool) (l : list A)
  (acc : State * bool) :
  (∀ s x, quiet (fst s) (fst (f s x))) → quiet (fst acc) (fst (fold_left f l acc)).
Proof.
  intros Hf. revert acc. induction l as [|x l IH]; intros acc; simpl.
  - apply quiet_refl.
  - eapply quiet_trans; [apply Hf | apply IH].
Qed.

Lemma detectSplitAddressesWithAI_framed (st : State) (t prompt model : jsstring) :
  framed st (fst (detectSplitAddressesWithAI env st t prompt model)) ∧
  aiPrompt (fst (detectSplitAddressesWithAI env st t prompt model)) = aiPrompt st.
Proof.
  unfold detectSplitAddressesWithAI. destruct (length t <? 20); cbn [fst].
  - split; [apply framed_refl | reflexivity].
  - split; [|reflexivity]. set (e := ModelRequest _ _ _).
    assert (Hnew : newEvents st (emit e st) = [e]) by now apply newEvents_app.
    split; [split|..]; rewrite ?Hnew; try reflexivity.
    + constructor.
    + intros a Ha. inversion Ha.
Qed.

Lemma detectSplitAddressesWithAI_gpt4_quiet (st : State) (t prompt : jsstring) :
  quiet st (fst (detectSplitAddressesWithAI env st t prompt (lit "gpt-4"))).
Proof.
  unfold detectSplitAddressesWithAI. destruct (length t <? 20); cbn [fst].
  - apply quiet_refl.
  - now apply quiet_emit.
Qed.

Lemma tryFragmentPair_quiet (el : Element) (f1 : jsstring) (st : State) (f2 : jsstring) :
  quiet st (tryFragmentPair env el f1 st f2).
Proof.
  unfold tryFragmentPair.
  set (st1 := if validCombined (f1 ++ f2) then _ else st).
  assert (H1 : quiet st st1).
  { subst st1. destruct (validCombined (f1 ++ f2));
      [apply processIfNew_quiet | apply quiet_refl]. }
  destruct (_ && _); [|exact H1].
  eapply quiet_trans; [exact H1 | apply processIfNew_quiet].
Qed.

Lemma checkSequentialMessages_quiet (st : State) : quiet st (checkSequentialMessages env st).
Proof.
  unfold checkSequentialMessages.
  destruct (_ <? 2); [apply quiet_refl|].
  destruct (nth_error _ _) as [m1|]; [|apply quiet_refl].
  destruct (nth_error _ _) as [m2|]; [|apply quiet_refl].
  set (st1 := fold_left _ (matchAll sequentialFragment (text m1)) st).
  assert (H1 : quiet st st1).
  { apply fold_left_quiet. intros s f1. apply fold_left_quiet.
    intros s' f2. apply tryFragmentPair_quiet. }
  pose proof (detectSplitAddressesWithAI_gpt4_quiet st1
                (text m1 ++ lit " " ++ text m2) twoMessagePrompt) as H2.
  destruct (detectSplitAddressesWithAI _ _ _ _ _) as [st2 ais]. cbn [fst] in H2.
  eapply quiet_trans; [exact H1|]. eapply quiet_trans; [exact H2|].
  apply fold_left_quiet. intros s a. apply processIfNew_quiet.
Qed.

Lemma processMatches_quiet (cleaned : jsstring) (el : Element) (ms : list jsstring)
  (st : State) :
  quiet st (fst (processMatches env cleaned el ms st)).
Proof.
  unfold processMatches.
  apply (fold_left_quiet_fst _ ms (st, false)).
  intros [s b] a. cbn [fst].
  pose proof (processAddress_quiet s a cleaned el false) as H.
  now destruct (processAddress env s a cleaned el false).
Qed.

Lemma tryFragmentSuffix_quiet (cleaned : jsstring) (el : Element) (f : Part.t)
  (acc : State * bool) (s : Part.t) :
  quiet (fst acc) (fst (tryFragmentSuffix env cleaned el f acc s)).
Proof.
  unfold tryFragmentSuffix. destruct acc as [st b]. cbn [fst].
  destruct (validCombined _); [|apply quiet_refl].
  pose proof (processAddress_quiet st
    (combineWithSuffix (Part.text f) (Part.text s)) cleaned el true) as H.
  now destruct (processAddress env st _ cleaned el true).
Qed.

Lemma combineFragments_quiet (cleaned : jsstring) (el : Element)
  (fragments suffixes : list Part.t) (st : State) :
  quiet st (fst (combineFragments env cleaned el fragments suffixes st)).
Proof.
  unfold combineFragments.
  apply (fold_left_quiet_fst _ fragments (st, false)).
  intros acc f. apply fold_left_quiet_fst. intros acc' s.
  apply tryFragmentSuffix_quiet.
Qed.

Lemma tryAIAddresses_quiet (cleaned : jsstring) (el : Element) (ais : list jsstring)
  (st : State) :
  quiet st (fst (tryAIAddresses env cleaned el ais st)).
Proof.
  revert st. induction ais as [|a ais IH]; intros st; simpl; [apply quiet_refl|].
  set (a' := if _ && _ then _ else a).
  pose proof (processAddress_quiet st a' cleaned el true) as H.
  destruct (processAddress env st a' cleaned el true) as [st' result]. cbn [fst] in H.
  destruct (isVerified result); [exact H|].
  eapply quiet_trans; [exact H | apply IH].
Qed.

End Steps.

(** ** The reconstruction fallback *)

Lemma promptAfter_0 (p cleaned : jsstring) : promptAfter p cleaned 0 = p.
Proof. unfold promptAfter. simpl. apply app_nil_r. Qed.


Lemma quiet_escalates (cleaned : jsstring) (n : nat) (st st' : State) :
  quiet st st' → escalates cleaned n st st'.
Proof.
  intros [_ Hp Hs]. exists 0, 0. rewrite Hs, Hp, promptAfter_0. simpl.
  split; [left; split; reflexivity | split; reflexivity].
Qed.


Lemma with_aiPrompt_framed v (st : State) : framed st (with_aiPrompt v st).
Proof.
  assert (Hnew : newEvents st (with_aiPrompt v st) = []) by now apply newEvents_same.
  split; [split|..]; rewrite ?Hnew; try reflexivity.
  - simpl. now rewrite app_nil_r.
  - constructor.
  - intros a Ha. inversion Ha.
Qed.

Lemma quiet_framed (st st' : State) : quiet st st' → framed st st'.
Proof. now intros []. Qed.

Section Fallback.

Variable env : Env.

Lemma aiFallback_framed (n : nat) (cleaned : jsstring) (el : Element) (st : State) :
  framed st (aiFallback env n cleaned el st).
Proof.
  revert st. induction n as [|n IH]; intros st; simpl; [apply framed_refl|].
  destruct (detectSplitAddressesWithAI_framed env st cleaned (aiPrompt st)
              (lit "gpt-3.5-turbo")) as [H1 _].
  destruct (detectSplitAddressesWithAI _ _ _ _ _) as [st1 ais]. cbn [fst] in H1.
  destruct ais as [|a ais]; [exact H1|].
  pose proof (tryAIAddresses_quiet env cleaned el (a :: ais) st1) as H2.
  destruct (tryAIAddresses _ _ _ _ _) as [st2 found]. cbn [fst] in H2.
  apply quiet_framed in H2.
  destruct found; [eapply framed_trans; eassumption|].
  eapply framed_trans; [exact H1|]. eapply framed_trans; [exact H2|].
  eapply framed_trans; [|apply IH].
  destruct (matchAll partialRun cleaned); [apply framed_refl | apply with_aiPrompt_framed].
Qed.




Lemma extractFromMessage_framed (st : State) (cleaned : jsstring) (el : Element) :
  framed st (extractFromMessage env st cleaned el).
Proof.
  unfold extractFromMessage.
  pose proof (processMatches_quiet env cleaned el
                (matchAll solanaAddressRegex cleaned) st) as H1.
  destruct (processMatches _ _ _ _ _) as [st1 found]. cbn [fst] in H1.
  apply quiet_framed in H1.
  destruct (_ && _); [|exact H1].
  set (fragments := filter _ _). set (suffixes := filter _ _).
  pose proof (combineFragments_quiet env cleaned el fragments suffixes st1) as H2.
  destruct (combineFragments _ _ _ _ _ _) as [st2 found']. cbn [fst] in H2.
  apply quiet_framed in H2.
  eapply framed_trans; [exact H1|].
  destruct found'; cbn [negb]; [exact H2|].
  eapply framed_trans; [exact H2 | apply aiFallback_framed].
Qed.


End Fallback.

(** ** Ingestion *)

Lemma gated_same (st st' : State) :
  events st' = events st → bloomSentAddresses st' = bloomSentAddresses st →
  gated st st'.
Proof.
  intros He Hs. pose proof (newEvents_same _ _ He) as Hnew.
  split; rewrite ?Hnew, ?He, ?Hs; simpl.
  - now rewrite app_nil_r.
  - reflexivity.
  - constructor.
  - intros a Ha. inversion Ha.
Qed.

Lemma checkForSolanaAddresses_rejected env now fresh st text el :
  accepts text = false → checkForSolanaAddresses env now fresh st text el = st.
Proof.
  unfold accepts, checkForSolanaAddresses. destruct text as [t|]; [|reflexivity].
  destruct (bool_decide (t = []) || (length t <? 5)); [reflexivity|].
  cbn [negb andb]. now destruct (bool_decide (cleanMessageText (Some t) = [])).
Qed.

Lemma checkForSolanaAddresses_accepted env now fresh st t el :
  accepts (Some t) = true →
  let cleanedText := cleanMessageText (Some t) in
  let st1 := addToMessageBuffer env now st cleanedText el in
  let st2 :=
    with_messageWindow
      (pushWindow {| text := cleanedText; element := el; timestamp := now |}
         (messageWindow st1)) st1 in
  let messageId := getMessageId el fresh in
  checkForSolanaAddresses env now fresh st (Some t) el =
  if bool_decide (messageId ∈ processedMessageIds st2) then st2
  else
    extractFromMessage env
      (with_allMessages
         (pushAllMessages {| infoId := messageId; infoText := cleanedText |}
            (allMessages st2))
         (with_processedMessageIds (processedMessageIds st2 ∪ {[messageId]}) st2))
      cleanedText el.
Proof.
  unfold accepts, checkForSolanaAddresses.
  destruct (bool_decide (t = []) || (length t <? 5)); [discriminate|].
  cbn [negb andb]. destruct (bool_decide (cleanMessageText (Some t) = [])); [discriminate|].
  reflexivity.
Qed.

Section Ingestion.

Variable env : Env.

Lemma addToMessageBuffer_quiet now st t el :
  quiet
    (with_buffer
       (pushBuffer now {| text := t; element := el; timestamp := now |}
          (RECENT_MESSAGES_BUFFER st)) st)
    (addToMessageBuffer env now st t el).
Proof.
  unfold addToMessageBuffer. destruct (2 <=? _).
  - apply checkSequentialMessages_quiet.
  - apply quiet_refl.
Qed.

Lemma addToMessageBuffer_gated now st t el :
  gated st (addToMessageBuffer env now st t el).
Proof.
  destruct (f_gated _ _ (q_framed _ _ (addToMessageBuffer_quiet now st t el)))
    as [E S N F].
  split; assumption.
Qed.

Lemma checkForSolanaAddresses_gated now fresh st text el :
  gated st (checkForSolanaAddresses env now fresh st text el).
Proof.
  destruct (accepts text) eqn:Hacc.
  2:{ rewrite checkForSolanaAddresses_rejected by assumption. apply gated_refl. }
  destruct text as [t|]; [|discriminate].
  rewrite checkForSolanaAddresses_accepted by assumption. cbv zeta.
  set (st1 := addToMessageBuffer _ _ _ _ _).
  pose proof (addToMessageBuffer_gated now st (cleanMessageText (Some t)) el) as G1.
  fold st1 in G1.
  set (st2 := with_messageWindow _ st1).
  assert (G2 : gated st st2).
  { eapply gated_trans; [exact G1|]. now apply gated_same. }
  case_bool_decide; [exact G2|].
  set (st4 := with_allMessages _ _).
  eapply gated_trans; [exact G2|].
  eapply gated_trans; [|apply f_gated, extractFromMessage_framed].
  now apply gated_same.
Qed.

Lemma perform_gated st a : gated st (perform env st a).
Proof.
  destruct a as [now fresh text el|address|enabled]; simpl.
  - apply checkForSolanaAddresses_gated.
  - apply f_gated, q_framed, sendToBloomBot_quiet.
  - now apply gated_same.
Qed.

Lemma runScript_gated actions st : gated st (runScript env actions st).
Proof.
  revert st. induction actions as [|a actions IH]; intros st; simpl.
  - apply gated_refl.
  - eapply gated_trans; [apply perform_gated | apply IH].
Qed.

End Ingestion.

Lemma gated_initial (st : State) :
  gated initialState st →
  NoDup (forwards (events st)) ∧ ∀ a, a ∈ forwards (events st) → a ∈ bloomSentAddresses st.
Proof.
  intros [E S N F].
  assert (Hnew : newEvents initialState st = events st).
  { unfold newEvents. simpl. apply drop_0. }
  rewrite Hnew in N, F. split; [assumption|]. intros a Ha. now destruct (F a Ha).
Qed.

(** C4, as amended.  Forwarding goes through the test on
    [bloomSentAddresses] that opens [sendToBloomBot]: the first call for an
    address adds it to the set and forwards it, every later call for it
    changes nothing and forwards nothing.  The call returns no value on
    either path: the answer of the gate is the branch taken.  So over any run
    of the script from its initial state no address is forwarded twice, and
    delivering a message again forwards no address that has been forwarded
    before. *)
Theorem forward_at_most_once (env : Env) :
  (∀ st a, a ∉ bloomSentAddresses st →
     newEvents st (sendToBloomBot st a) = [Forwarded a] ∧
     a ∈ bloomSentAddresses (sendToBloomBot st a)) ∧
  (∀ st a, a ∈ bloomSentAddresses st → sendToBloomBot st a = st) ∧
  (∀ st a, sendToBloomBotReturns st a = undefined) ∧
  (∀ actions, NoDup (forwards (events (runScript env actions initialState)))) ∧
  (∀ actions now fresh text el now' fresh',
     let st1 := runScript env (actions ++ [Ingest now fresh text el]) initialState in
     let st2 := checkForSolanaAddresses env now' fresh' st1 text el in
     ∀ a, a ∈ forwards (events st1) → a ∉ forwards (newEvents st1 st2)).
Proof.
  split; [|split; [|split; [|split]]].
  - intros st a Ha. unfold sendToBloomBot.
    rewrite bool_decide_eq_false_2 by assumption.
    split; [now apply newEvents_app|]. simpl. set_solver.
  - intros st a Ha. unfold sendToBloomBot. now rewrite bool_decide_eq_true_2.
  - intros st a. unfold sendToBloomBotReturns. now case_bool_decide.
  - intros actions. apply gated_initial, runScript_gated.
  - intros actions now fresh text el now' fresh' st1 st2 a Ha Hnew.
    destruct (gated_initial st1 (runScript_gated env _ _)) as [_ Hsent].
    pose proof (checkForSolanaAddresses_gated env now' fresh' st1 text el) as G.
    destruct (g_fresh _ _ G a Hnew) as [Hout _]. apply Hout, Hsent, Ha.
Qed.

Lemma forward_at_most_once_witness :
  let st := sendToBloomBot initialState sampleAddress in
  forwards (events st) = [sampleAddress] ∧ sendToBloomBot st sampleAddress = st.
Proof.
  split; [reflexivity|].
  apply (proj1 (proj2 (forward_at_most_once silentEnv))).
  apply (bool_decide_unpack _). vm_compute. exact I.
Defined.

(** C4 as the specification words it fails: a second call for an address that
    has been sent changes nothing, and it does not return false; nor does
    the first call return true. *)
Lemma forward_return_counterexample :
  let st := sendToBloomBot initialState sampleAddress in
  sampleAddress ∈ bloomSentAddresses st ∧
  sendToBloomBot st sampleAddress = st ∧
  sendToBloomBotReturns st sampleAddress ≠ boolean false ∧
  sendToBloomBotReturns initialState sampleAddress ≠ boolean true.
Proof.
  cbv zeta. split; [apply (bool_decide_unpack _); vm_compute; exact I|].
  split; [vm_compute; reflexivity|].
  split; vm_compute; discriminate.
Qed.

(** ** The sliding window *)

Lemma pushWindow_take (m : Message) (w : list Message) :
  length w <= 10 → pushWindow m w = take 10 (m :: w).
Proof.
  intros Hw. unfold pushWindow, MAX_WINDOW_SIZE.
  destruct (Nat.ltb_spec 10 (length (m :: w))) as [Hlt|Hle].
  - rewrite removelast_firstn_len. simpl length in *.
    replace (Nat.pred (S (length w))) with 10 by lia. reflexivity.
  - symmetry. apply take_ge. lia.
Qed.

Lemma take_app_take {A} (n : nat) (a b : list A) :
  take n (a ++ take n b) = take n (a ++ b).
Proof.
  rewrite !take_app. f_equal. rewrite take_take. f_equal. lia.
Qed.

Lemma pushWindow_fold (ms w : list Message) :
  length w <= 10 →
  fold_left (λ w' m, pushWindow m w') ms w = take 10 (rev ms ++ w).
Proof.
  revert w. induction ms as [|m ms IH]; intros w Hw; simpl.
  - symmetry. apply take_ge. lia.
  - rewrite pushWindow_take by assumption.
    rewrite IH by (rewrite length_take; lia).
    rewrite take_app_take, <- app_assoc. reflexivity.
Qed.

Section Window.

Variable env : Env.

Lemma addToMessageBuffer_stores now st t el :
  let st1 := addToMessageBuffer env now st t el in
  messageWindow st1 = messageWindow st ∧
  processedMessageIds st1 = processedMessageIds st ∧
  RECENT_MESSAGES_BUFFER st1 =
    pushBuffer now {| text := t; element := el; timestamp := now |}
      (RECENT_MESSAGES_BUFFER st).
Proof.
  destruct (addToMessageBuffer_quiet env now st t el) as [[_ W B I _ _] _ _].
  auto.
Qed.

Lemma checkForSolanaAddresses_window now fresh st text el :
  messageWindow (checkForSolanaAddresses env now fresh st text el) =
  match windowEntry (Ingest now fresh text el) with
  | Some m => pushWindow m (messageWindow st)
  | None => messageWindow st
  end.
Proof.
  cbn [windowEntry]. destruct (accepts text) eqn:Hacc.
  2:{ now rewrite checkForSolanaAddresses_rejected. }
  destruct text as [t|]; [|discriminate].
  rewrite checkForSolanaAddresses_accepted by assumption. cbv zeta.
  destruct (addToMessageBuffer_stores now st (cleanMessageText (Some t)) el)
    as (W & _ & _). cbv zeta in W.
  case_bool_decide.
  - cbn [messageWindow with_messageWindow]. now rewrite W.
  - rewrite (f_window _ _ (extractFromMessage_framed env _ _ _)).
    cbn [messageWindow with_messageWindow with_allMessages with_processedMessageIds].
    now rewrite W.
Qed.

Lemma perform_window st a :
  messageWindow (perform env st a) =
  match windowEntry a with
  | Some m => pushWindow m (messageWindow st)
  | None => messageWindow st
  end.
Proof.
  destruct a as [now fresh text el|address|enabled].
  - apply checkForSolanaAddresses_window.
  - cbn [perform windowEntry].
    apply (f_window _ _ (q_framed _ _ (sendToBloomBot_quiet st address))).
  - reflexivity.
Qed.

Lemma runScript_window actions st :
  length (messageWindow st) <= 10 →
  messageWindow (runScript env actions st) =
  take 10 (rev (omap windowEntry actions) ++ messageWindow st).
Proof.
  revert st. induction actions as [|a actions IH]; intros st Hst; simpl.
  - symmetry. apply take_ge. lia.
  - rewrite IH, perform_window.
    + destruct (windowEntry a) as [m|]; [|reflexivity].
      rewrite pushWindow_take by assumption. simpl rev.
      rewrite take_app_take, <- app_assoc. reflexivity.
    + rewrite perform_window. destruct (windowEntry a) as [m|]; [|assumption].
      rewrite pushWindow_take by assumption. rewrite length_take. lia.
Qed.

End Window.

(** C8.  After any run of the script the sliding window holds the last 10
    messages that passed the guards of ingestion, newest first: its length
    never exceeds 10, and it is exactly 10 once more than 10 messages have
    been inserted.  An insertion into a full window drops its last, oldest
    entry. *)
Theorem sliding_window_invariant (env : Env) (actions : list Action) :
  let inserted := omap windowEntry actions in
  let window := messageWindow (runScript env actions initialState) in
  window = take 10 (rev inserted) ∧
  length window <= 10 ∧
  (10 < length inserted → length window = 10) ∧
  (∀ m w, length w = 10 → pushWindow m w = m :: removelast w) ∧
  (∀ m w, length w < 10 → pushWindow m w = m :: w).
Proof.
  intros inserted window.
  assert (Hw : window = take 10 (rev inserted)).
  { subst window inserted. rewrite runScript_window by (simpl; lia).
    simpl. now rewrite app_nil_r. }
  split; [exact Hw|]. rewrite Hw, length_take, length_rev.
  split; [lia|]. split; [lia|]. split.
  - intros m w Hlen. unfold pushWindow, MAX_WINDOW_SIZE. simpl length.
    destruct (Nat.ltb_spec 10 (S (length w))); [|lia].
    destruct w; [discriminate | reflexivity].
  - intros m w Hlen. unfold pushWindow, MAX_WINDOW_SIZE. simpl length.
    destruct (Nat.ltb_spec 10 (S (length w))); [lia | reflexivity].
Qed.

Lemma sliding_window_invariant_witness :
  10 < length (omap windowEntry elevenMessages) ∧
  length (messageWindow (runScript silentEnv elevenMessages initialState)) = 10.
Proof.
  assert (H : 10 < length (omap windowEntry elevenMessages)) by (vm_compute; lia).
  split; [exact H|].
  exact (proj1 (proj2 (proj2 (sliding_window_invariant silentEnv elevenMessages))) H).
Defined.

(** ** The guards of ingestion *)

(** C9.  A message whose text is absent, or has fewer than 5 characters, or is
    empty once the timestamps are cleaned away, is dropped at once: the state
    is returned as it was, so nothing enters the sliding window or the time
    buffer and no candidate is produced.  The text "pump" alone is such a
    message. *)
Theorem ingestion_guard (env : Env) (now : Z) (fresh : jsstring) (st : State)
  (text : option jsstring) (el : Element) :
  (text = None ∨ (∃ t, text = Some t ∧ length t < 5) ∨ cleanMessageText text = []) →
  let st' := checkForSolanaAddresses env now fresh st text el in
  st' = st ∧
  messageWindow st' = messageWindow st ∧
  RECENT_MESSAGES_BUFFER st' = RECENT_MESSAGES_BUFFER st ∧
  candidates (newEvents st st') = [] ∧
  checkForSolanaAddresses env now fresh st (Some (lit "pump")) el = st.
Proof.
  intros Hcase st'.
  assert (Hst : st' = st).
  { subst st'. apply checkForSolanaAddresses_rejected. unfold accepts.
    destruct Hcase as [->|[(t & -> & Hlen)|Hclean]]; [reflexivity| |].
    - destruct (Nat.ltb_spec (length t) 5); [|lia]. now rewrite orb_true_r.
    - destruct text as [t|]; [|reflexivity].
      rewrite (bool_decide_eq_true_2 (cleanMessageText (Some t) = [])) by exact Hclean.
      apply andb_false_r. }
  rewrite Hst. repeat split; try reflexivity.
  now rewrite newEvents_same.
Qed.

Lemma ingestion_guard_witness :
  cleanMessageText (Some (lit "Today at 12:30 PM")) = [] ∧
  checkForSolanaAddresses silentEnv 0 (lit "x") initialState
    (Some (lit "Today at 12:30 PM")) {| nearestId := None |} = initialState.
Proof.
  assert (H : cleanMessageText (Some (lit "Today at 12:30 PM")) = []) by reflexivity.
  split; [exact H|].
  apply (ingestion_guard silentEnv 0 (lit "x") initialState
           (Some (lit "Today at 12:30 PM")) {| nearestId := None |}).
  right. right. exact H.
Defined.

(** ** The prompt of the fallback *)

Lemma escalates_after_calm (cleaned : jsstring) (n : nat) (st st1 st' : State)
  (new : list Event) :
  events st1 = events st ++ new → fallbackPrompts new = [] →
  aiPrompt st1 = aiPrompt st → gated st1 st' →
  escalates cleaned n st1 st' → escalates cleaned n st st'.
Proof.
  intros E1 S1 P1 G2 (c & k & Hk & Hreq & Hpr).
  exists c, k. split; [exact Hk|]. split.
  - assert (N : newEvents st st' = new ++ newEvents st1 st').
    { apply newEvents_app. rewrite (g_extends _ _ G2), E1. now rewrite <- app_assoc. }
    now rewrite N, fallbackPrompts_app, S1, Hreq, P1.
  - now rewrite Hpr, P1.
Qed.







(** ** Delivery of a message a second time *)

Lemma evictOld_last (now : Z) (m : Message) (l : list Message) :
  timestamp m = now → last (evictOld now (l ++ [m])) = Some m.
Proof.
  intros Hm. induction l as [|x l IH]; simpl.
  - rewrite Hm, Z.sub_diag. reflexivity.
  - destruct (_ >? _)%Z; [exact IH|].
    change (x :: l ++ [m]) with ((x :: l) ++ [m]). apply last_snoc.
Qed.

Lemma pushBuffer_last (now : Z) (m : Message) (buffer : list Message) :
  timestamp m = now → last (pushBuffer now m buffer) = Some m.
Proof.
  intros Hm. unfold pushBuffer. destruct (_ <? _) eqn:Hlt.
  - destruct buffer as [|x buffer]; [discriminate Hlt|].
    simpl tail. now apply evictOld_last.
  - now apply evictOld_last.
Qed.

Lemma pushWindow_head (m : Message) (w : list Message) : head (pushWindow m w) = Some m.
Proof.
  unfold pushWindow. destruct (_ <? _) eqn:Hlt; [|reflexivity].
  destruct w; [discriminate Hlt | reflexivity].
Qed.

(** C10.  When a message arrives whose id has been processed, the id check
    comes too late to keep it out of the stores: it is pushed on the time
    buffer and on the sliding window again, the push on the buffer runs the
    sequential-pair check again, and nothing else is done.  When the same
    one-fragment message is delivered twice in a row the two newest buffer
    entries are its two copies, and the check hands on the fragment joined
    to itself. *)
Theorem duplicate_delivery :
  (∀ env now fresh st t el id,
     nearestId el = Some id → id ∈ processedMessageIds st → accepts (Some t) = true →
     let cleanedText := cleanMessageText (Some t) in
     let msg := {| text := cleanedText; element := el; timestamp := now |} in
     let st1 := addToMessageBuffer env now st cleanedText el in
     let st' := checkForSolanaAddresses env now fresh st (Some t) el in
     st' = with_messageWindow (pushWindow msg (messageWindow st)) st1 ∧
     head (messageWindow st') = Some msg ∧
     last (RECENT_MESSAGES_BUFFER st') = Some msg ∧
     st1 = checkSequentialMessages env
             (with_buffer (pushBuffer now msg (RECENT_MESSAGES_BUFFER st)) st)) ∧
  (let st' :=
     checkForSolanaAddresses refusingEnv 5 (lit "r") deliveredOnce
       (Some repeatedText) repeatedElement in
   getMessageId repeatedElement (lit "r") ∈ processedMessageIds deliveredOnce ∧
   map text (RECENT_MESSAGES_BUFFER st') = [repeatedText; repeatedText] ∧
   map element (RECENT_MESSAGES_BUFFER st') = [repeatedElement; repeatedElement] ∧
   matchAll sequentialFragment repeatedText = [repeatedText] ∧
   candidates (newEvents deliveredOnce st') = [repeatedText ++ repeatedText]).
Proof.
  split.
  - intros env now fresh st t el id Hid Hin Hacc cleanedText msg st1 st'.
    destruct (addToMessageBuffer_stores env now st cleanedText el) as (W & I & B).
    cbv zeta in W, I, B. fold st1 in W, I, B. fold msg in B.
    assert (Hst : st' = with_messageWindow (pushWindow msg (messageWindow st)) st1).
    { subst st'. rewrite checkForSolanaAddresses_accepted by assumption. cbv zeta.
      fold cleanedText st1 msg. rewrite W.
      unfold getMessageId. rewrite Hid.
      cbn [processedMessageIds with_messageWindow]. rewrite I.
      now rewrite bool_decide_eq_true_2. }
    split; [exact Hst|]. rewrite Hst.
    cbn [messageWindow RECENT_MESSAGES_BUFFER with_messageWindow].
    split; [apply pushWindow_head|]. rewrite B.
    split; [now apply pushBuffer_last|].
    subst st1. unfold addToMessageBuffer.
    cbn [RECENT_MESSAGES_BUFFER with_buffer]. fold msg.
    destruct (Nat.leb_spec 2 (length (pushBuffer now msg (RECENT_MESSAGES_BUFFER st))))
      as [Hge|Hlt]; [reflexivity|].
    unfold checkSequentialMessages. cbn [RECENT_MESSAGES_BUFFER with_buffer].
    destruct (Nat.ltb_spec (length (pushBuffer now msg (RECENT_MESSAGES_BUFFER st))) 2);
      [reflexivity | lia].
  - cbv zeta. split; [apply (bool_decide_unpack _); vm_compute; exact I|].
    repeat split; vm_compute; reflexivity.
Qed.

Lemma duplicate_delivery_witness :
  let st' :=
    checkForSolanaAddresses refusingEnv 5 (lit "r") deliveredOnce
      (Some repeatedText) repeatedElement in
  length (messageWindow st') = 2 ∧ length (RECENT_MESSAGES_BUFFER st') = 2.
Proof.
  cbv zeta.
  destruct (proj1 duplicate_delivery refusingEnv 5%Z (lit "r") deliveredOnce
              repeatedText repeatedElement (lit "message-r")) as (Hst & _).
  - reflexivity.
  - apply (bool_decide_unpack _). vm_compute. exact I.
  - vm_compute. reflexivity.
  - rewrite Hst. vm_compute. split; reflexivity.
Defined.

(** ** Candidates *)

Lemma modelRequests_app (l1 l2 : list Event) :
  modelRequests (l1 ++ l2) = modelRequests l1 ++ modelRequests l2.
Proof. apply omap_app. Qed.

Lemma fullTokenVerification_events (env : Env) (st : State) (a : jsstring) :
  events (fst (fullTokenVerification env st a)) =
  events st ++
  match formatRejection a with
  | Some _ => []
  | None => [ProviderRequest Jupiter a; ProviderRequest Birdeye a; ProviderRequest Registry a]
  end.
Proof.
  unfold fullTokenVerification. destruct (formatRejection a); cbn [fst].
  - now rewrite app_nil_r.
  - rewrite race_unfold. cbn [fst emit events]. now rewrite <- !app_assoc.
Qed.

(** [processAddress] logs its own call first, and after it only provider
    requests and the two messages to the background script *)
Lemma processAddress_new (env : Env) (st : State) (a m : jsstring) (el : Element)
  (ai : bool) :
  ∃ rest,
    newEvents st (fst (processAddress env st a m el ai)) = Processed a m ai :: rest ∧
    candidates rest = [] ∧ modelRequests rest = [].
Proof.
  unfold processAddress.
  destruct (sanitizeAddress a) as [clean|].
  2:{ exists []. split; [now apply newEvents_app | split; reflexivity]. }
  destruct (if bool_decide _ then _ else _).
  { exists []. split; [now apply newEvents_app | split; reflexivity]. }
  set (st1 := with_foundAddresses _ _).
  pose proof (fullTokenVerification_events env st1 clean) as E2.
  destruct (fullTokenVerification env st1 clean) as [st2 info]. cbn [fst] in E2.
  cbn [events with_foundAddresses emit st1] in E2.
  set (provs := match formatRejection clean with Some _ => [] | None => _ end) in E2.
  assert (Hprovs : candidates provs = [] ∧ modelRequests provs = []).
  { subst provs. destruct (formatRejection clean); split; reflexivity. }
  destruct Hprovs as [Hc Hm].
  set (st4 := emit _ _).
  assert (E4 : events st4 = events st ++ Processed a m ai :: provs ++ [AddressFound clean m]).
  { subst st4. cbn [events emit with_verificationResults]. rewrite E2.
    rewrite <- !app_assoc. reflexivity. }
  destruct (autoSendToBloom st4).
  - unfold sendToBloomBot. case_bool_decide.
    + exists (provs ++ [AddressFound clean m]). cbn [fst].
      split; [now apply newEvents_app|].
      unfold candidates, modelRequests in *. rewrite !omap_app, Hc, Hm. split; reflexivity.
    + exists (provs ++ [AddressFound clean m; Forwarded clean]). cbn [fst].
      split.
      * apply newEvents_app. cbn [events emit with_bloomSentAddresses]. rewrite E4.
        rewrite <- !app_assoc. cbn [app]. now rewrite <- !app_assoc.
      * unfold candidates, modelRequests in *. rewrite !omap_app, Hc, Hm.
        split; reflexivity.
  - exists (provs ++ [AddressFound clean m]). cbn [fst].
    split; [now apply newEvents_app|].
    unfold candidates, modelRequests in *. rewrite !omap_app, Hc, Hm. split; reflexivity.
Qed.

Lemma newEvents_in_trans (st st1 st2 : State) (e : Event) :
  gated st st1 → gated st1 st2 →
  e ∈ newEvents st st1 ∨ e ∈ newEvents st1 st2 → e ∈ newEvents st st2.
Proof.
  intros G1 G2 H.
  rewrite (newEvents_trans st st1 st2) by (apply g_extends; assumption).
  apply elem_of_app, H.
Qed.

Lemma quiet_gated (st st' : State) : quiet st st' → gated st st'.
Proof. intros H. apply f_gated, q_framed, H. Qed.

(** an event that the body of a loop adds at the element [x] is among the
    events the whole loop adds *)
Lemma fold_left_emits {A} (f : State * bool → A → State * bool) (l : list A)
  (acc : State * bool) (x : A) (e : Event) :
  (∀ s y, quiet (fst s) (fst (f s y))) → x ∈ l →
  (∀ s, e ∈ newEvents (fst s) (fst (f s x))) →
  e ∈ newEvents (fst acc) (fst (fold_left f l acc)).
Proof.
  intros Hq Hx He. revert acc. induction l as [|y l IH]; intros acc; [inversion Hx|].
  simpl. apply (newEvents_in_trans _ (fst (f acc y))).
  - apply quiet_gated, Hq.
  - apply quiet_gated, fold_left_quiet_fst, Hq.
  - apply elem_of_cons in Hx as [->|Hx]; [left; apply He | right; apply IH, Hx].
Qed.

(** ** Direct combination of two messages *)

(** C5, as amended.  Run on a sliding window of two messages or more,
    [checkMessageWindowForAddresses] joins the previous message to the
    current one only when the previous one is shorter than 20 characters and
    the current one shorter than 40: then, if the joined string is a
    well-formed address that has not been found before, it is handed to
    [processAddress], marked as reconstructed, as the one candidate, and the
    completion service is not asked.  A current message of 40 characters or
    more, or a joined string that is not well formed (45 characters, say),
    yields no candidate by combination: what is handed on then comes from
    the completion service, and nothing is when it does not answer. *)
Theorem direct_combination (env : Env) (st : State) (m0 m1 : Message)
  (older : list Message) :
  messageWindow st = m0 :: m1 :: older →
  let previousMsg := text m1 in
  let currentMsg := text m0 in
  let combined := previousMsg ++ currentMsg in
  let st' := checkMessageWindowForAddresses env st in
  (length previousMsg < 20 → length currentMsg < 40 → wellFormed combined →
   combined ∉ foundAddresses st →
   Processed combined (previousMsg ++ lit " + " ++ currentMsg) true ∈ newEvents st st' ∧
   candidates (newEvents st st') = [combined] ∧
   modelRequests (newEvents st st') = []) ∧
  (20 <= length previousMsg ∨ 40 <= length currentMsg ∨ ¬ wellFormed combined →
   (∀ u, completion env (events st) (lit "gpt-3.5-turbo") multiMessagePrompt u = None) →
   candidates (newEvents st st') = []).
Proof.
  intros Hw previousMsg currentMsg combined st'. subst st'.
  unfold checkMessageWindowForAddresses. rewrite Hw. fold previousMsg currentMsg combined.
  assert (Htest : ((32 <=? length combined) && (length combined <=? 44)) &&
                  test wholeAddress combined = validCombined combined).
  { unfold validCombined. reflexivity. }
  rewrite <- andb_assoc, Htest. split.
  - intros Hp Hc Hwf Hnew.
    destruct (Nat.ltb_spec (length previousMsg) 20); [|lia].
    destruct (Nat.ltb_spec (length currentMsg) 40); [|lia].
    rewrite (proj2 (validCombined_wellFormed combined) Hwf). cbn [andb].
    unfold processIfNew. rewrite bool_decide_eq_false_2 by assumption.
    destruct (processAddress_new env st combined
                (previousMsg ++ lit " + " ++ currentMsg) (element m0) true)
      as (rest & Hnew' & Hc' & Hm').
    rewrite Hnew'. split; [now left|].
    change (Processed combined (previousMsg ++ lit " + " ++ currentMsg) true :: rest)
      with ([Processed combined (previousMsg ++ lit " + " ++ currentMsg) true] ++ rest).
    rewrite candidates_app, modelRequests_app, Hc', Hm'. split; reflexivity.
  - intros Hcase Hsilent.
    assert (Hoff : (length previousMsg <? 20) && (length currentMsg <? 40) &&
                    validCombined combined = false).
    { destruct (Nat.ltb_spec (length previousMsg) 20); [|reflexivity].
      destruct (Nat.ltb_spec (length currentMsg) 40); [|reflexivity].
      cbn [andb]. apply not_true_is_false. intros Hv.
      apply validCombined_wellFormed in Hv.
      destruct Hcase as [?|[?|?]]; [lia | lia | contradiction]. }
    rewrite Hoff, Hsilent. cbn [parseCompletion fold_left].
    erewrite newEvents_app by reflexivity. reflexivity.
Qed.

Lemma direct_combination_witness :
  candidates (newEvents windowAbc39 (checkMessageWindowForAddresses silentEnv windowAbc39))
    = [lit "abc" ++ take 39 sampleAddress] ∧
  candidates (newEvents windowAbc41 (checkMessageWindowForAddresses silentEnv windowAbc41))
    = [].
Proof.
  assert (W39 : messageWindow windowAbc39 = [addressEntry 39; abcEntry])
    by (vm_compute; reflexivity).
  assert (W41 : messageWindow windowAbc41 = [addressEntry 41; abcEntry])
    by (vm_compute; reflexivity).
  split.
  - apply (proj1 (direct_combination silentEnv windowAbc39 _ _ [] W39)).
    + vm_compute. lia.
    + vm_compute. lia.
    + apply (bool_decide_unpack _). vm_compute. exact I.
    + apply (bool_decide_unpack _). vm_compute. exact I.
  - apply (proj2 (direct_combination silentEnv windowAbc41 _ _ [] W41)).
    + right. left. vm_compute. lia.
    + reflexivity.
Defined.

(** C5 as the specification words it fails: "abc" is the previous message
    and the current message has 41 alphabet characters, so that the joined
    string is a well-formed address of 44 characters.  The two messages have
    arrived one after the other, and the only candidate they have produced
    is the current message itself; and [checkMessageWindowForAddresses],
    run on the window they have left, emits no candidate either, because the
    current message is not shorter than 40: it asks the completion service
    instead. *)
Lemma direct_combination_counterexample :
  ∃ m0 m1,
    messageWindow windowAbc41 = [m0; m1] ∧
    text m1 = lit "abc" ∧ length (text m0) = 41 ∧
    Forall (λ c, c ∈ canonicalAlphabet) (text m0) ∧
    wellFormed (text m1 ++ text m0) ∧ length (text m1 ++ text m0) = 44 ∧
    candidates (events windowAbc41) = [text m0] ∧
    (text m1 ++ text m0 ∉ candidates (events windowAbc41)) ∧
    candidates
      (newEvents windowAbc41 (checkMessageWindowForAddresses silentEnv windowAbc41)) = [] ∧
    length
      (modelRequests
         (newEvents windowAbc41 (checkMessageWindowForAddresses silentEnv windowAbc41))) = 1.
Proof.
  exists (addressEntry 41), abcEntry.
  split; [vm_compute; reflexivity|]. split; [reflexivity|]. split; [reflexivity|].
  split; [apply (bool_decide_unpack _); vm_compute; exact I|].
  split; [apply (bool_decide_unpack _); vm_compute; exact I|].
  split; [reflexivity|].
  split; [vm_compute; reflexivity|].
  split; [apply (bool_decide_unpack _); vm_compute; exact I|].
  split; vm_compute; reflexivity.
Qed.

(** ** Fragments and suffixes *)

Lemma isChar_eq (a c : ascii) : isChar a c = true ↔ a = c.
Proof.
  unfold isChar, codeOf. rewrite N.eqb_eq. split; [|now intros ->].
  intros H. apply (f_equal ascii_of_N) in H. now rewrite !ascii_N_embedding in H.
Qed.

Lemma startsWith_app (p s : jsstring) : startsWith p s = true ↔ ∃ b, s = p ++ b.
Proof.
  revert s. induction p as [|a p IH]; intros s; simpl.
  - split; [intros _; now exists s | reflexivity].
  - destruct s as [|c s].
    + split; [discriminate | intros [b Hb]; discriminate].
    + rewrite andb_true_iff, isChar_eq, IH. split.
      * intros [-> [b ->]]. now exists b.
      * intros [b [= -> ->]]. split; [reflexivity | now exists b].
Qed.

Lemma endsWith_app (s p : jsstring) : endsWith s p = true ↔ ∃ a, s = a ++ p.
Proof.
  unfold endsWith. rewrite startsWith_app. split.
  - intros [b Hb]. exists (rev b). apply (f_equal (@rev ascii)) in Hb.
    now rewrite rev_involutive, rev_app_distr, rev_involutive in Hb.
  - intros [a ->]. exists (rev a). apply rev_app_distr.
Qed.

Lemma includes_app (s p : jsstring) : includes s p = true ↔ ∃ a b, s = a ++ p ++ b.
Proof.
  induction s as [|c s IH]; simpl.
  - rewrite orb_false_r, startsWith_app. split.
    + intros [b Hb]. now exists [], b.
    + intros (a & b & H). destruct a; [now exists b|discriminate].
  - rewrite orb_true_iff, startsWith_app, IH. split.
    + intros [[b Hb]|(a & b & ->)]; [now exists [], b | now exists (c :: a), b].
    + intros (a & b & H). destruct a as [|a0 a]; [left; now exists b|].
      right. inversion H. now exists a, b.
Qed.

Lemma tryDown_some {A} (f : nat → option A) lo k v :
  tryDown f lo k = Some v → ∃ n, lo <= n <= k ∧ f n = Some v.
Proof.
  induction k as [|k IH]; simpl.
  - destruct (Nat.ltb_spec 0 lo); [discriminate|].
    destruct (f 0) eqn:Hf; [|discriminate]. intros [= <-]. exists 0. split; [lia|assumption].
  - destruct (Nat.ltb_spec (S k) lo); [discriminate|].
    destruct (f (S k)) eqn:Hf.
    + intros [= <-]. exists (S k). split; [lia|assumption].
    + intros H'. destruct (IH H') as (n & Hn & Hfn). exists n. split; [lia|assumption].
Qed.

Lemma tryDown_found {A} (f : nat → option A) lo k n :
  lo <= n <= k → f n ≠ None → tryDown f lo k ≠ None.
Proof.
  intros Hn Hf Hnone. apply Hf. clear Hf.
  induction k as [|k IH]; simpl in Hnone.
  - destruct (Nat.ltb_spec 0 lo); [lia|]. replace n with 0 by lia.
    now destruct (f 0).
  - destruct (Nat.ltb_spec (S k) lo); [lia|].
    destruct (f (S k)) eqn:Hf; [discriminate|].
    destruct (decide (n = S k)) as [->|Hne]; [assumption|]. apply IH; [lia | assumption].
Qed.

(** a pattern that opens with literal characters matches only where the
    subject has them *)
Lemma matchAt_literal (p : jsstring) (r : regex) prev (s : jsstring) n :
  matchAt (map (λ a, One (isChar a)) p ++ r) prev s = Some n → startsWith p s = true.
Proof.
  revert prev s n. induction p as [|a p IH]; intros prev s n; [reflexivity|].
  cbn [map app matchAt One]. intros H.
  apply tryDown_some in H as (k & Hk & Hf).
  unfold run in Hk. destruct s as [|c s]; [simpl in Hk; lia|].
  simpl in Hk. destruct (isChar a c) eqn:Hac; [|simpl in Hk; lia].
  assert (k = 1) as -> by lia.
  change (drop 1 (c :: s)) with s in Hf. cbn [prevAt nth_error] in Hf.
  cbn [startsWith]. rewrite Hac. cbn [andb].
  destruct (matchAt _ (Some c) s) eqn:Hm; [|discriminate]. eapply IH, Hm.
Qed.

Lemma search_some (r : regex) prev (s : jsstring) i n :
  search r prev s = Some (i, n) → ∃ prev', matchAt r prev' (drop i s) = Some n.
Proof.
  revert prev i. induction s as [|c s IH]; intros prev i; simpl.
  - destruct (matchAt r prev []) eqn:Hm; [|discriminate].
    intros [= <- <-]. now exists prev.
  - destruct (matchAt r prev (c :: s)) eqn:Hm.
    + intros [= <- <-]. now exists prev.
    + destruct (search r (Some c) s) as [[j k]|] eqn:Hs; [|discriminate].
      intros [= <- <-]. simpl. eapply IH, Hs.
Qed.

Lemma search_includes (p : jsstring) (r : regex) prev (s : jsstring) i n :
  search (map (λ a, One (isChar a)) p ++ r) prev s = Some (i, n) →
  includes s p = true.
Proof.
  intros H. apply search_some in H as [prev' Hm]. apply matchAt_literal in Hm.
  apply startsWith_app in Hm as [b Hb]. apply includes_app.
  exists (take i s), b. now rewrite <- Hb, take_drop.
Qed.

Lemma search_wordB_includes (p : jsstring) (r : regex) prev (s : jsstring) i n :
  search (WordB :: map (λ a, One (isChar a)) p ++ r) prev s = Some (i, n) →
  includes s p = true.
Proof.
  intros H. apply search_some in H as [prev' Hm]. cbn [matchAt] in Hm.
  destruct (xorb _ _); [|discriminate]. apply matchAt_literal in Hm.
  apply startsWith_app in Hm as [b Hb]. apply includes_app.
  exists (take i s), b. now rewrite <- Hb, take_drop.
Qed.

(** every match of a scan is a piece of the subject *)
Lemma scan_infix (r : regex) prev (s : jsstring) skip m :
  m ∈ scan r prev s skip → ∃ a b, s = a ++ m ++ b.
Proof.
  revert prev skip. induction s as [|c s IH]; intros prev skip.
  - destruct skip; simpl; [|intros H; inversion H].
    destruct (matchAt r prev []); intros H; [|inversion H].
    apply list_elem_of_singleton in H as ->. rewrite take_nil. now exists [], [].
  - destruct skip as [|k]; simpl.
    + destruct (matchAt r prev (c :: s)) as [n|].
      * intros H. apply elem_of_cons in H as [->|H].
        -- exists [], (drop n (c :: s)). simpl app. now rewrite take_drop.
        -- destruct (IH _ _ H) as (a & b & ->). now exists (c :: a), b.
      * intros H. destruct (IH _ _ H) as (a & b & ->). now exists (c :: a), b.
    + intros H. destruct (IH _ _ H) as (a & b & ->). now exists (c :: a), b.
Qed.

Lemma scan_search (r : regex) prev (s : jsstring) :
  scan r prev s 0 ≠ [] → search r prev s ≠ None.
Proof.
  revert prev. induction s as [|c s IH]; intros prev; simpl.
  - now destruct (matchAt r prev []).
  - destruct (matchAt r prev (c :: s)); [discriminate|].
    intros H. specialize (IH _ H). now destruct (search r (Some c) s) as [[? ?]|].
Qed.

(** a pattern still matches when its tail is replaced by one that matches
    wherever the first did *)
Lemma matchAt_weaken (r r1 r2 : regex) :
  (∀ prev s, matchAt r1 prev s ≠ None → matchAt r2 prev s ≠ None) →
  ∀ prev s, matchAt (r ++ r1) prev s ≠ None → matchAt (r ++ r2) prev s ≠ None.
Proof.
  intros Htail. induction r as [|a r IH]; intros prev s; [apply Htail|].
  destruct a as [cls lo hi|l| | |]; cbn [app matchAt].
  - intros H. destruct (tryDown _ lo (run cls hi s)) as [v|] eqn:Ht; [|congruence].
    apply tryDown_some in Ht as (n & Hn & Hf).
    apply (tryDown_found _ lo _ n Hn).
    destruct (matchAt (r ++ r1) (prevAt prev s n) (drop n s)) eqn:Hm; [|discriminate].
    assert (Hm2 : matchAt (r ++ r2) (prevAt prev s n) (drop n s) ≠ None)
      by (apply IH; congruence).
    now destruct (matchAt (r ++ r2) (prevAt prev s n) (drop n s)).
  - destruct (startsWith l s); [|apply IH].
    destruct (matchAt (r ++ r1) _ (drop (length l) s)) eqn:Hm.
    + intros _.
      assert (Hm2 : matchAt (r ++ r2) (prevAt prev s (length l)) (drop (length l) s) ≠ None)
        by (apply IH; congruence).
      now destruct (matchAt (r ++ r2) _ (drop (length l) s)).
    + intros H. destruct (matchAt (r ++ r2) _ (drop (length l) s)); [discriminate|].
      now apply IH.
  - destruct (xorb _ _); [apply IH | congruence].
  - destruct prev; [congruence | apply IH].
  - destruct s; [apply IH | congruence].
Qed.

Lemma search_weaken (r1 r2 : regex) :
  (∀ prev s, matchAt r1 prev s ≠ None → matchAt r2 prev s ≠ None) →
  ∀ prev s, search r1 prev s ≠ None → search r2 prev s ≠ None.
Proof.
  intros Hm prev s. revert prev. induction s as [|c s IH]; intros prev; simpl.
  - destruct (matchAt r1 prev []) eqn:H1; [|congruence]. intros _.
    assert (H2 : matchAt r2 prev [] ≠ None) by (apply Hm; congruence).
    now destruct (matchAt r2 prev []).
  - destruct (matchAt r1 prev (c :: s)) eqn:H1.
    + intros _. assert (H2 : matchAt r2 prev (c :: s) ≠ None) by (apply Hm; congruence).
      now destruct (matchAt r2 prev (c :: s)).
    + intros H. destruct (matchAt r2 prev (c :: s)); [discriminate|].
      assert (H2 : search r2 (Some c) s ≠ None).
      { apply IH. now destruct (search r1 (Some c) s) as [[? ?]|]. }
      now destruct (search r2 (Some c) s) as [[? ?]|].
Qed.

Lemma caMarked_caTrigger prev (s : jsstring) :
  search caMarked prev s ≠ None → search caTrigger prev s ≠ None.
Proof.
  apply search_weaken. unfold caMarked, caTrigger. apply matchAt_weaken.
  clear prev s. intros prev s. cbn [matchAt One]. intros H.
  destruct (tryDown _ 3 _) as [v|] eqn:Ht; [|congruence].
  apply tryDown_some in Ht as (n & Hn & _).
  apply (tryDown_found _ 1 _ 1).
  - unfold run in *. lia.
  - simpl. discriminate.
Qed.

(** whenever the message holds a suffix part, the reconstruction block is
    triggered *)
Lemma suffix_triggers (cleanedText : jsstring) (s : Part.t) :
  s ∈ findPotentialAddressParts cleanedText → isSuffix s = true →
  reconstructionTrigger cleanedText = true.
Proof.
  unfold findPotentialAddressParts, reconstructionTrigger. intros Hin Hs.
  rewrite !elem_of_app in Hin. destruct Hin as [Hca|[Hpump|[Hmsn|Hfrag]]].
  - assert (Hne : matchAll caMarked cleanedText ≠ []).
    { intros Hnil. rewrite Hnil in Hca. inversion Hca. }
    apply scan_search, caMarked_caTrigger in Hne. unfold test.
    destruct (search caTrigger None cleanedText); [|congruence].
    now rewrite !orb_true_r.
  - unfold test in Hpump.
    destruct (search pumpWord None cleanedText) as [[i n]|] eqn:Hsearch;
      [|inversion Hpump].
    apply (search_wordB_includes (lit "pump")) in Hsearch. now rewrite Hsearch.
  - unfold firstMatch in Hmsn.
    destruct (search msnjnWord None cleanedText) as [[i n]|] eqn:Hsearch;
      [|inversion Hmsn].
    apply (search_wordB_includes (lit "MSNJn")) in Hsearch. rewrite Hsearch.
    now rewrite orb_true_r.
  - apply list_elem_of_fmap in Hfrag as (m & -> & Hm).
    unfold isSuffix in Hs. cbn [Part.isPumpEnding Part.type] in Hs.
    rewrite !bool_decide_eq_false_2 in Hs by discriminate.
    rewrite !orb_false_r in Hs.
    apply scan_infix in Hm as (a & b & Ht).
    apply endsWith_app in Hs as [a' Ha'].
    assert (Hinc : includes cleanedText (lit "pump") = true).
    { apply includes_app. exists (a ++ a'), b. rewrite Ht, Ha'.
      now rewrite <- !app_assoc. }
    now rewrite Hinc.
Qed.

(** ** The scenarios of the specification, run *)

(** the registry answers after one second, the two other providers never do:
    the race is won at 1000 ms, before any timeout *)
Example race_first_success :
  promiseAny
    [settle (answerOf registryEnv initialState sampleAddress Jupiter) 8000;
     settle (answerOf registryEnv initialState sampleAddress Birdeye) 8000;
     settle (answerOf registryEnv initialState sampleAddress Registry) 5000]
  = Some (1000%N, confirmed "Jupiter Registry").
Proof. reflexivity. Qed.

(** the marked address is extracted once, verified, forwarded once, and not
    forwarded again when the message is delivered a second time *)
Example end_to_end_forwarded_once :
  let st := runScript registryEnv endToEnd initialState in
  matchAll solanaAddressRegex markedMessage = [sampleAddress] ∧
  forwards (events st) = [sampleAddress] ∧
  verificationResults st !! sampleAddress = Some (confirmed "Jupiter Registry") ∧
  length (messageWindow st) = 2.
Proof. vm_compute. repeat split; reflexivity. Qed.

(** the suffix is cut by three characters exactly when the fragment ends
    with its first three *)
Example suffix_joined_after_overlap :
  combineWithSuffix (lit "4TMGdUxhLX8XG6Cfpum") (lit "pump") = lit "4TMGdUxhLX8XG6Cfpump" ∧
  combineWithSuffix (lit "4TMGdUxhLX8XG6Cfpu") (lit "pump") = lit "4TMGdUxhLX8XG6Cfpupump" ∧
  combineWithSuffix (lit "4TMGdUxhLX8XMSNJ") (lit "MSNJn") = lit "4TMGdUxhLX8XMSNJMSNJn".
Proof. repeat split; reflexivity. Qed.

(** the timestamps are cleaned in the order of the source, so a bracketed
    time loses its digits before its brackets are looked for *)
Example timestamps_cleaned :
  cleanMessageText (Some (lit "Today at 12:30 PM hello [1:05AM]")) = lit "hello []".
Proof. reflexivity. Qed.

(** an address that happens to hold the word Verifying loses twelve
    characters in [sanitizeAddress] *)
Example sanitize_strips_note :
  sanitizeAddress (lit "4k3Dyjzvzp8eMZWUXbBCjEvwSkkk59S5VerifyingkX6R")
  = Some (lit "4k3Dyjzvzp8eMZWUXbBCjEvwSkkk59S5R").
Proof. reflexivity. Qed.

(** * Further properties of the script *)

(** ** What the patterns match *)

Lemma matchAt_rep_only cls lo hi prev (s : jsstring) :
  matchAt [Rep cls lo hi] prev s =
  if lo <=? run cls hi s then Some (run cls hi s) else None.
Proof.
  cbn [matchAt]. destruct (Nat.leb_spec lo (run cls hi s)).
  - apply tryDown_top; [assumption|]. simpl. f_equal. lia.
  - now apply tryDown_below.
Qed.

Lemma matchAt_bounded_run cls lo hi prev (s : jsstring) n :
  matchAt [WordB; Rep cls lo hi; WordB] prev s = Some n →
  lo <= n ∧ n <= run cls hi s.
Proof.
  cbn [matchAt]. destruct (xorb _ _); [|discriminate]. intros H.
  apply tryDown_some in H as (k & Hk & Hf).
  destruct (xorb _ _); [|discriminate]. simpl in Hf.
  injection Hf as <-. lia.
Qed.

Lemma take_span cls (s : jsstring) n :
  n <= span cls s → forallb cls (take n s) = true ∧ length (take n s) = n.
Proof.
  revert n. induction s as [|c s IH]; intros n; simpl.
  - intros Hn. assert (n = 0) as -> by lia. auto.
  - destruct n as [|n]; [auto|]. destruct (cls c) eqn:Hc; [|lia].
    intros Hn. destruct (IH n ltac:(lia)) as [Ha Hl]. simpl.
    rewrite Hc, Ha, Hl. auto.
Qed.

Lemma run_withinBound cls hi (s : jsstring) n :
  n <= run cls hi s → n <= span cls s ∧ withinBound hi n = true.
Proof.
  unfold run, withinBound. destruct hi as [h|].
  - rewrite Nat.leb_le. lia.
  - auto.
Qed.

(** every match of a scan is the text of a match of the pattern at some
    place of the subject *)
Lemma scan_matches (r : regex) prev (s : jsstring) skip m :
  m ∈ scan r prev s skip →
  ∃ prev' a s' n, s = a ++ s' ∧ matchAt r prev' s' = Some n ∧ m = take n s'.
Proof.
  revert prev skip. induction s as [|c s IH]; intros prev skip.
  - destruct skip; simpl; [|intros H; inversion H].
    destruct (matchAt r prev []) as [n|] eqn:Hm; intros H; [|inversion H].
    apply list_elem_of_singleton in H as ->. now exists prev, [], [], n.
  - assert (Hlater : ∀ prev' k, m ∈ scan r prev' s k →
              ∃ prev'' a s' n, c :: s = a ++ s' ∧ matchAt r prev'' s' = Some n ∧
                               m = take n s').
    { intros prev' k H. destruct (IH _ _ H) as (p & a & s' & n & -> & Hm & ->).
      now exists p, (c :: a), s', n. }
    destruct skip as [|k]; simpl; [|apply Hlater].
    destruct (matchAt r prev (c :: s)) as [n|] eqn:Hm; [|apply Hlater].
    intros H. apply elem_of_cons in H as [->|H]; [|eapply Hlater, H].
    now exists prev, [], (c :: s), n.
Qed.

Lemma bounded_run_match cls lo hi (t m : jsstring) :
  m ∈ matchAll [WordB; Rep cls lo hi; WordB] t →
  lo <= length m ∧ withinBound hi (length m) = true ∧ forallb cls m = true ∧
  ∃ a b, t = a ++ m ++ b.
Proof.
  intros H. pose proof (scan_infix _ _ _ _ _ H) as Hinfix.
  apply scan_matches in H as (prev & a & s' & n & _ & Hm & ->).
  apply matchAt_bounded_run in Hm as [Hlo Hrun].
  apply run_withinBound in Hrun as [Hspan Hhi].
  destruct (take_span cls s' n Hspan) as [Hall Hlen].
  rewrite Hlen. auto.
Qed.

Lemma search_none (r : regex) prev (s : jsstring) :
  (∀ i prev', matchAt r prev' (drop i s) = None) → search r prev s = None.
Proof.
  revert prev. induction s as [|c s IH]; intros prev H;
    pose proof (H 0 prev) as H0; simpl in H0; simpl; rewrite H0; [reflexivity|].
  rewrite IH; [reflexivity|]. intros i prev'. apply (H (S i)).
Qed.

Lemma strip_no_match (r : regex) prev (s : jsstring) :
  (∀ i prev', matchAt r prev' (drop i s) = None) → strip r prev s 0 = s.
Proof.
  revert prev. induction s as [|c s IH]; intros prev H; simpl.
  { now destruct (matchAt r prev []) as [[|?]|]. }
  pose proof (H 0 prev) as H0. simpl in H0. rewrite H0.
  f_equal. apply IH. intros i prev'. apply (H (S i)).
Qed.

Lemma strip_length (r : regex) prev (s : jsstring) skip :
  length (strip r prev s skip) <= length s.
Proof.
  revert prev skip. induction s as [|c s IH]; intros prev skip.
  - destruct skip; simpl; [|lia]. destruct (matchAt r prev []) as [[|n]|]; simpl; lia.
  - destruct skip as [|k]; simpl.
    + destruct (matchAt r prev (c :: s)) as [[|n]|]; simpl;
        try (specialize (IH (Some c) 0); lia).
      specialize (IH (Some c) n). lia.
    + specialize (IH (Some c) k). lia.
Qed.

Lemma matchAt_literal_none (p : jsstring) (r : regex) prev (s : jsstring) :
  startsWith p s = false → matchAt (map (λ a, One (isChar a)) p ++ r) prev s = None.
Proof.
  intros H. destruct (matchAt _ prev s) eqn:Hm; [|reflexivity].
  apply matchAt_literal in Hm. congruence.
Qed.

(** a pattern that needs a character of a class matches nowhere in a string
    that has none *)
Lemma matchAt_requires cls lo hi (r : regex) prev (s : jsstring) :
  In (Rep cls (S lo) hi) r → forallb (λ c, negb (cls c)) s = true →
  matchAt r prev s = None.
Proof.
  intros Hin. revert prev s. induction r as [|a r IH]; intros prev s Hs; [inversion Hin|].
  assert (Hdrop : ∀ n, forallb (λ c, negb (cls c)) (drop n s) = true).
  { intros n. rewrite forallb_forall in *. intros c Hc. apply Hs.
    apply list_elem_of_In. apply list_elem_of_In in Hc.
    exact (subseteq_drop n s c Hc). }
  destruct Hin as [->|Hin].
  - cbn [matchAt]. apply tryDown_below.
    assert (span cls s = 0) as Hsp.
    { destruct s as [|c s]; [reflexivity|]. simpl in *.
      apply andb_prop in Hs as [Hc _]. now destruct (cls c). }
    unfold run. destruct hi; lia.
  - destruct a as [cls' lo' hi'|l| | |]; cbn [matchAt].
    + apply tryDown_all_none. intros n _. now rewrite IH.
    + specialize (Hdrop (length l)).
      destruct (startsWith l s); rewrite ?IH; auto.
    + destruct (xorb _ _); auto.
    + destruct prev; auto.
    + destruct s; auto.
Qed.

(** ** [trim] *)

Lemma trimStart_suffix (s : jsstring) : ∃ a, s = a ++ trimStart s.
Proof.
  induction s as [|c s [a IH]]; simpl; [now exists []|].
  destruct (whiteSpace c); [|now exists []].
  exists (c :: a). simpl. now f_equal.
Qed.

Lemma trimStart_head (s : jsstring) c :
  head (trimStart s) = Some c → whiteSpace c = false.
Proof.
  induction s as [|d s IH]; simpl; [discriminate|].
  destruct (whiteSpace d) eqn:Hd; [assumption|]. simpl. now intros [= <-].
Qed.

Lemma trimStart_clean (s : jsstring) :
  (∀ c, head s = Some c → whiteSpace c = false) → trimStart s = s.
Proof.
  destruct s as [|c s]; simpl; [reflexivity|]. intros H. now rewrite (H c eq_refl).
Qed.

Lemma head_rev_last (s : jsstring) : head (rev s) = last s.
Proof.
  induction s as [|c s IH] using rev_ind; [reflexivity|].
  now rewrite rev_app_distr, last_snoc.
Qed.

Lemma trim_length (s : jsstring) : length (trim s) <= length s.
Proof.
  unfold trim. rewrite length_rev.
  destruct (trimStart_suffix (rev (trimStart s))) as [a Ha].
  destruct (trimStart_suffix s) as [b Hb].
  apply (f_equal length) in Ha, Hb. rewrite length_app in Ha, Hb.
  rewrite length_rev in Ha. lia.
Qed.

Lemma trim_trimmed (s : jsstring) : trimmed (trim s).
Proof.
  unfold trimmed, trim. set (u := trimStart s). split.
  - intros c Hc.
    destruct (trimStart_suffix (rev u)) as [a Ha].
    apply (f_equal (@rev ascii)) in Ha.
    rewrite rev_involutive, rev_app_distr in Ha.
    apply (trimStart_head s c). fold u. rewrite Ha.
    destruct (rev (trimStart (rev u))); [discriminate | exact Hc].
  - intros c Hc. rewrite <- head_rev_last, rev_involutive in Hc.
    eapply trimStart_head, Hc.
Qed.

Lemma trim_clean (s : jsstring) : trimmed s → trim s = s.
Proof.
  intros [Hh Hl]. unfold trim. rewrite (trimStart_clean s Hh).
  rewrite trimStart_clean; [apply rev_involutive|].
  intros c. rewrite head_rev_last. apply Hl.
Qed.

(** ** [sanitizeAddress] *)

Lemma removeAll_length (r : regex) (s : jsstring) : length (removeAll r s) <= length s.
Proof. apply strip_length. Qed.

Lemma search_here (r : regex) prev (s : jsstring) n :
  matchAt r prev s = Some n → search r prev s = Some (0, n).
Proof. intros H. destruct s; simpl; now rewrite H. Qed.

Lemma base58_not_space (c : ascii) : base58 c = true → whiteSpace c = false.
Proof. destruct c as [[] [] [] [] [] [] [] []]; vm_compute; congruence. Qed.

Lemma base58_trimmed (s : jsstring) : forallb base58 s = true → trimmed s.
Proof.
  rewrite forallb_forall. intros H. split; intros c Hc; apply base58_not_space, H.
  - destruct s; [discriminate|]. injection Hc as ->. now left.
  - apply list_elem_of_In. apply last_Some in Hc as [l' ->].
    apply elem_of_app. right. now left.
Qed.

Lemma startsWith_drop_class cls (p s : jsstring) i :
  forallb cls s = true → startsWith p (drop i s) = true → forallb cls p = true.
Proof.
  rewrite !forallb_forall. intros Hs Hp c Hc.
  apply startsWith_app in Hp as [b Hb]. apply Hs, list_elem_of_In.
  apply (subseteq_drop i s). rewrite Hb. apply elem_of_app. left.
  now apply list_elem_of_In.
Qed.

Lemma literal_absent (p : jsstring) (r : regex) (s : jsstring) prev :
  forallb base58 s = true → forallb base58 p = false →
  strip (map (λ a, One (isChar a)) p ++ r) prev s 0 = s.
Proof.
  intros Hs Hp. apply strip_no_match. intros i prev'.
  apply matchAt_literal_none. apply not_true_is_false. intros H.
  rewrite (startsWith_drop_class base58 p s i Hs H) in Hp. discriminate.
Qed.

Lemma verifyingNote_absent (s : jsstring) prev :
  includes s (lit "Verifying") = false → strip verifyingNote prev s 0 = s.
Proof.
  intros Hs. apply strip_no_match. intros i prev'.
  apply (matchAt_literal_none (lit "Verifying")). apply not_true_is_false. intros H.
  apply startsWith_app in H as [b Hb].
  assert (Hinc : includes s (lit "Verifying") = true).
  { apply includes_app. exists (take i s), b. now rewrite <- Hb, take_drop. }
  congruence.
Qed.

Lemma addressRun_found (cleaned c : jsstring) :
  firstMatch addressRun cleaned = Some c → wellFormed c.
Proof.
  unfold firstMatch.
  destruct (search addressRun None cleaned) as [[i n]|] eqn:Hs; [|discriminate].
  intros [= <-]. apply search_some in Hs as [prev Hm].
  unfold addressRun in Hm. rewrite matchAt_rep_only in Hm.
  pose proof (run_withinBound base58 (Some 44) (drop i cleaned) _ (Nat.le_refl _))
    as [Hspan Hhi].
  set (k := run base58 (Some 44) (drop i cleaned)) in *.
  destruct (Nat.leb_spec 32 k); [|discriminate].
  assert (n = k) as -> by congruence.
  destruct (take_span base58 _ _ Hspan) as [Hall Hlen].
  unfold withinBound in Hhi. apply Nat.leb_le in Hhi.
  split.
  - rewrite Hlen. lia.
  - now apply forallb_base58.
Qed.

Lemma sanitizeAddress_cleaned (address c : jsstring) :
  sanitizeAddress address = Some c → wellFormed c.
Proof. unfold sanitizeAddress. apply addressRun_found. Qed.

(** X1.  Whatever it is given, [sanitizeAddress] returns nothing or a
    well-formed address: 32 to 44 characters of the alphabet, which passes
    the two guards of [fullTokenVerification] and is no longer than the
    string given. *)
Theorem sanitizeAddress_wellFormed (address c : jsstring) :
  sanitizeAddress address = Some c →
  wellFormed c ∧ formatRejection c = None ∧ length c <= length address.
Proof.
  intros H. pose proof (sanitizeAddress_cleaned _ _ H) as Hwf.
  split; [exact Hwf|]. split; [now apply formatRejection_None|].
  unfold sanitizeAddress, firstMatch in H.
  destruct (search addressRun None _) as [[i n]|]; [|discriminate].
  injection H as <-. rewrite length_take, length_drop.
  etrans; [apply Nat.le_min_r|]. etrans; [apply Nat.le_sub_l|].
  etrans; [apply trim_length|].
  etrans; [apply removeAll_length|].
  etrans; [apply removeAll_length|].
  etrans; [apply removeAll_length|].
  apply removeAll_length.
Qed.

Lemma sanitizeAddress_wellFormed_witness :
  sanitizeAddress badgeText = Some sampleAddress ∧ wellFormed sampleAddress.
Proof.
  assert (H : sanitizeAddress badgeText = Some sampleAddress) by (vm_compute; reflexivity).
  split; [exact H|]. exact (proj1 (sanitizeAddress_wellFormed badgeText sampleAddress H)).
Defined.

Lemma sanitizeAddress_on_plain (s : jsstring) :
  plainRun s →
  sanitizeAddress s = if 32 <=? length s then Some (take 44 s) else None.
Proof.
  intros [Hall Hver]. unfold sanitizeAddress, removeAll.
  unfold markupTag at 1. unfold Chars at 1.
  rewrite (literal_absent (lit "<") _ s None Hall eq_refl).
  unfold dataAddressAttr, Chars.
  rewrite (literal_absent (lit "data-address=") _ s None Hall eq_refl).
  unfold styleAttr, Chars.
  rewrite (literal_absent (lit "style=") _ s None Hall eq_refl).
  rewrite (verifyingNote_absent s None Hver).
  rewrite (trim_clean s (base58_trimmed s Hall)).
  unfold firstMatch, addressRun.
  assert (Hrun : ∀ i, run base58 (Some 44) (drop i s) <= length s - i).
  { intros i. pose proof (run_le base58 (Some 44) (drop i s)) as H.
    now rewrite length_drop in H. }
  destruct (Nat.leb_spec 32 (length s)) as [Hlen|Hlen].
  - assert (Hfull : run base58 (Some 44) s = Nat.min 44 (length s)).
    { unfold run. f_equal. now apply span_full. }
    rewrite (search_here _ None s (Nat.min 44 (length s))).
    + f_equal. rewrite drop_0.
      destruct (Nat.le_ge_cases (length s) 44).
      * rewrite Nat.min_r by assumption. now rewrite !take_ge by lia.
      * now rewrite Nat.min_l by assumption.
    + rewrite matchAt_rep_only, Hfull.
      destruct (Nat.leb_spec 32 (Nat.min 44 (length s))); [reflexivity | lia].
  - rewrite search_none; [reflexivity|]. intros i prev.
    rewrite matchAt_rep_only. specialize (Hrun i).
    destruct (Nat.leb_spec 32 (run base58 (Some 44) (drop i s))); [lia | reflexivity].
Qed.

(** X2.  On a string of alphabet characters that does not hold the badge
    text "Verifying", [sanitizeAddress] keeps the first 44 characters when
    there are at least 32 and returns nothing otherwise.  So a well-formed
    address is returned as it is, and what is appended to an address of 44
    characters is cut off again. *)
Theorem sanitizeAddress_plain (s : jsstring) :
  plainRun s →
  sanitizeAddress s = (if 32 <=? length s then Some (take 44 s) else None) ∧
  (wellFormed s → sanitizeAddress s = Some s) ∧
  (∀ more, length s = 44 → plainRun (s ++ more) → sanitizeAddress (s ++ more) = Some s).
Proof.
  intros Hs. split; [now apply sanitizeAddress_on_plain|]. split.
  - intros [Hlen _]. rewrite sanitizeAddress_on_plain by assumption.
    destruct (Nat.leb_spec 32 (length s)); [|lia]. now rewrite take_ge by lia.
  - intros more Hlen Hmore. rewrite sanitizeAddress_on_plain by assumption.
    rewrite length_app. destruct (Nat.leb_spec 32 (length s + length more)); [|lia].
    rewrite take_app_le by lia. now rewrite take_ge by lia.
Qed.

Lemma sanitizeAddress_plain_witness :
  sanitizeAddress (sampleAddress ++ lit "pump") = Some sampleAddress.
Proof.
  assert (Hs : plainRun sampleAddress)
    by (apply (bool_decide_unpack _); vm_compute; exact I).
  apply (proj2 (proj2 (sanitizeAddress_plain sampleAddress Hs))).
  - reflexivity.
  - apply (bool_decide_unpack _). vm_compute. exact I.
Defined.

(** ** [cleanMessageText] *)

(** X3.  The cleaned text is never longer than the text and never starts or
    ends with white space; an absent text is cleaned to the empty string. *)
Theorem cleanMessageText_shrinks (text : option jsstring) :
  trimmed (cleanMessageText text) ∧
  length (cleanMessageText text) <= length (default [] text) ∧
  cleanMessageText None = [].
Proof.
  split; [|split; [|reflexivity]].
  - destruct text as [[|c t]|]; cbn [cleanMessageText];
      [split; intros ? [=] | apply trim_trimmed | split; intros ? [=]].
  - destruct text as [[|c t]|]; cbn [cleanMessageText default]; try (simpl; lia).
    etrans; [apply trim_length|].
    etrans; [apply removeAll_length|].
    etrans; [apply removeAll_length|].
    etrans; [apply removeAll_length|].
    apply (removeAll_length todayAt (c :: t)).
Qed.

Lemma removeAll_needs_digit (r : regex) (s : jsstring) :
  In (Plus digit) r → forallb (λ c, negb (digit c)) s = true → removeAll r s = s.
Proof.
  intros Hin Hs. apply strip_no_match. intros i prev.
  apply (matchAt_requires digit 0 None); [exact Hin|].
  rewrite forallb_forall in *. intros c Hc. apply Hs, list_elem_of_In.
  apply (subseteq_drop i s). now apply list_elem_of_In.
Qed.

(** X4.  Every timestamp pattern needs a digit: a text without a digit is
    only trimmed. *)
Theorem cleanMessageText_without_digit (t : jsstring) :
  forallb (λ c, negb (digit c)) t = true → cleanMessageText (Some t) = trim t.
Proof.
  intros Ht. destruct t as [|c t]; [reflexivity|].
  cbn [cleanMessageText].
  assert (H1 : In (Plus digit) todayAt) by (cbv; tauto).
  assert (H2 : In (Plus digit) clockTime) by (cbv; tauto).
  assert (H3 : In (Plus digit) yesterdayAt) by (cbv; tauto).
  assert (H4 : In (Plus digit) bracketedTime) by (cbv; tauto).
  rewrite (removeAll_needs_digit todayAt _ H1 Ht).
  rewrite (removeAll_needs_digit clockTime _ H2 Ht).
  rewrite (removeAll_needs_digit yesterdayAt _ H3 Ht).
  now rewrite (removeAll_needs_digit bracketedTime _ H4 Ht).
Qed.

Lemma cleanMessageText_without_digit_witness :
  cleanMessageText (Some (lit "  Today at noon: pump  ")) = lit "Today at noon: pump".
Proof.
  rewrite (cleanMessageText_without_digit (lit "  Today at noon: pump  ")); reflexivity.
Defined.

(** ** Direct matches and fragments *)

(** X5.  Every direct match of [solanaAddressRegex] in a message is a
    well-formed address that occurs in the message. *)
Theorem direct_matches_wellFormed (t m : jsstring) :
  m ∈ matchAll solanaAddressRegex t → wellFormed m ∧ ∃ a b, t = a ++ m ++ b.
Proof.
  intros H. apply bounded_run_match in H as (Hlo & Hhi & Hall & Hinfix).
  simpl in Hhi. apply Nat.leb_le in Hhi.
  split; [|exact Hinfix]. split; [lia | now apply forallb_base58].
Qed.

Lemma direct_matches_wellFormed_witness :
  wellFormed sampleAddress ∧ ∃ a b, markedMessage = a ++ sampleAddress ++ b.
Proof.
  apply (direct_matches_wellFormed markedMessage sampleAddress).
  apply (bool_decide_unpack _). vm_compute. exact I.
Defined.

(** X6.  Every part of type fragment that [findPotentialAddressParts] finds
    is a run of 10 to 44 alphabet characters that occurs in the message, and
    its pump flag says whether it ends in pump. *)
Theorem fragment_parts_shape (t : jsstring) (p : Part.t) :
  p ∈ findPotentialAddressParts t → Part.type p = Part.fragment →
  10 <= length (Part.text p) <= 44 ∧
  Forall (λ c, c ∈ canonicalAlphabet) (Part.text p) ∧
  (∃ a b, t = a ++ Part.text p ++ b) ∧
  Part.isPumpEnding p = endsWith (Part.text p) (lit "pump").
Proof.
  unfold findPotentialAddressParts. intros Hin Hty.
  rewrite !elem_of_app in Hin. destruct Hin as [H|[H|[H|H]]].
  - apply list_elem_of_fmap in H as (m & -> & _). discriminate Hty.
  - destruct (test pumpWord t); [|inversion H].
    apply list_elem_of_singleton in H as ->. discriminate Hty.
  - destruct (firstMatch msnjnWord t); [|inversion H].
    apply list_elem_of_singleton in H as ->. discriminate Hty.
  - apply list_elem_of_fmap in H as (m & -> & Hm). cbn [Part.text Part.isPumpEnding].
    apply bounded_run_match in Hm as (Hlo & Hhi & Hall & Hinfix).
    simpl in Hhi. apply Nat.leb_le in Hhi.
    split; [lia|]. split; [now apply forallb_base58|]. split; [exact Hinfix | reflexivity].
Qed.

Lemma fragment_parts_shape_witness :
  10 <= length fragment28 <= 44 ∧
  Forall (λ c, c ∈ canonicalAlphabet) fragment28 ∧
  (∃ a b, fragmentMessage = a ++ fragment28 ++ b) ∧
  false = endsWith fragment28 (lit "pump").
Proof.
  apply (fragment_parts_shape fragmentMessage fragmentPart).
  - apply (bool_decide_unpack _). vm_compute. exact I.
  - reflexivity.
Defined.

(** ** One call of [processAddress] *)

Lemma processAddress_hit (env : Env) (st : State) (a m : jsstring) (el : Element)
  (ai : bool) (c : jsstring) (v : VerificationInfo) :
  sanitizeAddress a = Some c → c ∈ foundAddresses st →
  verificationResults st !! c = Some v →
  processAddress env st a m el ai = (emit (Processed a m ai) st, Some v).
Proof.
  intros Hs Hf Hv. unfold processAddress. rewrite Hs.
  cbn [foundAddresses verificationResults emit].
  now rewrite bool_decide_eq_true_2, Hv.
Qed.

Lemma processAddress_none (env : Env) (st : State) (a m : jsstring) (el : Element)
  (ai : bool) :
  sanitizeAddress a = None →
  processAddress env st a m el ai = (emit (Processed a m ai) st, None).
Proof. intros Hs. unfold processAddress. now rewrite Hs. Qed.

(** the call that verifies: what it leaves in each variable *)
Lemma processAddress_miss (env : Env) (st : State) (a m : jsstring) (el : Element)
  (ai : bool) (c : jsstring) :
  sanitizeAddress a = Some c →
  c ∉ foundAddresses st ∨ verificationResults st !! c = None →
  let st' := fst (processAddress env st a m el ai) in
  ∃ info,
    snd (processAddress env st a m el ai) = Some info ∧
    info = snd (verifyTokenWithMultipleAPIs env
                  (with_foundAddresses (foundAddresses st ∪ {[c]})
                     (emit (Processed a m ai) st)) c) ∧
    foundAddresses st' = foundAddresses st ∪ {[c]} ∧
    verificationResults st' = <[c := info]> (verificationResults st) ∧
    bloomSentAddresses st' =
      (if autoSendToBloom st then bloomSentAddresses st ∪ {[c]}
       else bloomSentAddresses st) ∧
    autoSendToBloom st' = autoSendToBloom st ∧
    newEvents st st' =
      [Processed a m ai; ProviderRequest Jupiter c; ProviderRequest Birdeye c;
       ProviderRequest Registry c; AddressFound c m] ++
      (if autoSendToBloom st && bool_decide (c ∉ bloomSentAddresses st)
       then [Forwarded c] else []).
Proof.
  intros Hs Hmiss st'. subst st'. unfold processAddress. rewrite Hs.
  cbn [foundAddresses verificationResults emit].
  assert (Hreuse : (if bool_decide (c ∈ foundAddresses st)
                    then verificationResults st !! c else None) = None).
  { case_bool_decide; [|reflexivity]. now destruct Hmiss. }
  rewrite Hreuse.
  assert (Hwf : formatRejection c = None).
  { apply formatRejection_None. eapply sanitizeAddress_cleaned, Hs. }
  unfold fullTokenVerification. rewrite Hwf.
  set (st1 := with_foundAddresses _ _).
  rewrite (race_unfold env st1 c).
  set (info := match promiseAny _ with Some (_, r) => r | None => _ end).
  exists info. cbn [fst snd].
  split; [reflexivity|]. split; [reflexivity|].
  subst st1.
  cbn [autoSendToBloom emit with_verificationResults with_foundAddresses].
  destruct (autoSendToBloom st) eqn:Hauto; cbn [andb].
  - unfold sendToBloomBot.
    cbn [bloomSentAddresses emit with_verificationResults with_foundAddresses].
    destruct (decide (c ∈ bloomSentAddresses st)) as [Hin|Hout].
    + rewrite (bool_decide_eq_true_2 _ Hin).
      rewrite (bool_decide_eq_false_2 (c ∉ bloomSentAddresses st)) by tauto.
      cbn [foundAddresses verificationResults bloomSentAddresses autoSendToBloom
           emit with_verificationResults with_foundAddresses].
      repeat split; try reflexivity; try assumption.
      * symmetry. rewrite (comm_L (∪)).
        apply subseteq_union_1_L, singleton_subseteq_l, Hin.
      * apply newEvents_app. cbn [events emit with_verificationResults with_foundAddresses].
        now rewrite <- !app_assoc.
    + rewrite (bool_decide_eq_false_2 _ Hout).
      rewrite (bool_decide_eq_true_2 (c ∉ bloomSentAddresses st)) by assumption.
      cbn [foundAddresses verificationResults bloomSentAddresses autoSendToBloom
           emit with_verificationResults with_foundAddresses with_bloomSentAddresses].
      repeat split; try reflexivity; try assumption.
      apply newEvents_app.
      cbn [events emit with_verificationResults with_foundAddresses
           with_bloomSentAddresses].
      now rewrite <- !app_assoc.
  - cbn [foundAddresses verificationResults bloomSentAddresses autoSendToBloom
         emit with_verificationResults with_foundAddresses].
    repeat split; try reflexivity; try assumption.
    apply newEvents_app. cbn [events emit with_verificationResults with_foundAddresses].
    now rewrite <- !app_assoc.
Qed.

(** ** Properties of the state that ingestion keeps

    A property of the state that the setters of the message stores and of the
    prompt keep, that a request to the completion service keeps, and that
    [processAddress] keeps for the candidates in [Q], is kept by the whole of
    ingestion, when [Q] holds of the well-formed addresses and of those the
    fallback appends pump to. *)

Lemma matchAll_solana_wellFormed (t : jsstring) :
  Forall wellFormed (matchAll solanaAddressRegex t).
Proof.
  apply Forall_forall. intros m H.
  apply bounded_run_match in H as (Hlo & Hhi & Hall & _).
  simpl in Hhi. apply Nat.leb_le in Hhi.
  split; [lia | now apply forallb_base58].
Qed.

Section Preservation.

Variable env : Env.
Variable P : State → Prop.
Variable Q : jsstring → Prop.

Hypothesis P_buffer : ∀ v st, P st → P (with_buffer v st).
Hypothesis P_window : ∀ v st, P st → P (with_messageWindow v st).
Hypothesis P_ids : ∀ v st, P st → P (with_processedMessageIds v st).
Hypothesis P_all : ∀ v st, P st → P (with_allMessages v st).
Hypothesis P_prompt : ∀ v st, P st → P (with_aiPrompt v st).
Hypothesis P_request : ∀ mo p u st, P st → P (emit (ModelRequest mo p u) st).
Hypothesis P_process :
  ∀ st a m el ai, Q a → P st → P (fst (processAddress env st a m el ai)).

Lemma processIfNew_preserves st a m el : Q a → P st → P (processIfNew env st a m el).
Proof. intros Ha Hst. unfold processIfNew. case_bool_decide; auto. Qed.

Lemma fold_left_preserves {A} (f : State → A → State) (l : list A) (R : A → Prop) :
  (∀ s x, R x → P s → P (f s x)) → Forall R l → ∀ st, P st → P (fold_left f l st).
Proof.
  intros Hf Hl. induction Hl as [|x l Hx Hl IH]; intros st Hst; simpl; auto.
Qed.

Lemma fold_left_preserves_fst {A} (f : State * bool → A → State * bool) (l : list A)
  (R : A → Prop) :
  (∀ s x, R x → P (fst s) → P (fst (f s x))) → Forall R l →
  ∀ acc, P (fst acc) → P (fst (fold_left f l acc)).
Proof.
  intros Hf Hl. induction Hl as [|x l Hx Hl IH]; intros acc Hacc; simpl; auto.
Qed.

Lemma detectSplitAddressesWithAI_preserves st t prompt model :
  P st → P (fst (detectSplitAddressesWithAI env st t prompt model)).
Proof.
  intros Hst. unfold detectSplitAddressesWithAI. destruct (length t <? 20); cbn [fst]; auto.
Qed.

Lemma parseCompletion_wellFormed answer :
  Forall wellFormed (parseCompletion answer).
Proof.
  destruct answer as [content|]; [|constructor]. cbn [parseCompletion].
  apply Forall_forall. intros a Ha. apply list_elem_of_filter in Ha as [Ha _].
  now apply validLine_wellFormed.
Qed.

Lemma detectSplitAddressesWithAI_wellFormed st t prompt model :
  Forall wellFormed (snd (detectSplitAddressesWithAI env st t prompt model)).
Proof.
  unfold detectSplitAddressesWithAI. destruct (length t <? 20); cbn [snd];
    [constructor | apply parseCompletion_wellFormed].
Qed.

Hypothesis Q_wellFormed : ∀ a, wellFormed a → Q a.

Lemma tryFragmentPair_preserves el f1 st f2 :
  P st → P (tryFragmentPair env el f1 st f2).
Proof.
  intros Hst. unfold tryFragmentPair.
  set (st1 := if validCombined (f1 ++ f2) then _ else st).
  assert (H1 : P st1).
  { subst st1. destruct (validCombined (f1 ++ f2)) eqn:Hv; [|assumption].
    apply processIfNew_preserves; [|assumption].
    now apply Q_wellFormed, validCombined_wellFormed. }
  destruct (negb _) ; cbn [andb]; [|assumption].
  destruct (validCombined (f2 ++ f1)) eqn:Hv; [|assumption].
  apply processIfNew_preserves; [|assumption].
  now apply Q_wellFormed, validCombined_wellFormed.
Qed.

Lemma checkSequentialMessages_preserves st : P st → P (checkSequentialMessages env st).
Proof.
  intros Hst. unfold checkSequentialMessages.
  destruct (_ <? 2); [assumption|].
  destruct (nth_error _ _) as [m1|]; [|assumption].
  destruct (nth_error _ _) as [m2|]; [|assumption].
  set (st1 := fold_left _ (matchAll sequentialFragment (text m1)) st).
  assert (H1 : P st1).
  { subst st1. apply (fold_left_preserves _ _ (λ _, True)); [|now apply Forall_true|assumption].
    intros s f1 _ Hs.
    apply (fold_left_preserves _ _ (λ _, True)); [|now apply Forall_true|assumption].
    intros s' f2 _ Hs'. now apply tryFragmentPair_preserves. }
  pose proof (detectSplitAddressesWithAI_preserves st1
                (text m1 ++ lit " " ++ text m2) twoMessagePrompt (lit "gpt-4") H1) as H2.
  pose proof (detectSplitAddressesWithAI_wellFormed st1
                (text m1 ++ lit " " ++ text m2) twoMessagePrompt (lit "gpt-4")) as Hwf.
  destruct (detectSplitAddressesWithAI _ _ _ _ _) as [st2 ais]. cbn [fst snd] in *.
  apply (fold_left_preserves _ _ wellFormed); [|assumption|assumption].
  intros s a Ha Hs. apply processIfNew_preserves; auto.
Qed.

Lemma addToMessageBuffer_preserves now st t el :
  P st → P (addToMessageBuffer env now st t el).
Proof.
  intros Hst. unfold addToMessageBuffer.
  destruct (2 <=? _); [apply checkSequentialMessages_preserves|]; now apply P_buffer.
Qed.

Hypothesis Q_pump :
  ∀ a, wellFormed a → endsWith a (lit "pump") = false → Q (a ++ lit "pump").

Lemma processMatches_preserves cleaned el ms st :
  Forall wellFormed ms → P st → P (fst (processMatches env cleaned el ms st)).
Proof.
  intros Hms Hst. unfold processMatches.
  apply (fold_left_preserves_fst _ ms wellFormed); [|assumption|assumption].
  intros [s b] a Ha Hs. cbn [fst] in *.
  pose proof (P_process s a cleaned el false (Q_wellFormed a Ha) Hs) as H.
  now destruct (processAddress env s a cleaned el false).
Qed.

Lemma combineFragments_preserves cleaned el fragments suffixes st :
  P st → P (fst (combineFragments env cleaned el fragments suffixes st)).
Proof.
  intros Hst. unfold combineFragments.
  apply (fold_left_preserves_fst _ fragments (λ _, True)); [|now apply Forall_true|assumption].
  intros acc f _ Hacc.
  apply (fold_left_preserves_fst _ suffixes (λ _, True)); [|now apply Forall_true|assumption].
  intros [s b] x _ Hs. unfold tryFragmentSuffix. cbn [fst] in *.
  destruct (validCombined _) eqn:Hv; [|assumption].
  pose proof (P_process s (combineWithSuffix (Part.text f) (Part.text x)) cleaned el true
                (Q_wellFormed _ (proj1 (validCombined_wellFormed _) Hv)) Hs) as H.
  now destruct (processAddress env s _ cleaned el true).
Qed.

Lemma tryAIAddresses_preserves cleaned el ais st :
  Forall wellFormed ais → P st → P (fst (tryAIAddresses env cleaned el ais st)).
Proof.
  intros Hais. revert st.
  induction Hais as [|a ais Ha Hais IH]; intros st Hst; simpl; [assumption|].
  set (a' := if _ && _ then _ else a).
  assert (Ha' : Q a').
  { subst a'. change ["p"; "u"; "m"; "p"]%char with (lit "pump").
    destruct (includes cleaned (lit "pump")); cbn [andb]; [|auto].
    destruct (endsWith a (lit "pump")) eqn:He; cbn [negb]; auto. }
  pose proof (P_process st a' cleaned el true Ha' Hst) as H.
  destruct (processAddress env st a' cleaned el true) as [st' result]. cbn [fst] in H.
  destruct (isVerified result); auto.
Qed.

Lemma aiFallback_preserves n cleaned el st :
  P st → P (aiFallback env n cleaned el st).
Proof.
  revert st. induction n as [|n IH]; intros st Hst; simpl; [assumption|].
  pose proof (detectSplitAddressesWithAI_preserves st cleaned (aiPrompt st)
                (lit "gpt-3.5-turbo") Hst) as H1.
  pose proof (detectSplitAddressesWithAI_wellFormed st cleaned (aiPrompt st)
                (lit "gpt-3.5-turbo")) as Hwf.
  destruct (detectSplitAddressesWithAI _ _ _ _ _) as [st1 ais]. cbn [fst snd] in H1, Hwf.
  destruct ais as [|a ais]; [assumption|].
  pose proof (tryAIAddresses_preserves cleaned el (a :: ais) st1 Hwf H1) as H2.
  destruct (tryAIAddresses _ _ _ _ _) as [st2 found]. cbn [fst] in H2.
  destruct found; [assumption|]. apply IH.
  destruct (matchAll partialRun cleaned); auto.
Qed.

Lemma extractFromMessage_preserves st cleaned el :
  P st → P (extractFromMessage env st cleaned el).
Proof.
  intros Hst. unfold extractFromMessage.
  pose proof (processMatches_preserves cleaned el
                (matchAll solanaAddressRegex cleaned) st
                (matchAll_solana_wellFormed cleaned) Hst) as H1.
  destruct (processMatches _ _ _ _ _) as [st1 found]. cbn [fst] in H1.
  destruct (_ && _); [|assumption].
  set (fragments := filter _ _). set (suffixes := filter _ _).
  pose proof (combineFragments_preserves cleaned el fragments suffixes st1 H1) as H2.
  destruct (combineFragments _ _ _ _ _ _) as [st2 found']. cbn [fst] in H2.
  destruct found'; cbn [negb]; [assumption|]. now apply aiFallback_preserves.
Qed.

Lemma checkForSolanaAddresses_preserves now fresh st text el :
  P st → P (checkForSolanaAddresses env now fresh st text el).
Proof.
  intros Hst. destruct (accepts text) eqn:Hacc.
  2:{ now rewrite checkForSolanaAddresses_rejected. }
  destruct text as [t|]; [|discriminate].
  rewrite checkForSolanaAddresses_accepted by assumption. cbv zeta.
  pose proof (addToMessageBuffer_preserves now st (cleanMessageText (Some t)) el Hst) as H1.
  case_bool_decide; [now apply P_window|].
  apply extractFromMessage_preserves. auto.
Qed.

End Preservation.

(** ** The log since a given state *)

Lemma since_refl st0 (ok : Event → Prop) : since st0 ok st0.
Proof.
  unfold since. rewrite (newEvents_same st0 st0 eq_refl), app_nil_r. auto.
Qed.

Lemma since_step st0 (ok : Event → Prop) s s' new :
  since st0 ok s → events s' = events s ++ new → Forall ok new → since st0 ok s'.
Proof.
  intros [He Hok] Hs' Hnew.
  assert (N : newEvents st0 s' = newEvents st0 s ++ new).
  { apply newEvents_app. rewrite Hs', He at 1. now rewrite <- app_assoc. }
  split; rewrite N.
  - rewrite Hs', He at 1. now rewrite <- app_assoc.
  - now apply Forall_app.
Qed.

Lemma since_same st0 (ok : Event → Prop) s s' :
  since st0 ok s → events s' = events s → since st0 ok s'.
Proof.
  intros H He. apply (since_step st0 ok s s' [] H); [now rewrite app_nil_r | constructor].
Qed.

Lemma since_emit st0 (ok : Event → Prop) s e :
  since st0 ok s → ok e → since st0 ok (emit e s).
Proof. intros H He. apply (since_step st0 ok s _ [e] H); [reflexivity | now constructor]. Qed.

Lemma processAddress_extends (env : Env) st a m el ai :
  events (fst (processAddress env st a m el ai)) =
  events st ++ newEvents st (fst (processAddress env st a m el ai)).
Proof. apply g_extends, quiet_gated, processAddress_quiet. Qed.

(** what a call of [processAddress] adds to the log: its own entry, and for
    the cleaned address the three requests, the notice and the forward *)
Lemma processAddress_events (env : Env) st a m el ai :
  Forall (λ e, e = Processed a m ai ∨
               ∃ c, sanitizeAddress a = Some c ∧
                    (c ∉ foundAddresses st ∨ verificationResults st !! c = None) ∧
                    ((∃ p, e = ProviderRequest p c) ∨ e = AddressFound c m ∨
                     (e = Forwarded c ∧ autoSendToBloom st = true ∧
                      c ∉ bloomSentAddresses st)))
    (newEvents st (fst (processAddress env st a m el ai))).
Proof.
  destruct (sanitizeAddress a) as [c|] eqn:Hs.
  2:{ rewrite processAddress_none by assumption. cbn [fst].
      erewrite newEvents_app by reflexivity. constructor; [now left | constructor]. }
  assert (Hmiss : c ∉ foundAddresses st ∨ verificationResults st !! c = None →
            Forall (λ e, e = Processed a m ai ∨
               ∃ c0, Some c = Some c0 ∧
                    (c0 ∉ foundAddresses st ∨ verificationResults st !! c0 = None) ∧
                    ((∃ p, e = ProviderRequest p c0) ∨ e = AddressFound c0 m ∨
                     (e = Forwarded c0 ∧ autoSendToBloom st = true ∧
                      c0 ∉ bloomSentAddresses st)))
              (newEvents st (fst (processAddress env st a m el ai)))).
  { intros Hm.
    destruct (processAddress_miss env st a m el ai c Hs Hm)
      as (info & _ & _ & _ & _ & _ & _ & Hnew).
    rewrite Hnew. apply Forall_app. split.
    - constructor; [now left|].
      constructor; [right; exists c; eauto 6|].
      constructor; [right; exists c; eauto 6|].
      constructor; [right; exists c; eauto 6|].
      constructor; [right; exists c; eauto 6|]. constructor.
    - destruct (autoSendToBloom st) eqn:Hauto; cbn [andb]; [|constructor].
      case_bool_decide; constructor; [|constructor].
      right. exists c. eauto 8. }
  destruct (decide (c ∈ foundAddresses st)) as [Hf|Hf]; [|now apply Hmiss; left].
  destruct (verificationResults st !! c) as [v|] eqn:Hv; [|now apply Hmiss; right].
  rewrite (processAddress_hit env st a m el ai c v) by assumption. cbn [fst].
  erewrite newEvents_app by reflexivity. constructor; [now left | constructor].
Qed.

(** what a call of [processAddress] does to the registry *)
Lemma processAddress_registry (env : Env) st a m el ai :
  let st' := fst (processAddress env st a m el ai) in
  autoSendToBloom st' = autoSendToBloom st ∧
  ((foundAddresses st' = foundAddresses st ∧
    verificationResults st' = verificationResults st ∧
    bloomSentAddresses st' = bloomSentAddresses st) ∨
   (∃ c info, sanitizeAddress a = Some c ∧
      (c ∉ foundAddresses st ∨ verificationResults st !! c = None) ∧
      foundAddresses st' = foundAddresses st ∪ {[c]} ∧
      verificationResults st' = <[c := info]> (verificationResults st) ∧
      bloomSentAddresses st' =
        (if autoSendToBloom st then bloomSentAddresses st ∪ {[c]}
         else bloomSentAddresses st))).
Proof.
  cbv zeta. destruct (sanitizeAddress a) as [c|] eqn:Hs.
  2:{ rewrite processAddress_none by assumption. cbn. auto. }
  destruct (decide (c ∈ foundAddresses st)) as [Hf|Hf].
  - destruct (verificationResults st !! c) as [v|] eqn:Hv.
    + rewrite (processAddress_hit env st a m el ai c v) by assumption. cbn. auto.
    + destruct (processAddress_miss env st a m el ai c Hs (or_intror Hv))
        as (info & _ & _ & H1 & H2 & H3 & H4 & _).
      split; [exact H4|]. right. exists c, info. auto.
  - destruct (processAddress_miss env st a m el ai c Hs (or_introl Hf))
      as (info & _ & _ & H1 & H2 & H3 & H4 & _).
    split; [exact H4|]. right. exists c, info. auto.
Qed.

(** ** The registry over ingestion *)

Lemma forwards_none (l : list Event) :
  Forall (λ e, ∀ a, e ≠ Forwarded a) l → forwards l = [].
Proof.
  induction 1 as [|e l He _ IH]; [reflexivity|].
  unfold forwards in *. simpl.
  destruct e; try exact IH. now destruct (He address).
Qed.

Lemma candidates_all (R : jsstring → Prop) (l : list Event) :
  Forall (λ e, ∀ a m b, e = Processed a m b → R a) l → Forall R (candidates l).
Proof.
  induction 1 as [|e l He _ IH]; [constructor|].
  unfold candidates in *. simpl.
  destruct e; try exact IH. constructor; [eapply He; reflexivity | exact IH].
Qed.

(** X7.  Once an address is found and its verification is stored, the
    messages that follow never have it verified again and never forward it by
    themselves, whatever they hold and whether or not auto-send is on; the
    stored result stays. *)
Theorem stored_verification_reused (env : Env) (now : Z) (fresh : jsstring)
  (st : State) (text : option jsstring) (el : Element) (c : jsstring)
  (v : VerificationInfo) :
  c ∈ foundAddresses st → verificationResults st !! c = Some v →
  let st' := checkForSolanaAddresses env now fresh st text el in
  verificationResults st' !! c = Some v ∧
  (∀ p, ProviderRequest p c ∉ newEvents st st') ∧
  Forwarded c ∉ newEvents st st'.
Proof.
  intros Hf Hv st'.
  set (ok := λ e : Event, (∀ p, e ≠ ProviderRequest p c) ∧ e ≠ Forwarded c).
  set (P := λ s : State, c ∈ foundAddresses s ∧ verificationResults s !! c = Some v ∧
                         since st ok s).
  assert (HP : P st') .
  { apply (checkForSolanaAddresses_preserves env P (λ _, True)); try tauto.
    - intros mo p u s (H1 & H2 & H3). refine (conj H1 (conj H2 _)).
      apply since_emit; [assumption|]. split; [intros q|]; discriminate.
    - intros s a m el' ai _ (H1 & H2 & H3).
      destruct (processAddress_registry env s a m el' ai) as [_ Hreg].
      pose proof (processAddress_events env s a m el' ai) as Hev.
      pose proof (processAddress_extends env s a m el' ai) as Hext.
      set (s' := fst (processAddress env s a m el' ai)) in *.
      assert (Hne : ∀ c0, c0 ∉ foundAddresses s ∨ verificationResults s !! c0 = None →
                          c0 ≠ c).
      { intros c0 [Hc0|Hc0] ->; [contradiction | congruence]. }
      split; [|split].
      + destruct Hreg as [(-> & _)|(c0 & info & _ & _ & -> & _)]; [assumption|].
        apply elem_of_union. now left.
      + destruct Hreg as [(_ & -> & _)|(c0 & info & _ & Hm & _ & -> & _)]; [assumption|].
        rewrite lookup_insert_ne; [assumption | apply Hne, Hm].
      + apply (since_step st ok s s' _ H3 Hext).
        eapply Forall_impl; [exact Hev|]. cbv beta.
        intros e [->|(c0 & _ & Hm & He)]; [split; [intros q|]; discriminate|].
        pose proof (Hne c0 Hm) as Hc0.
        destruct He as [[q ->]|[->|(-> & _)]]; (split; [intros q'|]); congruence.
    - split; [|split]; try assumption; try reflexivity. apply since_refl. }
  destruct HP as (_ & Hres & _ & Hok). split; [exact Hres|].
  rewrite Forall_forall in Hok. split.
  - intros p Hin. now destruct (proj1 (Hok _ Hin) p).
  - intros Hin. now destruct (proj2 (Hok _ Hin)).
Qed.

Lemma stored_verification_reused_witness :
  let st' :=
    checkForSolanaAddresses refusingEnv 5 (lit "e") afterMarked
      (Some markedMessage) elementB in
  verificationResults st' !! sampleAddress = Some (confirmed "Jupiter Registry") ∧
  (∀ p, ProviderRequest p sampleAddress ∉ newEvents afterMarked st') ∧
  Forwarded sampleAddress ∉ newEvents afterMarked st'.
Proof.
  apply (stored_verification_reused refusingEnv 5 (lit "e") afterMarked
           (Some markedMessage) elementB sampleAddress (confirmed "Jupiter Registry")).
  - apply (bool_decide_unpack _). vm_compute. exact I.
  - vm_compute. reflexivity.
Defined.

(** X8.  With auto-send on, an address that is processed for the first time
    is forwarded as soon as its verification returns, whatever the result
    says: the result is stored and the address is sent even when no provider
    has confirmed it. *)
Theorem auto_forward_unconditional (env : Env) (st : State) (a m : jsstring)
  (el : Element) (ai : bool) (c : jsstring) :
  autoSendToBloom st = true → sanitizeAddress a = Some c →
  verificationResults st !! c = None → c ∉ bloomSentAddresses st →
  let st' := fst (processAddress env st a m el ai) in
  ∃ info,
    snd (processAddress env st a m el ai) = Some info ∧
    verificationResults st' !! c = Some info ∧
    forwards (newEvents st st') = [c] ∧
    c ∈ bloomSentAddresses st'.
Proof.
  intros Hauto Hs Hv Hsent st'.
  destruct (processAddress_miss env st a m el ai c Hs (or_intror Hv))
    as (info & H1 & _ & _ & H2 & H3 & _ & Hnew).
  fold st' in H2, H3, Hnew. exists info. split; [exact H1|]. split.
  - rewrite H2. apply lookup_insert_eq.
  - rewrite Hnew, H3, Hauto. cbn [andb].
    rewrite bool_decide_eq_true_2 by assumption. split; [reflexivity|].
    apply elem_of_union. right. now apply elem_of_singleton.
Qed.

Lemma auto_forward_unconditional_witness :
  let st := updateAutoSendState initialState true in
  let r := processAddress refusingEnv st sampleAddress markedMessage elementA false in
  ∃ info, snd r = Some info ∧ verified info = false ∧
          forwards (newEvents st (fst r)) = [sampleAddress].
Proof.
  cbv zeta.
  destruct (auto_forward_unconditional refusingEnv (updateAutoSendState initialState true)
              sampleAddress markedMessage elementA false sampleAddress)
    as (info & H1 & _ & H3 & _).
  - reflexivity.
  - vm_compute. reflexivity.
  - reflexivity.
  - apply (bool_decide_unpack _). vm_compute. exact I.
  - exists info. split; [exact H1|]. split; [|exact H3].
    assert (H : snd (processAddress refusingEnv (updateAutoSendState initialState true)
                       sampleAddress markedMessage elementA false)
                = Some (unverified "Failed verification with all APIs"))
      by (vm_compute; reflexivity).
    rewrite H in H1. now inversion H1.
Defined.

(** X9.  With auto-send off a message forwards nothing: whatever it holds
    and whatever the providers answer, the set of sent addresses is left as
    it was and the switch stays off. *)
Theorem no_forward_while_off (env : Env) (now : Z) (fresh : jsstring) (st : State)
  (text : option jsstring) (el : Element) :
  autoSendToBloom st = false →
  let st' := checkForSolanaAddresses env now fresh st text el in
  forwards (newEvents st st') = [] ∧
  bloomSentAddresses st' = bloomSentAddresses st ∧
  autoSendToBloom st' = false.
Proof.
  intros Hoff st'.
  set (ok := λ e : Event, ∀ a, e ≠ Forwarded a).
  set (P := λ s : State, autoSendToBloom s = false ∧
                         bloomSentAddresses s = bloomSentAddresses st ∧ since st ok s).
  assert (HP : P st').
  { apply (checkForSolanaAddresses_preserves env P (λ _, True)); try tauto.
    - intros mo p u s (H1 & H2 & H3). refine (conj H1 (conj H2 _)).
      apply since_emit; [assumption|]. intros a. discriminate.
    - intros s a m el' ai _ (H1 & H2 & H3).
      destruct (processAddress_registry env s a m el' ai) as [Hauto Hreg].
      pose proof (processAddress_events env s a m el' ai) as Hev.
      pose proof (processAddress_extends env s a m el' ai) as Hext.
      set (s' := fst (processAddress env s a m el' ai)) in *.
      split; [congruence|]. split.
      + destruct Hreg as [(_ & _ & ->)|(c0 & info & _ & _ & _ & _ & ->)]; [assumption|].
        now rewrite H1.
      + apply (since_step st ok s s' _ H3 Hext).
        eapply Forall_impl; [exact Hev|]. cbv beta.
        intros e [->|(c0 & _ & _ & He)] b; [discriminate|].
        destruct He as [[q ->]|[->|(-> & Hon & _)]]; try discriminate. congruence.
    - split; [|split]; try assumption; try reflexivity. apply since_refl. }
  destruct HP as (H1 & H2 & _ & Hok). split; [now apply forwards_none | auto].
Qed.

Lemma no_forward_while_off_witness :
  forwards
    (newEvents initialState
       (checkForSolanaAddresses registryEnv 0 (lit "e") initialState
          (Some markedMessage) elementA)) = [].
Proof.
  apply (no_forward_while_off registryEnv 0 (lit "e") initialState
           (Some markedMessage) elementA).
  reflexivity.
Defined.

(** ** The registry over runs *)

Section Registry.

Variable env : Env.

Lemma processAddress_registryOk st a m el ai :
  registryOk st → registryOk (fst (processAddress env st a m el ai)).
Proof.
  intros (F & S & D & E).
  destruct (processAddress_registry env st a m el ai) as [_ Hreg].
  pose proof (processAddress_events env st a m el ai) as Hev.
  pose proof (processAddress_extends env st a m el ai) as Hext.
  set (st' := fst (processAddress env st a m el ai)) in *.
  assert (E' : Forall (λ e, ∀ x, subject e = Some x → wellFormed x) (events st')).
  { rewrite Hext. apply Forall_app. split; [exact E|].
    eapply Forall_impl; [exact Hev|]. cbv beta.
    intros e [->|(c & Hc & _ & He)] x Hx; [discriminate|].
    apply sanitizeAddress_cleaned in Hc.
    destruct He as [[p ->]|[->|(-> & _)]]; simpl in Hx; congruence. }
  destruct Hreg as [(H1 & H2 & H3)|(c & info & Hc & _ & H1 & H2 & H3)].
  - unfold registryOk. rewrite H1, H2, H3. auto.
  - apply sanitizeAddress_cleaned in Hc.
    unfold registryOk. rewrite H1, H2, H3. split; [|split; [|split]].
    + intros x Hx. apply elem_of_union in Hx as [Hx|Hx]; [auto|].
      apply elem_of_singleton in Hx. now subst x.
    + intros x Hx. destruct (autoSendToBloom st); [|auto].
      apply elem_of_union in Hx as [Hx|Hx]; [auto|].
      apply elem_of_singleton in Hx. now subst x.
    + rewrite dom_insert_L. intros x Hx. apply elem_of_union.
      apply elem_of_union in Hx as [Hx|Hx]; [now right | left; now apply D].
    + exact E'.
Qed.

Lemma checkForSolanaAddresses_registryOk now fresh st text el :
  registryOk st → registryOk (checkForSolanaAddresses env now fresh st text el).
Proof.
  apply (checkForSolanaAddresses_preserves env registryOk (λ _, True));
    try (intros v s H; exact H); try (intros; exact I).
  - intros mo p u s (F & S & D & E). refine (conj F (conj S (conj D _))).
    cbn [events emit]. apply Forall_app. split; [exact E|].
    constructor; [intros x Hx; discriminate | constructor].
  - intros s a m el' ai _. apply processAddress_registryOk.
Qed.

Lemma sendToBloomBot_registryOk st a :
  wellFormed a → registryOk st → registryOk (sendToBloomBot st a).
Proof.
  intros Ha (F & S & D & E). unfold sendToBloomBot.
  case_bool_decide; [exact (conj F (conj S (conj D E)))|].
  refine (conj F (conj _ (conj D _))).
  - cbn [bloomSentAddresses emit with_bloomSentAddresses]. intros x Hx.
    apply elem_of_union in Hx as [Hx|Hx]; [auto|].
    apply elem_of_singleton in Hx. now subst x.
  - cbn [events emit with_bloomSentAddresses]. apply Forall_app. split; [exact E|].
    constructor; [|constructor]. intros x Hx. simpl in Hx. congruence.
Qed.

Lemma runScript_registryOk actions st :
  Forall clickWellFormed actions → registryOk st → registryOk (runScript env actions st).
Proof.
  intros Hacts. revert st.
  induction Hacts as [|a actions Ha _ IH]; intros st Hst; simpl; [assumption|].
  apply IH. destruct a as [now fresh text el|address|enabled]; simpl.
  - now apply checkForSolanaAddresses_registryOk.
  - now apply sendToBloomBot_registryOk.
  - exact Hst.
Qed.

(** the direct matches *)

Lemma processAddress_keeps_recorded x st a m el ai :
  recorded x st → recorded x (fst (processAddress env st a m el ai)).
Proof.
  intros [Hf Hr].
  destruct (processAddress_registry env st a m el ai) as [_ Hreg].
  set (st' := fst (processAddress env st a m el ai)) in *.
  destruct Hreg as [(H1 & H2 & _)|(c & info & _ & _ & H1 & H2 & _)];
    unfold recorded; rewrite H1, H2; [auto|].
  split; [apply elem_of_union; now left|].
  destruct (decide (c = x)) as [->|Hne].
  - rewrite lookup_insert_eq. eauto.
  - now rewrite lookup_insert_ne.
Qed.

Lemma sanitizeAddress_direct (t m : jsstring) :
  m ∈ matchAll solanaAddressRegex t → includes m (lit "Verifying") = false →
  sanitizeAddress m = Some m.
Proof.
  intros Hm Hver. apply bounded_run_match in Hm as (Hlo & Hhi & Hall & _).
  simpl in Hhi. apply Nat.leb_le in Hhi.
  rewrite (sanitizeAddress_on_plain m (conj Hall Hver)).
  destruct (Nat.leb_spec 32 (length m)); [|lia]. rewrite take_ge by lia. reflexivity.
Qed.

Lemma processAddress_records st a m el ai :
  sanitizeAddress a = Some a → recorded a (fst (processAddress env st a m el ai)).
Proof.
  intros Hs.
  destruct (decide (a ∈ foundAddresses st)) as [Hf|Hf].
  - destruct (verificationResults st !! a) as [v|] eqn:Hv.
    + rewrite (processAddress_hit env st a m el ai a v) by assumption.
      split; [exact Hf|]. cbn [fst verificationResults emit]. rewrite Hv. eauto.
    + destruct (processAddress_miss env st a m el ai a Hs (or_intror Hv))
        as (info & _ & _ & H1 & H2 & _).
      unfold recorded. rewrite H1, H2, lookup_insert_eq.
      split; [apply elem_of_union; now left | eauto].
  - destruct (processAddress_miss env st a m el ai a Hs (or_introl Hf))
      as (info & _ & _ & H1 & H2 & _).
    unfold recorded. rewrite H1, H2, lookup_insert_eq.
    split; [apply elem_of_union; right; now apply elem_of_singleton | eauto].
Qed.

Lemma processMatches_records cleaned el m ms :
  sanitizeAddress m = Some m →
  ∀ acc, recorded m (fst acc) ∨ m ∈ ms →
  recorded m
    (fst (fold_left
            (λ '(st', foundVerifiedAddress) address,
               let (st'', result) := processAddress env st' address cleaned el false in
               (st'', foundVerifiedAddress || isVerified result))
            ms acc)).
Proof.
  intros Hs. induction ms as [|x ms IH]; intros [s b] H; simpl.
  - destruct H as [H|H]; [exact H | inversion H].
  - apply IH.
    pose proof (processAddress_keeps_recorded m s x cleaned el false) as Hk.
    pose proof (processAddress_records s m cleaned el false Hs) as Hr.
    destruct H as [H|H].
    + left. specialize (Hk H).
      now destruct (processAddress env s x cleaned el false).
    + apply elem_of_cons in H as [<-|H]; [|now right].
      left. now destruct (processAddress env s m cleaned el false).
Qed.

Lemma extractFromMessage_records st cleaned el m :
  m ∈ matchAll solanaAddressRegex cleaned → includes m (lit "Verifying") = false →
  recorded m (extractFromMessage env st cleaned el).
Proof.
  intros Hm Hver. unfold extractFromMessage.
  pose proof (processMatches_records cleaned el m (matchAll solanaAddressRegex cleaned)
                (sanitizeAddress_direct cleaned m Hm Hver) (st, false) (or_intror Hm)) as H1.
  fold (processMatches env cleaned el (matchAll solanaAddressRegex cleaned) st) in H1.
  destruct (processMatches _ _ _ _ _) as [st1 found]. cbn [fst] in H1.
  destruct (_ && _); [|assumption].
  set (fragments := filter _ _). set (suffixes := filter _ _).
  assert (Hkeep : ∀ s a t e ai, True → recorded m s →
                                recorded m (fst (processAddress env s a t e ai))).
  { intros s a t e ai _. apply processAddress_keeps_recorded. }
  pose proof (combineFragments_preserves env (recorded m) (λ _, True) Hkeep
                (λ _ _, I) cleaned el fragments suffixes st1 H1) as H2.
  destruct (combineFragments _ _ _ _ _ _) as [st2 found']. cbn [fst] in H2.
  destruct found'; cbn [negb]; [assumption|].
  apply (aiFallback_preserves env (recorded m) (λ _, True)); auto.
Qed.

End Registry.

(** X10.  Over any run of the script in which the send buttons that are
    clicked carry well-formed addresses (the script makes its buttons for
    sanitized addresses), every address that is found, marked as sent,
    forwarded or asked of a provider is well-formed, and a verification
    result is stored for found addresses only. *)
Theorem registry_well_formed (env : Env) (actions : list Action) :
  Forall clickWellFormed actions →
  let st := runScript env actions initialState in
  (∀ a, a ∈ foundAddresses st ∨ a ∈ bloomSentAddresses st ∨
        a ∈ forwards (events st) ∨ (∃ p, (p, a) ∈ providerRequests (events st)) →
        wellFormed a) ∧
  dom (verificationResults st) ⊆ foundAddresses st.
Proof.
  intros Hacts st.
  assert (H0 : registryOk initialState).
  { refine (conj _ (conj _ (conj _ _)));
      [intros a Ha; now apply elem_of_empty in Ha
      |intros a Ha; now apply elem_of_empty in Ha | | constructor].
    cbn [verificationResults initialState]. rewrite dom_empty_L.
    intros a Ha. now apply elem_of_empty in Ha. }
  destruct (runScript_registryOk env actions initialState Hacts H0) as (F & S & D & E).
  fold st in F, S, D, E. split; [|exact D].
  rewrite Forall_forall in E.
  intros a [H|[H|[H|[p H]]]]; [auto | auto | |].
  - apply list_elem_of_omap in H as (e & He & Hs). apply (E e He).
    destruct e; simpl in *; congruence.
  - apply list_elem_of_omap in H as (e & He & Hs). apply (E e He).
    destruct e; simpl in *; congruence.
Qed.

Lemma registry_well_formed_witness :
  let st := runScript registryEnv (Click sampleAddress :: endToEnd) initialState in
  (∀ a, a ∈ foundAddresses st ∨ a ∈ bloomSentAddresses st ∨
        a ∈ forwards (events st) ∨ (∃ p, (p, a) ∈ providerRequests (events st)) →
        wellFormed a) ∧
  dom (verificationResults st) ⊆ foundAddresses st.
Proof.
  apply (registry_well_formed registryEnv (Click sampleAddress :: endToEnd)).
  repeat constructor; apply (bool_decide_unpack _); vm_compute; exact I.
Defined.

(** X11.  Every string a message makes the script hand to [processAddress]
    is a well-formed address, or a well-formed address that does not end in
    pump with pump appended to it (the one candidate that is not checked
    before the call: an address of the fallback model in a message that
    contains pump). *)
Theorem candidates_shape (env : Env) (now : Z) (fresh : jsstring) (st : State)
  (text : option jsstring) (el : Element) :
  Forall candidateShape
    (candidates (newEvents st (checkForSolanaAddresses env now fresh st text el))).
Proof.
  set (ok := λ e : Event, ∀ a m b, e = Processed a m b → candidateShape a).
  assert (HP : since st ok (checkForSolanaAddresses env now fresh st text el)).
  { apply (checkForSolanaAddresses_preserves env (since st ok) candidateShape).
    - intros v s H. now apply (since_same st ok s).
    - intros v s H. now apply (since_same st ok s).
    - intros v s H. now apply (since_same st ok s).
    - intros v s H. now apply (since_same st ok s).
    - intros v s H. now apply (since_same st ok s).
    - intros mo p u s H. apply since_emit; [assumption|]. intros a m b. discriminate.
    - intros s a m el' ai Ha H.
      apply (since_step st ok s _ _ H (processAddress_extends env s a m el' ai)).
      eapply Forall_impl; [apply processAddress_events|]. cbv beta.
      intros e [->|(c & _ & _ & He)] a0 m0 b0 Heq.
      + now inversion Heq; subst.
      + destruct He as [[q ->]|[->|(-> & _)]]; discriminate.
    - intros a Ha. now left.
    - intros a Ha He. right. now exists a.
    - apply since_refl. }
  destruct HP as [_ Hok]. now apply candidates_all.
Qed.

(** X12.  An address written out in a message is recorded: when a message
    passes the guards and its id is new, every match of the address pattern
    in the cleaned text that does not contain the badge text is in
    [foundAddresses] afterwards, with a verification result stored for
    it. *)
Theorem direct_address_recorded (env : Env) (now : Z) (fresh : jsstring) (st : State)
  (t : jsstring) (el : Element) (m : jsstring) :
  accepts (Some t) = true →
  getMessageId el fresh ∉ processedMessageIds st →
  m ∈ matchAll solanaAddressRegex (cleanMessageText (Some t)) →
  includes m (lit "Verifying") = false →
  let st' := checkForSolanaAddresses env now fresh st (Some t) el in
  m ∈ foundAddresses st' ∧ is_Some (verificationResults st' !! m).
Proof.
  intros Hacc Hid Hm Hver st'. subst st'.
  rewrite checkForSolanaAddresses_accepted by assumption. cbv zeta.
  destruct (addToMessageBuffer_stores env now st (cleanMessageText (Some t)) el)
    as (_ & I & _). cbv zeta in I.
  rewrite bool_decide_eq_false_2.
  - now apply extractFromMessage_records.
  - cbn [processedMessageIds with_messageWindow]. now rewrite I.
Qed.

Lemma direct_address_recorded_witness :
  let st' :=
    checkForSolanaAddresses refusingEnv 0 (lit "e") initialState (Some markedMessage)
      elementA in
  sampleAddress ∈ foundAddresses st' ∧ is_Some (verificationResults st' !! sampleAddress).
Proof.
  apply (direct_address_recorded refusingEnv 0 (lit "e") initialState markedMessage
           elementA sampleAddress).
  - vm_compute. reflexivity.
  - apply (bool_decide_unpack _). vm_compute. exact I.
  - apply (bool_decide_unpack _). vm_compute. exact I.
  - vm_compute. reflexivity.
Defined.

(** ** The time buffer and the message history *)

Lemma evictOld_suffix (now : Z) (l : list Message) : evictOld now l `suffix_of` l.
Proof.
  induction l as [|m l IH]; simpl; [reflexivity|].
  destruct (_ >? _)%Z; [now apply suffix_cons_r | reflexivity].
Qed.

Lemma steady_suffix (b l : list Message) : b `suffix_of` l → steady l → steady b.
Proof. intros [k ->]. apply StronglySorted_app_1_r. Qed.

Lemma evictOld_recent (now : Z) (l : list Message) :
  steady l → Forall (λ e, (now - timestamp e <= BUFFER_TIME_WINDOW_MS)%Z) (evictOld now l).
Proof.
  induction 1 as [|m l Hl IH Hm]; simpl; [constructor|].
  destruct (_ >? _)%Z eqn:Hold; [exact IH|].
  rewrite Z.gtb_ltb in Hold. apply Z.ltb_ge in Hold.
  constructor; [exact Hold|].
  eapply Forall_impl; [exact Hm|]. cbv beta. intros e He. lia.
Qed.

Lemma pushBuffer_suffix (now : Z) (m : Message) (b : list Message) :
  pushBuffer now m b `suffix_of` b ++ [m].
Proof.
  unfold pushBuffer. etrans; [apply evictOld_suffix|].
  destruct (_ <? _); [|reflexivity].
  destruct (b ++ [m]); [reflexivity | now apply suffix_cons_r].
Qed.

Lemma pushBuffer_length (now : Z) (m : Message) (b : list Message) :
  length b <= 20 → length (pushBuffer now m b) <= 20.
Proof.
  intros Hb. unfold pushBuffer, MAX_BUFFER_SIZE.
  etrans; [apply suffix_length, evictOld_suffix|].
  destruct (Nat.ltb_spec 20 (length (b ++ [m]))) as [Hlt|Hle]; [|exact Hle].
  rewrite length_app in Hlt. simpl in Hlt.
  destruct b as [|x b]; simpl in *; [lia|]. rewrite length_app. simpl. lia.
Qed.

Lemma pushBuffer_recent (m : Message) (b : list Message) :
  steady (b ++ [m]) →
  Forall (λ e, (timestamp e <= timestamp m <= timestamp e + BUFFER_TIME_WINDOW_MS)%Z)
    (pushBuffer (timestamp m) m b).
Proof.
  intros Hs. apply Forall_forall. intros e He. split.
  - assert (Hin : e ∈ b ++ [m]).
    { destruct (pushBuffer_suffix (timestamp m) m b) as [k Hk]. rewrite Hk.
      apply elem_of_app. now right. }
    apply elem_of_app in Hin as [Hin|Hin].
    + apply (StronglySorted_app_1_elem_of _ _ _ _ _ Hs Hin). now apply list_elem_of_singleton.
    + apply list_elem_of_singleton in Hin. subst e. lia.
  - revert e He. apply Forall_forall.
    unfold pushBuffer.
    set (b2 := if _ <? _ then _ else _).
    assert (H2 : b2 `suffix_of` b ++ [m]).
    { subst b2. destruct (_ <? _); [|reflexivity].
      destruct (b ++ [m]); [reflexivity | now apply suffix_cons_r]. }
    eapply Forall_impl; [apply evictOld_recent, (steady_suffix _ _ H2 Hs)|].
    cbv beta. intros e He. lia.
Qed.

(** the time buffer after the messages [inserted] have been pushed on an
    empty buffer, each at its own time stamp *)
Lemma buffer_fold (inserted : list Message) :
  let buffer := fold_left (λ b m, pushBuffer (timestamp m) m b) inserted [] in
  buffer `suffix_of` inserted ∧ length buffer <= 20 ∧ last buffer = last inserted ∧
  (steady inserted →
   ∀ m m', m ∈ buffer → m' ∈ buffer →
           (timestamp m' - timestamp m <= BUFFER_TIME_WINDOW_MS)%Z).
Proof.
  induction inserted as [|x l IH] using rev_ind; cbv zeta.
  { simpl. repeat split; try reflexivity; try lia. intros _ m m' Hm. inversion Hm. }
  rewrite fold_left_app. cbn [fold_left].
  cbv zeta in IH. destruct IH as (Hsuf & Hlen & _ & _).
  set (b := fold_left _ l []) in *.
  assert (Hsuf' : pushBuffer (timestamp x) x b `suffix_of` l ++ [x]).
  { etrans; [apply pushBuffer_suffix | now apply suffix_app]. }
  split; [exact Hsuf'|]. split; [now apply pushBuffer_length|]. split.
  - rewrite pushBuffer_last by reflexivity. now rewrite last_snoc.
  - intros Hs m m' Hm Hm'.
    assert (Hb : steady (b ++ [x])).
    { eapply steady_suffix; [|exact Hs]. now apply suffix_app. }
    pose proof (pushBuffer_recent x b Hb) as Hr. rewrite Forall_forall in Hr.
    pose proof (Hr m Hm). pose proof (Hr m' Hm'). lia.
Qed.

Section Stores.

Variable env : Env.

Lemma checkForSolanaAddresses_buffer now fresh st text el :
  RECENT_MESSAGES_BUFFER (checkForSolanaAddresses env now fresh st text el) =
  match windowEntry (Ingest now fresh text el) with
  | Some m => pushBuffer (timestamp m) m (RECENT_MESSAGES_BUFFER st)
  | None => RECENT_MESSAGES_BUFFER st
  end.
Proof.
  cbn [windowEntry]. destruct (accepts text) eqn:Hacc.
  2:{ now rewrite checkForSolanaAddresses_rejected. }
  destruct text as [t|]; [|discriminate].
  rewrite checkForSolanaAddresses_accepted by assumption. cbv zeta.
  destruct (addToMessageBuffer_stores env now st (cleanMessageText (Some t)) el)
    as (_ & _ & B). cbv zeta in B.
  case_bool_decide.
  - cbn [RECENT_MESSAGES_BUFFER with_messageWindow timestamp]. exact B.
  - rewrite (f_buffer _ _ (extractFromMessage_framed env _ _ _)).
    cbn [RECENT_MESSAGES_BUFFER with_messageWindow with_allMessages
         with_processedMessageIds timestamp]. exact B.
Qed.

Lemma perform_buffer st a :
  RECENT_MESSAGES_BUFFER (perform env st a) =
  match windowEntry a with
  | Some m => pushBuffer (timestamp m) m (RECENT_MESSAGES_BUFFER st)
  | None => RECENT_MESSAGES_BUFFER st
  end.
Proof.
  destruct a as [now fresh text el|address|enabled].
  - apply checkForSolanaAddresses_buffer.
  - cbn [perform windowEntry].
    apply (f_buffer _ _ (q_framed _ _ (sendToBloomBot_quiet st address))).
  - reflexivity.
Qed.

Lemma runScript_buffer actions st :
  RECENT_MESSAGES_BUFFER (runScript env actions st) =
  fold_left (λ b m, pushBuffer (timestamp m) m b) (omap windowEntry actions)
    (RECENT_MESSAGES_BUFFER st).
Proof.
  revert st. induction actions as [|a actions IH]; intros st; simpl; [reflexivity|].
  rewrite IH, perform_buffer. now destruct (windowEntry a).
Qed.

Lemma checkForSolanaAddresses_history now fresh st text el :
  let st' := checkForSolanaAddresses env now fresh st text el in
  let id := getMessageId el fresh in
  (processedMessageIds st' = processedMessageIds st ∧ allMessages st' = allMessages st) ∨
  ((id ∉ processedMessageIds st) ∧
   processedMessageIds st' = processedMessageIds st ∪ {[id]} ∧
   allMessages st' =
     pushAllMessages {| infoId := id; infoText := cleanMessageText text |}
       (allMessages st)).
Proof.
  cbv zeta. destruct (accepts text) eqn:Hacc.
  2:{ rewrite checkForSolanaAddresses_rejected by assumption. now left. }
  destruct text as [t|]; [|discriminate].
  rewrite checkForSolanaAddresses_accepted by assumption. cbv zeta.
  destruct (addToMessageBuffer_stores env now st (cleanMessageText (Some t)) el)
    as (_ & I & _). cbv zeta in I.
  pose proof (f_all _ _ (q_framed _ _
                (addToMessageBuffer_quiet env now st (cleanMessageText (Some t)) el))) as A.
  cbn [allMessages with_buffer] in A.
  case_bool_decide as Hid.
  - left. cbn [processedMessageIds allMessages with_messageWindow]. auto.
  - right. cbn [processedMessageIds with_messageWindow] in Hid. rewrite I in Hid.
    split; [exact Hid|].
    rewrite (f_ids _ _ (extractFromMessage_framed env _ _ _)).
    rewrite (f_all _ _ (extractFromMessage_framed env _ _ _)).
    cbn [processedMessageIds allMessages with_messageWindow with_allMessages
         with_processedMessageIds].
    now rewrite I, A.
Qed.

End Stores.

Lemma pushAllMessages_sublist (info : MessageInfo) (l : list MessageInfo) :
  pushAllMessages info l `sublist_of` info :: l ∧
  (length l <= 50 → length (pushAllMessages info l) <= 50).
Proof.
  unfold pushAllMessages.
  destruct (Nat.ltb_spec 50 (length (info :: l))) as [Hlt|Hle].
  - rewrite removelast_firstn_len. split; [apply sublist_take|].
    intros Hl. rewrite length_take. simpl length in *. lia.
  - split; [reflexivity | intros _; exact Hle].
Qed.

(** X13.  Over any run the time buffer holds the newest accepted messages,
    oldest first, at most 20 of them, ending with the newest; and when the
    clock readings of the accepted messages do not decrease, any two
    messages in the buffer are at most 10 seconds apart (the two readings of
    the clock in one call are taken as one). *)
Theorem time_buffer_invariant (env : Env) (actions : list Action) :
  let inserted := omap windowEntry actions in
  let buffer := RECENT_MESSAGES_BUFFER (runScript env actions initialState) in
  buffer `suffix_of` inserted ∧ length buffer <= 20 ∧ last buffer = last inserted ∧
  (steady inserted →
   ∀ m m', m ∈ buffer → m' ∈ buffer → (timestamp m' - timestamp m <= 10000)%Z).
Proof.
  intros inserted buffer. subst buffer. rewrite runScript_buffer.
  cbn [RECENT_MESSAGES_BUFFER initialState]. fold inserted.
  exact (buffer_fold inserted).
Qed.

Lemma time_buffer_invariant_witness :
  let buffer := RECENT_MESSAGES_BUFFER (runScript refusingEnv spacedMessages initialState) in
  map timestamp buffer = [24000%Z] ∧
  ∀ m m', m ∈ buffer → m' ∈ buffer → (timestamp m' - timestamp m <= 10000)%Z.
Proof.
  split; [vm_compute; reflexivity|].
  apply (proj2 (proj2 (proj2 (time_buffer_invariant refusingEnv spacedMessages)))).
  unfold steady. vm_compute. repeat constructor; discriminate.
Defined.

(** X14.  Over any run of the script the message history lists at most 50
    messages, no message id twice, and only ids that are marked as
    processed. *)
Theorem message_history_invariant (env : Env) (actions : list Action) :
  let st := runScript env actions initialState in
  length (allMessages st) <= 50 ∧
  NoDup (map infoId (allMessages st)) ∧
  ∀ i, i ∈ allMessages st → infoId i ∈ processedMessageIds st.
Proof.
  cbv zeta.
  assert (H : ∀ st,
            length (allMessages st) <= 50 ∧ NoDup (map infoId (allMessages st)) ∧
            (∀ i, i ∈ allMessages st → infoId i ∈ processedMessageIds st) →
            let st' := runScript env actions st in
            length (allMessages st') <= 50 ∧ NoDup (map infoId (allMessages st')) ∧
            (∀ i, i ∈ allMessages st' → infoId i ∈ processedMessageIds st')).
  { induction actions as [|a actions IH]; intros st Hst; [exact Hst|].
    simpl. apply IH. destruct Hst as (L & N & M).
    destruct a as [now fresh text el|address|enabled]; cbn [perform].
    - destruct (checkForSolanaAddresses_history env now fresh st text el)
        as [[-> ->]|(Hid & -> & ->)]; [auto|].
      set (info := {| infoId := _; infoText := _ |}).
      destruct (pushAllMessages_sublist info (allMessages st)) as [Hsub Hlen].
      assert (N' : NoDup (map infoId (info :: allMessages st))).
      { simpl. constructor; [|exact N]. intros Hin.
        apply list_elem_of_fmap in Hin as (i & Hi & Hin). apply Hid.
        rewrite Hi. now apply M. }
      split; [auto|]. split.
      + eapply sublist_NoDup; [exact N'|]. now apply (fmap_sublist infoId).
      + intros i Hi. apply (λ H, elem_of_sublist _ _ _ H Hsub) in Hi.
        apply elem_of_union. apply elem_of_cons in Hi as [->|Hi]; [right|left; auto].
        now apply elem_of_singleton.
    - pose proof (q_framed _ _ (sendToBloomBot_quiet st address)) as F.
      rewrite (f_all _ _ F), (f_ids _ _ F). auto.
    - auto. }
  apply H. cbn [allMessages processedMessageIds initialState].
  split; [simpl; lia|]. split; [constructor|]. intros i Hi. inversion Hi.
Qed.

(** ** The join of a fragment with a suffix, and short messages *)

(** X15.  The join of a fragment with a suffix always starts with the
    fragment and ends with the whole suffix; it drops at most the three
    characters of the suffix that the fragment already ends with. *)
Theorem combineWithSuffix_shape (fragmentText suffixText : jsstring) :
  let combined := combineWithSuffix fragmentText suffixText in
  fragmentText `prefix_of` combined ∧ suffixText `suffix_of` combined ∧
  length fragmentText + length suffixText - 3 <= length combined
    <= length fragmentText + length suffixText.
Proof.
  cbv zeta. unfold combineWithSuffix.
  destruct (endsWith fragmentText (take 3 suffixText)) eqn:He.
  - apply endsWith_app in He as [a Ha].
    split; [now apply prefix_app_r|]. split.
    + exists a. rewrite Ha at 1. now rewrite <- app_assoc, take_drop.
    + rewrite length_app, length_drop. lia.
  - split; [now apply prefix_app_r|]. split.
    + now apply suffix_app_r.
    + rewrite length_app. lia.
Qed.

Section Short.

Variable env : Env.

Lemma aiFallback_short (n : nat) (cleaned : jsstring) (el : Element) (st : State) :
  length cleaned < 20 → aiFallback env n cleaned el st = st.
Proof.
  intros Hlen. destruct n as [|n]; [reflexivity|].
  cbn [aiFallback]. unfold detectSplitAddressesWithAI.
  destruct (Nat.ltb_spec (length cleaned) 20); [reflexivity | lia].
Qed.

Lemma extractFromMessage_short (st : State) (cleaned : jsstring) (el : Element) :
  length cleaned < 20 → quiet st (extractFromMessage env st cleaned el).
Proof.
  intros Hlen. unfold extractFromMessage.
  pose proof (processMatches_quiet env cleaned el
                (matchAll solanaAddressRegex cleaned) st) as H1.
  destruct (processMatches _ _ _ _ _) as [st1 found]. cbn [fst] in H1.
  destruct (_ && _); [|exact H1].
  set (fragments := filter _ _). set (suffixes := filter _ _).
  pose proof (combineFragments_quiet env cleaned el fragments suffixes st1) as H2.
  destruct (combineFragments _ _ _ _ _ _) as [st2 found']. cbn [fst] in H2.
  pose proof (quiet_trans _ _ _ H1 H2) as H12.
  destruct found'; cbn [negb]; [exact H12|].
  now rewrite aiFallback_short.
Qed.

Lemma checkForSolanaAddresses_short now fresh st text el :
  length (cleanMessageText text) < 20 →
  escalates (cleanMessageText text) 0 st
    (checkForSolanaAddresses env now fresh st text el).
Proof.
  intros Hlen. set (cleanedText := cleanMessageText text) in *.
  destruct (accepts text) eqn:Hacc.
  2:{ rewrite checkForSolanaAddresses_rejected by assumption.
      apply quiet_escalates, quiet_refl. }
  destruct text as [t|]; [|discriminate].
  rewrite checkForSolanaAddresses_accepted by assumption. cbv zeta.
  fold cleanedText.
  destruct (addToMessageBuffer_quiet env now st cleanedText el) as [[G1 _ _ _ _ _] P S].
  set (st1 := addToMessageBuffer env now st cleanedText el) in *.
  assert (E1 : events st1 = events st ++ newEvents st st1) by exact (g_extends _ _ G1).
  assert (S1 : fallbackPrompts (newEvents st st1) = []) by exact S.
  assert (P1 : aiPrompt st1 = aiPrompt st) by exact P.
  clear G1 P S.
  set (st2 := with_messageWindow _ st1).
  case_bool_decide.
  - exists 0, 0. change (newEvents st st2) with (newEvents st st1).
    rewrite S1. cbn [seq map aiPrompt with_messageWindow].
    rewrite promptAfter_0.
    split; [left; split; reflexivity | split; [reflexivity | exact P1]].
  - set (st4 := with_allMessages _ _).
    apply (escalates_after_calm cleanedText 0 st st4 _ (newEvents st st1)).
    + exact E1.
    + exact S1.
    + exact P1.
    + apply f_gated, extractFromMessage_framed.
    + apply quiet_escalates. now apply extractFromMessage_short.
Qed.

End Short.

(** X16.  A message whose cleaned text has fewer than 20 characters never
    reaches the fallback model: no request is made to it and the prompt of
    the process is left as it was, whatever fragments the message holds. *)
Theorem short_message_skips_fallback (env : Env) (now : Z) (fresh : jsstring)
  (st : State) (text : option jsstring) (el : Element) :
  length (cleanMessageText text) < 20 →
  let st' := checkForSolanaAddresses env now fresh st text el in
  fallbackPrompts (newEvents st st') = [] ∧ aiPrompt st' = aiPrompt st.
Proof.
  intros Hlen st'.
  destruct (checkForSolanaAddresses_short env now fresh st text el Hlen)
    as (c & k & Hk & Hreq & Hp).
  fold st' in Hreq, Hp.
  assert (c = 0 ∧ k = 0) as [-> ->] by (unfold keeps in Hk; lia).
  rewrite promptAfter_0 in Hp. auto.
Qed.

Lemma short_message_skips_fallback_witness :
  let st' :=
    checkForSolanaAddresses stubbornEnv 0 (lit "s") initialState
      (Some (lit "CA: 4k3Dyjzv pump")) elementA in
  fallbackPrompts (newEvents initialState st') = [] ∧ aiPrompt st' = aiPrompt initialState.
Proof.
  apply (short_message_skips_fallback stubbornEnv 0 (lit "s") initialState
           (Some (lit "CA: 4k3Dyjzv pump")) elementA).
  vm_compute. lia.
Defined.

(** ** The scan of the sliding window *)

Lemma modelRequests_none (l : list Event) :
  Forall (λ e, ∀ mo p u, e ≠ ModelRequest mo p u) l → modelRequests l = [].
Proof.
  induction 1 as [|e l He _ IH]; [reflexivity|].
  unfold modelRequests in *. simpl.
  destruct e; try exact IH. now destruct (He model systemPrompt userContent).
Qed.

Section WindowCheck.

Variable env : Env.

Lemma processIfNew_calm st0 st a m el :
  wellFormed a → since st0 calm st → since st0 calm (processIfNew env st a m el).
Proof.
  intros Ha H. unfold processIfNew. case_bool_decide; [exact H|].
  apply (since_step st0 calm st _ _ H (processAddress_extends env st a m el true)).
  eapply Forall_impl; [apply processAddress_events|]. cbv beta.
  intros e [->|(c & _ & _ & He)].
  - split; [intros a0 m0 b0 Heq; now inversion Heq; subst | discriminate].
  - destruct He as [[q ->]|[->|(-> & _)]]; (split; [|discriminate]);
      intros a0 m0 b0; discriminate.
Qed.

Lemma fold_processIfNew_calm st0 (t : jsstring) el (l : list jsstring) :
  Forall wellFormed l → ∀ st, since st0 calm st →
  since st0 calm (fold_left (λ st' address, processIfNew env st' address t el) l st).
Proof.
  induction 1 as [|a l Ha _ IH]; intros st H; simpl; [exact H|].
  apply IH. now apply processIfNew_calm.
Qed.

Lemma checkMessageWindowForAddresses_calm st :
  let st' := checkMessageWindowForAddresses env st in
  since st calm st' ∨
  ∃ mo p u, since (emit (ModelRequest mo p u) st) calm st'.
Proof.
  cbv zeta. unfold checkMessageWindowForAddresses.
  destruct (messageWindow st) as [|m0 [|m1 w]]; try (left; apply since_refl).
  destruct (_ && _ && _ && _) eqn:Hdirect.
  - left. apply processIfNew_calm; [|apply since_refl].
    apply andb_true_iff in Hdirect as [Hd Htest].
    apply andb_true_iff in Hd as [_ Hlen].
    apply validCombined_wellFormed. unfold validCombined. now rewrite Hlen, Htest.
  - right. eexists _, _, _. apply fold_processIfNew_calm.
    + apply parseCompletion_wellFormed.
    + apply since_refl.
Qed.

End WindowCheck.

(** X17.  The scan of the sliding window hands only well-formed addresses to
    [processAddress], and it asks the completion service at most once. *)
Theorem window_check_candidates (env : Env) (st : State) :
  let new := newEvents st (checkMessageWindowForAddresses env st) in
  Forall wellFormed (candidates new) ∧ length (modelRequests new) <= 1.
Proof.
  cbv zeta.
  destruct (checkMessageWindowForAddresses_calm env st)
    as [[_ H]|(mo & p & u & He & H)].
  - split.
    + apply candidates_all. eapply Forall_impl; [exact H|]. now intros e [H1 _].
    + rewrite modelRequests_none; [simpl; lia|].
      eapply Forall_impl; [exact H|]. now intros e [_ H2].
  - set (st' := checkMessageWindowForAddresses env st) in *.
    set (st1 := emit (ModelRequest mo p u) st) in *.
    assert (N : newEvents st st' = [ModelRequest mo p u] ++ newEvents st1 st').
    { apply newEvents_app. rewrite He. cbn [events emit st1]. now rewrite <- app_assoc. }
    rewrite N, candidates_app, modelRequests_app. split.
    + apply candidates_all. eapply Forall_impl; [exact H|]. now intros e [H1 _].
    + rewrite (modelRequests_none (newEvents st1 st')); [simpl; lia|].
      eapply Forall_impl; [exact H|]. now intros e [_ H2].
Qed.

(** ** The gate of the reconstruction block *)

(** the loop over the direct matches hands on no reconstructed candidate *)
Lemma processMatches_direct (env : Env) (cleaned : jsstring) (el : Element)
  (ms : list jsstring) (st : State) :
  Forall (λ e, ∀ c m, e ≠ Processed c m true)
    (newEvents st (fst (processMatches env cleaned el ms st))).
Proof.
  set (ok := λ e : Event, ∀ c m, e ≠ Processed c m true).
  assert (H : since st ok (fst (processMatches env cleaned el ms st))).
  { unfold processMatches.
    apply (fold_left_preserves_fst (since st ok) _ ms (λ _, True));
      [|now apply Forall_true|apply since_refl].
    intros [s b] a _ Hs. cbn [fst] in *.
    pose proof (processAddress_extends env s a cleaned el false) as Hext.
    pose proof (processAddress_events env s a cleaned el false) as Hev.
    destruct (processAddress env s a cleaned el false) as [s' r]. cbn [fst] in *.
    apply (since_step st ok s s' _ Hs Hext).
    eapply Forall_impl; [exact Hev|]. cbv beta.
    intros e [->|(c0 & _ & _ & [[q ->]|[->|(-> & _)]])] c m; discriminate. }
  exact (proj2 H).
Qed.

(** C7, as amended.  The combination of fragments with suffixes runs only
    when no address matched directly in the message has been verified.  When
    one has been, the extraction is the loop over the direct matches and
    nothing else: no reconstructed candidate is handed on.  When none has
    been, then for every part of the message that is a fragment not ending
    in pump and every part that is tagged as a suffix, the suffix is joined
    to the fragment without its first three characters if the fragment
    already ends with them, and in full otherwise; and every joined string
    that is a well-formed address is handed to [processAddress] as a
    reconstructed candidate. *)
Theorem fragment_suffix_combination (env : Env) (st : State) (cleanedText : jsstring)
  (el : Element) :
  let direct :=
    processMatches env cleanedText el (matchAll solanaAddressRegex cleanedText) st in
  let st' := extractFromMessage env st cleanedText el in
  (snd direct = true →
   st' = fst direct ∧ ∀ c m, Processed c m true ∉ newEvents st st') ∧
  (snd direct = false →
   ∀ f s,
     f ∈ findPotentialAddressParts cleanedText → isFragment f = true →
     s ∈ findPotentialAddressParts cleanedText → isSuffix s = true →
     let combined :=
       Part.text f ++
       (if endsWith (Part.text f) (take 3 (Part.text s))
        then drop 3 (Part.text s) else Part.text s) in
     wellFormed combined →
     Processed combined cleanedText true ∈ newEvents st st').
Proof.
  intros direct st'. split.
  { intros Hdirect.
    assert (Hst : st' = fst direct).
    { subst st' direct. unfold extractFromMessage.
      destruct (processMatches _ _ _ _ _) as [st1 found]. cbn [fst snd] in *.
      now subst found. }
    split; [exact Hst|]. rewrite Hst. intros c m Hin.
    pose proof (processMatches_direct env cleanedText el
                  (matchAll solanaAddressRegex cleanedText) st) as H.
    rewrite Forall_forall in H. now apply (H _ Hin c m). }

  intros Hdirect f s Hf Hfrag Hs Hsuf combined Hwf. subst direct st'.
  change combined with (combineWithSuffix (Part.text f) (Part.text s)) in *.
  clear combined. unfold extractFromMessage.
  pose proof (processMatches_quiet env cleanedText el
                (matchAll solanaAddressRegex cleanedText) st) as Q1.
  destruct (processMatches _ _ _ _ _) as [st1 found]. cbn [fst snd] in *. subst found.
  rewrite (suffix_triggers cleanedText s Hs Hsuf). cbn [negb andb].
  set (fragments := filter _ _). set (suffixes := filter _ _).
  pose proof (combineFragments_quiet env cleanedText el fragments suffixes st1) as Q2.
  assert (Hemit : Processed (combineWithSuffix (Part.text f) (Part.text s)) cleanedText true
                    ∈ newEvents st1
                        (fst (combineFragments env cleanedText el fragments suffixes st1))).
  { unfold combineFragments.
    apply (fold_left_emits _ fragments (st1, false) f).
    - intros acc y. apply fold_left_quiet_fst. intros acc' z.
      apply tryFragmentSuffix_quiet.
    - subst fragments. apply list_elem_of_filter. auto.
    - intros acc. apply (fold_left_emits _ suffixes acc s).
      + intros acc' z. apply tryFragmentSuffix_quiet.
      + subst suffixes. apply list_elem_of_filter. auto.
      + intros [st0 b]. unfold tryFragmentSuffix.
        rewrite (proj2 (validCombined_wellFormed _) Hwf).
        destruct (processAddress_new env st0
                    (combineWithSuffix (Part.text f) (Part.text s)) cleanedText el true)
          as (rest & Hnew & _).
        destruct (processAddress env st0 _ cleanedText el true) as [st0' res].
        cbn [fst] in *. rewrite Hnew. now left. }
  destruct (combineFragments _ _ _ _ _ _) as [st2 found']. cbn [fst] in *.
  assert (H12 : Processed (combineWithSuffix (Part.text f) (Part.text s)) cleanedText true
                  ∈ newEvents st st2).
  { apply (newEvents_in_trans st st1 st2); auto using quiet_gated. }
  destruct found'; cbn [negb]; [exact H12|].
  apply (newEvents_in_trans st st2).
  - eapply gated_trans; apply quiet_gated; eassumption.
  - apply f_gated, aiFallback_framed.
  - now left.
Qed.

Lemma fragment_suffix_combination_witness :
  Processed (fragment28 ++ lit "pump") fragmentMessage true
    ∈ newEvents initialState
        (extractFromMessage refusingEnv initialState fragmentMessage elementA).
Proof.
  apply (proj2 (fragment_suffix_combination refusingEnv initialState fragmentMessage
                  elementA) eq_refl fragmentPart pumpPart).
  - apply (bool_decide_unpack _). vm_compute. exact I.
  - reflexivity.
  - apply (bool_decide_unpack _). vm_compute. exact I.
  - reflexivity.
  - apply (bool_decide_unpack _). vm_compute. exact I.
Defined.

(** C7 as the specification words it fails: the message holds a fragment and
    the suffix pump, which join into a well-formed address, next to a full
    address; the full address is verified, and the joined string is never
    handed on. *)
Lemma fragment_suffix_counterexample :
  let st' :=
    checkForSolanaAddresses registryEnv 0 (lit "c") initialState
      (Some fragmentAndAddressMessage) elementA in
  fragmentPart ∈ findPotentialAddressParts (cleanMessageText (Some fragmentAndAddressMessage)) ∧
  isFragment fragmentPart = true ∧
  pumpPart ∈ findPotentialAddressParts (cleanMessageText (Some fragmentAndAddressMessage)) ∧
  isSuffix pumpPart = true ∧
  wellFormed (combineWithSuffix (Part.text fragmentPart) (Part.text pumpPart)) ∧
  candidates (events st') = [sampleAddress] ∧
  combineWithSuffix (Part.text fragmentPart) (Part.text pumpPart) ∉ candidates (events st').
Proof.
  cbv zeta.
  split; [apply (bool_decide_unpack _); vm_compute; exact I|].
  split; [reflexivity|].
  split; [apply (bool_decide_unpack _); vm_compute; exact I|].
  split; [reflexivity|].
  split; [apply (bool_decide_unpack _); vm_compute; exact I|].
  split; [vm_compute; reflexivity|].
  apply (bool_decide_unpack _). vm_compute. exact I.
Qed.
